(** * eodms_dds: retry layer, status poller, resumable downloader, shadow DB

    A shallow embedding of the Python package [eodms_dds.dds] and the
    properties of its bulk-retrieval engine.

    Conventions of the embedding:
    - Python floats that carry delays are rationals ([Q]); the arithmetic is
      the exact one, rounding is not modelled.
    - A call that may raise returns a [result]; the exception is a value of
      [exn].
    - The network, the random generator and the clock are an abstract
      [World] threaded through every call, together with a chronological
      [log] of what the code asked of them.
    - The file system is a finite map from path strings to file contents. *)

From Stdlib Require Import ZArith QArith Qminmax Qpower Bool Lia Lqa Ascii.
From stdpp Require Import base option list gmap strings.

Close Scope Q_scope.
Local Open Scope Z_scope.

(** ** Python values shared by the modules *)

(** Exceptions the modelled code can see. *)
Inductive exn : Type :=
| ConnectionError
| HTTPError (code : Z)
| ValueError
| IOError
| KeyError
| AttributeError
| FileExistsError
| FileNotFoundError
| BadZipFile.

Inductive result (A : Type) : Type :=
| Ok (a : A)
| Raise (e : exn).
Arguments Ok {A} a.
Arguments Raise {A} e.

#[local] Set Warnings "-register-all".

(** What [json.loads] produces. Python's [None] is [JNull]; a [dict] keeps
    one binding per key, looked up by [jget]. *)
Inductive json : Type :=
| JNull
| JBool (b : bool)
| JNum (q : Q)
| JStr (s : string)
| JArr (items : list json)
| JObj (fields : list (string * json)).

(** A [requests]-style response as far as the code looks at it: the status
    code, the headers, and what [resp.json()] gives ([None] when it raises). *)
Record response : Type := Response {
  status_code : Z;
  headers : gmap string string;
  json_body : option json
}.

(** [d.get(k)] on a parsed object: the value, or [None] when [k] is absent. *)
Definition jget (k : string) (fields : list (string * json)) : json :=
  match find (fun kv => String.eqb (fst kv) k) fields with
  | Some kv => snd kv
  | None => JNull
  end.

(** Truthiness of a Python value that came out of JSON. *)
Definition json_truthy (v : json) : bool :=
  match v with
  | JNull => false
  | JBool b => b
  | JNum q => negb (Qeq_bool q 0)
  | JStr s => match s with EmptyString => false | _ => true end
  | JArr l => match l with [] => false | _ => true end
  | JObj f => match f with [] => false | _ => true end
  end.

(** Truthiness of a Python [str]: the empty string is false. *)
Definition str_truthy (s : string) : bool :=
  match s with EmptyString => false | _ => true end.

(** [code == 429 or (code and 500 <= code < 600)] on an integer code. *)
Definition retryable (code : Z) : bool :=
  (code =? 429) || ((500 <=? code) && (code <? 600)).

(** [random.random()] returns a float in the half-open interval [0, 1). *)
Record unit_float : Type := UnitFloat {
  uf_val : Q;
  uf_range : Qle_bool 0 uf_val && negb (Qle_bool 1 uf_val) = true
}.

(** ** base.py: backoff arithmetic of [_sleep_for_retry] *)

Module Backoff.
Local Open Scope Q_scope.

Section WithFloatParser.
(** [float(s)] on a header value: [None] stands for [ValueError]. *)
Variable py_float : string -> option Q.

(** Lines 39-46: the delay taken from [Retry-After], only on a 429. *)
Definition retry_after_delay (resp : option response) : option Q :=
  match resp with
  | Some r =>
      if (status_code r =? 429)%Z then
        match headers r !! "Retry-After"%string with
        | Some ra => if str_truthy ra then py_float ra else None
        | None => None
        end
      else None
  | None => None
  end.

(** Line 48: [min(max_backoff, backoff_factor * (2 ** (attempt - 1)))]. *)
Definition exp_backoff (attempt : Z) (backoff_factor max_backoff : Q) : Q :=
  Qmin max_backoff (backoff_factor * 2 ^ (attempt - 1)).

(** The value of [delay] just before line 49. *)
Definition pre_jitter_delay (resp : option response) (attempt : Z)
    (backoff_factor max_backoff : Q) : Q :=
  match retry_after_delay resp with
  | Some d => d
  | None => exp_backoff attempt backoff_factor max_backoff
  end.

(** Line 49: [0.5 + 0.5 * random.random()]. *)
Definition jitter (u : unit_float) : Q := (1 # 2) + (1 # 2) * uf_val u.

(** The argument of [time.sleep] on line 50. *)
Definition sleep_delay (resp : option response) (attempt : Z)
    (backoff_factor max_backoff : Q) (u : unit_float) : Q :=
  pre_jitter_delay resp attempt backoff_factor max_backoff * jitter u.

End WithFloatParser.

Lemma jitter_range (u : unit_float) : (1 # 2) <= jitter u /\ jitter u < 1.
Proof.
  destruct u as [v Hv]. unfold jitter. simpl.
  apply andb_prop in Hv. destruct Hv as [H0 H1].
  apply Qle_bool_iff in H0.
  apply negb_true_iff in H1.
  assert (Hlt : v < 1).
  { apply Qnot_le_lt. intros Hle. apply Qle_bool_iff in Hle. congruence. }
  split; lra.
Qed.

Lemma exp_backoff_capped (attempt : Z) (bf mb : Q) :
  exp_backoff attempt bf mb <= mb.
Proof. unfold exp_backoff. apply Q.le_min_l. Qed.



Lemma exp_backoff_nonneg (attempt : Z) (bf mb : Q) :
  0 <= bf -> 0 <= mb -> 0 <= exp_backoff attempt bf mb.
Proof.
  intros Hbf Hmb. unfold exp_backoff. apply Q.min_glb; [exact Hmb|].
  apply Qmult_le_0_compat; [exact Hbf|]. apply Qpower_0_le. discriminate.
Qed.

Lemma jittered_nonneg (d : Q) (u : unit_float) :
  0 <= d -> Qle_bool 0 (d * jitter u) = true.
Proof.
  intros H. apply Qle_bool_iff. apply Qmult_le_0_compat; [exact H|].
  destruct (jitter_range u) as [Hj _]. lra.
Qed.




(** The sum of a list of delays. *)
Definition total (l : list Q) : Q := foldr Qplus 0 l.

(** A jittered delay that [time.sleep] accepts is at most the ceiling of
    the delay before jitter. *)
Lemma jittered_capped (p mb : Q) (u : unit_float) :
  p <= mb -> 0 <= p * jitter u -> p * jitter u <= mb.
Proof.
  intros Hcap Hacc. destruct (jitter_range u) as [Hj1 Hj2].
  set (j := jitter u) in *.
  assert (Hp : 0 <= p).
  { destruct (Qlt_le_dec p 0) as [Hneg|Hpos]; [|exact Hpos].
    assert (Hj : 0 < j) by lra.
    pose proof (Qmult_lt_compat_r _ _ _ Hj Hneg) as Hm. lra. }
  assert (Hle : p * j <= p * 1).
  { rewrite (Qmult_comm p j), (Qmult_comm p 1).
    apply Qmult_le_compat_r; [lra | exact Hp]. }
  lra.
Qed.

Lemma total_capped (l : list Q) (mb : Q) :
  forall k : nat,
    Forall (fun d => d <= mb) l -> (length l <= k)%nat -> 0 <= mb ->
    total l <= inject_Z (Z.of_nat k) * mb.
Proof.
  induction l as [|d l IH]; intros k Hall Hlen Hmb.
  - simpl. apply Qmult_le_0_compat; [|exact Hmb].
    change 0 with (inject_Z 0). rewrite <- Zle_Qle. lia.
  - destruct k as [|k]; [simpl in Hlen; lia|].
    apply Forall_cons in Hall as [Hd Hall].
    specialize (IH k Hall ltac:(simpl in Hlen; lia) Hmb).
    rewrite Nat2Z.inj_succ. unfold Z.succ. rewrite inject_Z_plus.
    rewrite Qmult_plus_distr_l. simpl total. change (inject_Z 1) with 1. lra.
Qed.

End Backoff.

(** ** base.py and items.py: the request executor and the status poller *)

Module Poller.

(** Why the poller drops an item (the two [logger.warning] calls). *)
Inductive skip_reason : Type := MissingIds | FetchFailure.

(** What a call asks of its environment, in the order it happens. *)
Inductive event : Type :=
| EvRequest (url : string) (out : result (option response))
| EvSleep (delay : Q)
| EvSetImgInfo (data : json)
| EvError
| EvWarning (why : skip_reason)
| EvProgress (n_ready n_queued n_unknown : nat) (eta : Q).

Section WithWorld.
(** The environment: network, token service, random generator, clock. *)
Variable World : Type.
(** [aaa.AAA_API.prepare_request] and [get_access_token]: the [aaa] module is
    outside the package sources, so both are parameters. A transport failure
    is [Raise]; [Ok None] is a call that hands back no response object. *)
Variable prepare_request :
  string -> gmap string string -> World -> result (option response) * World.
Variable get_access_token : World -> result string * World.
Variable random_random : World -> unit_float * World.
Variable perf_counter : World -> Q * World.
Variable py_float : string -> option Q.
(** [str(v)] on a JSON value. *)
Variable py_str : json -> string.
(** [self.domain]. *)
Variable domain : string.

Record State : Type := MkState {
  world : World;
  img_info : json;
  log : list event
}.

Definition emit (e : event) (s : State) : State :=
  MkState (world s) (img_info s) (log s ++ [e]).

Definition with_world (w : World) (s : State) : State :=
  MkState w (img_info s) (log s).

(** [time.sleep(d)]: raises [ValueError] on a negative argument. *)
Definition time_sleep (d : Q) (s : State) : result unit * State :=
  if Qle_bool 0 d then (Ok tt, emit (EvSleep d) s) else (Raise ValueError, s).

(** base.py, [_sleep_for_retry]. *)
Definition _sleep_for_retry (resp : option response) (attempt : nat)
    (backoff_factor max_backoff : Q) (s : State) : result unit * State :=
  let '(u, w) := random_random (world s) in
  time_sleep
    (Backoff.sleep_delay py_float resp (Z.of_nat attempt) backoff_factor max_backoff u)
    (with_world w s).

(** [code in (200, 202)] for [code = getattr(resp, "status_code", None)]. *)
Definition is_success (resp : option response) : bool :=
  match resp with
  | Some r => (status_code r =? 200) || (status_code r =? 202)
  | None => false
  end.

(** [code == 429 or (code and 500 <= code < 600)]. *)
Definition is_retryable (resp : option response) : bool :=
  match resp with
  | Some r => retryable (status_code r)
  | None => false
  end.

(** The [for attempt in range(1, max_retries + 1)] loop of
    [_request_with_retries]; [attempts] is what is left of the range and
    [resp] the local of that name. *)
Fixpoint request_loop (url : string) (hdrs : gmap string string)
    (max_retries : nat) (backoff_factor max_backoff : Q)
    (attempts : list nat) (resp : option response) (s : State)
  : result (option response) * State :=
  match attempts with
  | [] => (Ok resp, s)
  | attempt :: rest =>
      let '(out, w) := prepare_request url hdrs (world s) in
      let s1 := emit (EvRequest url out) (with_world w s) in
      match out with
      | Raise e => (Raise e, s1)
      | Ok resp =>
          if is_success resp then (Ok resp, s1)
          else if is_retryable resp && (attempt <? max_retries)%nat then
            match _sleep_for_retry resp attempt backoff_factor max_backoff s1 with
            | (Ok _, s2) =>
                request_loop url hdrs max_retries backoff_factor max_backoff
                  rest resp s2
            | (Raise e, s2) => (Raise e, s2)
            end
          else (Ok resp, s1)
      end
  end.

(** base.py, [_request_with_retries]. [max_retries] is a [nat]: a negative
    Python [int] gives the same empty range as [0]. *)
Definition _request_with_retries (url : string) (hdrs : gmap string string)
    (max_retries : nat) (backoff_factor max_backoff : Q) (s : State)
  : result (option response) * State :=
  request_loop url hdrs max_retries backoff_factor max_backoff
    (seq 1 max_retries) None s.

(** *** items.py *)

Definition set_img_info (data : json) (s : State) : State :=
  MkState (world s) data (log s ++ [EvSetImgInfo data]).

(** items.py, [get_item]: the parsed item, or [JNull] (Python [None]) on
    failure. The defaults of [_request_with_retries] apply: 5 attempts,
    factor 1.0, ceiling 30.0. *)
Definition get_item (collection item_uuid catalog : string) (s : State)
  : result json * State :=
  let url := domain +:+ "/dds/v1/item/" +:+ catalog +:+ "/" +:+ collection
                    +:+ "/" +:+ item_uuid in
  let '(tok, w) := get_access_token (world s) in
  match tok with
  | Raise e => (Raise e, with_world w s)
  | Ok access_token =>
      let hdrs : gmap string string :=
        {[ "Authorization" := "Bearer " +:+ access_token ]} in
      match _request_with_retries url hdrs 5 1%Q 30%Q (with_world w s) with
      | (Raise e, s1) => (Raise e, s1)
      | (Ok None, s1) => (Ok JNull, emit EvError s1)
      | (Ok (Some resp), s1) =>
          if (status_code resp =? 200) || (status_code resp =? 202) then
            match json_body resp with
            | Some data => (Ok data, set_img_info data s1)
            | None => (Ok JNull, s1)
            end
          else (Ok JNull, emit EvError s1)
      end
  end.

Inductive bucket : Type := Ready | Queued | Unknown.

(** The [if st == "Available" ... elif st == "Queued" ... else] dispatch. *)
Definition bucket_of_status (st : json) : bucket :=
  match st with
  | JStr v =>
      if String.eqb v "Available" then Ready
      else if String.eqb v "Queued" then Queued
      else Unknown
  | _ => Unknown
  end.

(** The locals of the polling loop. *)
Record poll_state : Type := MkPoll {
  ready : list json;
  queued : list json;
  unknown : list json;
  total_elapsed : Q;
  n_done : nat;
  last_ts : Q
}.

(** The returned dict [{"ready": ..., "queued": ..., "unknown": ...}]. *)
Record buckets : Type := MkBuckets {
  b_ready : list json;
  b_queued : list json;
  b_unknown : list json
}.

Definition append_to (b : bucket) (data : json) (st : poll_state) : poll_state :=
  match b with
  | Ready =>
      MkPoll (ready st ++ [data]) (queued st) (unknown st)
        (total_elapsed st) (n_done st) (last_ts st)
  | Queued =>
      MkPoll (ready st) (queued st ++ [data]) (unknown st)
        (total_elapsed st) (n_done st) (last_ts st)
  | Unknown =>
      MkPoll (ready st) (queued st) (unknown st ++ [data])
        (total_elapsed st) (n_done st) (last_ts st)
  end.

(** Lines 175-184 (and 112-122): what the loop does with [data]. A value
    that is neither [None] nor a dict has no [.get]. *)
Definition classify (data : json) (st : poll_state) (s : State)
  : result poll_state * State :=
  match data with
  | JNull => (Ok st, emit (EvWarning FetchFailure) s)
  | JObj fields =>
      (Ok (append_to (bucket_of_status (jget "status" fields)) data st), s)
  | _ => (Raise AttributeError, s)
  end.

Definition Qlt_bool (a b : Q) : bool := negb (Qle_bool b a).

(** Lines 166-170: the sleep-based throttle in front of each request. *)
Definition throttle (min_interval : Q) (st : poll_state) (s : State)
  : result unit * State :=
  if Qlt_bool 0 min_interval then
    let '(now, w) := perf_counter (world s) in
    let wait := (last_ts st + min_interval - now)%Q in
    if Qlt_bool 0 wait then time_sleep wait (with_world w s)
    else (Ok tt, with_world w s)
  else (Ok tt, s).

(** The [finally] block: timing, then the progress postfix with the bucket
    sizes and [eta = avg * (n_total - n_done)], where
    [avg = total_elapsed / max(1, n_done)]. *)
Definition finish_item (n_total : nat) (t0 : Q) (st : poll_state) (s : State)
  : poll_state * State :=
  let '(t1, w1) := perf_counter (world s) in
  let '(t2, w2) := perf_counter w1 in
  let st' := MkPoll (ready st) (queued st) (unknown st)
               (total_elapsed st + (t1 - t0))%Q (S (n_done st)) t2 in
  let avg := (total_elapsed st' / inject_Z (Z.max 1 (Z.of_nat (n_done st'))))%Q in
  let eta := (avg * inject_Z (Z.of_nat n_total - Z.of_nat (n_done st')))%Q in
  (st', emit (EvProgress (length (ready st')) (length (queued st'))
                (length (unknown st')) eta)
          (with_world w2 s)).

(** [try: body finally: ...]: the [finally] block runs on both exits and an
    exception of the body goes on after it. *)
Definition with_finally (n_total : nat) (t0 : Q) (st : poll_state)
    (r : result poll_state * State) : result poll_state * State :=
  let '(out, s1) := r in
  match out with
  | Ok st1 =>
      let '(st2, s2) := finish_item n_total t0 st1 s1 in (Ok st2, s2)
  | Raise e =>
      let '(_, s2) := finish_item n_total t0 st s1 in (Raise e, s2)
  end.

(** One iteration of the loop of [get_items] on the entry [e]. *)
Definition poll_entry (catalog : string) (n_total : nat) (min_interval : Q)
    (e : gmap string string) (st : poll_state) (s : State)
  : result poll_state * State :=
  match throttle min_interval st s with
  | (Raise x, s1) => (Raise x, s1)
  | (Ok _, s1) =>
      let '(t0, w) := perf_counter (world s1) in
      let s2 := with_world w s1 in
      with_finally n_total t0 st
        match e !! "collectionId", e !! "archiveId" with
        | Some collection, Some archive =>
            match get_item collection archive catalog s2 with
            | (Raise x, s3) => (Raise x, s3)
            | (Ok data, s3) => classify data st s3
            end
        | _, _ => (Raise KeyError, s2)
        end
  end.

Fixpoint poll_entries (catalog : string) (n_total : nat) (min_interval : Q)
    (items : list (gmap string string)) (st : poll_state) (s : State)
  : result poll_state * State :=
  match items with
  | [] => (Ok st, s)
  | e :: rest =>
      match poll_entry catalog n_total min_interval e st s with
      | (Ok st1, s1) => poll_entries catalog n_total min_interval rest st1 s1
      | (Raise x, s1) => (Raise x, s1)
      end
  end.

Definition min_interval_of (rate_limit_per_sec : Q) : Q :=
  if Qlt_bool 0 rate_limit_per_sec then (1 / rate_limit_per_sec)%Q else 0%Q.

Definition poll_init : poll_state := MkPoll [] [] [] 0%Q 0 0%Q.

Definition to_buckets (st : poll_state) : buckets :=
  MkBuckets (ready st) (queued st) (unknown st).

(** items.py, [get_items]. *)
Definition get_items (entries : list (gmap string string)) (catalog : string)
    (rate_limit_per_sec : Q) (s : State) : result buckets * State :=
  match poll_entries catalog (length entries)
          (min_interval_of rate_limit_per_sec) entries poll_init s with
  | (Ok st, s1) => (Ok (to_buckets st), s1)
  | (Raise x, s1) => (Raise x, s1)
  end.

(** A query result as the protocol [QueryResultLike] shows it. *)
Record query_result : Type := MkQueryResult {
  uuid : option string;
  query_data : option (list (string * json))
}.

(** [for k in keys: if qd.get(k): v = str(qd[k]); break]. *)
Fixpoint first_truthy (keys : list string) (qd : list (string * json))
  : option string :=
  match keys with
  | [] => None
  | k :: rest =>
      if json_truthy (jget k qd) then Some (py_str (jget k qd))
      else first_truthy rest qd
  end.

(** items.py, [_resolve_ids]. *)
Definition _resolve_ids (qr : query_result) : option (string * string) :=
  let qd := default [] (query_data qr) in
  let coll :=
    first_truthy ["collectionId"; "collectionID"; "collection"; "collection_name"] qd in
  let arch := first_truthy ["archiveId"; "datasetId"; "recordId"; "featureId"] qd in
  let arch :=
    match arch, uuid qr with
    | None, Some u => if str_truthy u then Some u else None
    | _, _ => arch
    end in
  match coll, arch with
  | Some c, Some a => if str_truthy c && str_truthy a then Some (c, a) else None
  | _, _ => None
  end.

(** One iteration of the loop of [get_items_from_results]. *)
Definition poll_result (catalog : string) (n_total : nat) (min_interval : Q)
    (qr : query_result) (st : poll_state) (s : State)
  : result poll_state * State :=
  match throttle min_interval st s with
  | (Raise x, s1) => (Raise x, s1)
  | (Ok _, s1) =>
      let '(t0, w) := perf_counter (world s1) in
      let s2 := with_world w s1 in
      with_finally n_total t0 st
        match _resolve_ids qr with
        | None => (Ok st, emit (EvWarning MissingIds) s2)
        | Some (collection_id, archive_id) =>
            match get_item collection_id archive_id catalog s2 with
            | (Raise x, s3) => (Raise x, s3)
            | (Ok data, s3) => classify data st s3
            end
        end
  end.

Fixpoint poll_results (catalog : string) (n_total : nat) (min_interval : Q)
    (items : list query_result) (st : poll_state) (s : State)
  : result poll_state * State :=
  match items with
  | [] => (Ok st, s)
  | qr :: rest =>
      match poll_result catalog n_total min_interval qr st s with
      | (Ok st1, s1) => poll_results catalog n_total min_interval rest st1 s1
      | (Raise x, s1) => (Raise x, s1)
      end
  end.

(** items.py, [get_items_from_results]. *)
Definition get_items_from_results (results : list query_result)
    (catalog : string) (rate_limit_per_sec : Q) (s : State)
  : result buckets * State :=
  match poll_results catalog (length results)
          (min_interval_of rate_limit_per_sec) results poll_init s with
  | (Ok st, s1) => (Ok (to_buckets st), s1)
  | (Raise x, s1) => (Raise x, s1)
  end.

(** *** What a log says about items *)

(** The bucket a fetched record belongs to, read off its [status]. *)
Definition record_bucket (data : json) : bucket :=
  match data with
  | JObj fields => bucket_of_status (jget "status" fields)
  | _ => Unknown
  end.

Definition in_bucket (b : bucket) (data : json) : bool :=
  match b, record_bucket data with
  | Ready, Ready | Queued, Queued | Unknown, Unknown => true
  | _, _ => false
  end.

Definition is_null (data : json) : bool :=
  match data with JNull => true | _ => false end.

(** The records the catalog delivered: each assignment
    [self.img_info = resp.json()] of a value other than [None]. *)
Fixpoint fetched (evs : list event) : list json :=
  match evs with
  | [] => []
  | EvSetImgInfo data :: rest =>
      if is_null data then fetched rest else data :: fetched rest
  | _ :: rest => fetched rest
  end.

(** The items dropped with a warning. *)
Fixpoint dropped (evs : list event) : nat :=
  match evs with
  | [] => 0
  | EvWarning _ :: rest => S (dropped rest)
  | _ :: rest => dropped rest
  end.

(** The requests sent, with what came back. *)
Fixpoint requests (evs : list event) : list (result (option response)) :=
  match evs with
  | [] => []
  | EvRequest _ out :: rest => out :: requests rest
  | _ :: rest => requests rest
  end.

Lemma fetched_app (a b : list event) : fetched (a ++ b) = fetched a ++ fetched b.
Proof.
  induction a as [|e a IH]; [reflexivity|].
  destruct e; simpl; try exact IH.
  destruct (is_null data); simpl; congruence.
Qed.

Lemma dropped_app (a b : list event) : dropped (a ++ b) = (dropped a + dropped b)%nat.
Proof.
  induction a as [|e a IH]; [reflexivity|].
  destruct e; simpl; lia.
Qed.

Lemma requests_app (a b : list event) : requests (a ++ b) = requests a ++ requests b.
Proof.
  induction a as [|e a IH]; [reflexivity|].
  destruct e; simpl; congruence.
Qed.

(** [s'] is [s] after the events [evs]. *)
Definition extends (s s' : State) (evs : list event) : Prop :=
  log s' = log s ++ evs.

Lemma extends_refl (s : State) : extends s s [].
Proof. unfold extends. by rewrite app_nil_r. Qed.

Lemma extends_trans (s1 s2 s3 : State) (a b : list event) :
  extends s1 s2 a -> extends s2 s3 b -> extends s1 s3 (a ++ b).
Proof. unfold extends. intros -> ->. by rewrite app_assoc. Qed.

Lemma extends_with_world (w : World) (s : State) : extends s (with_world w s) [].
Proof. unfold extends. simpl. by rewrite app_nil_r. Qed.

Lemma extends_emit (e : event) (s : State) : extends s (emit e s) [e].
Proof. reflexivity. Qed.

(** Events of the retry layer only: requests and sleeps. *)
Definition is_net (e : event) : Prop :=
  match e with EvRequest _ _ | EvSleep _ => True | _ => False end.

Lemma net_fetched (evs : list event) : Forall is_net evs -> fetched evs = [].
Proof.
  induction 1 as [|e evs He _ IH]; [reflexivity|].
  destruct e; simpl in *; try contradiction; exact IH.
Qed.

Lemma net_dropped (evs : list event) : Forall is_net evs -> dropped evs = 0%nat.
Proof.
  induction 1 as [|e evs He _ IH]; [reflexivity|].
  destruct e; simpl in *; try contradiction; exact IH.
Qed.

Lemma time_sleep_extends (d : Q) (s s' : State) (r : result unit) :
  time_sleep d s = (r, s') ->
  exists evs, extends s s' evs /\ Forall is_net evs.
Proof.
  unfold time_sleep. intros H. destruct (Qle_bool 0 d); simplify_eq.
  - exists [EvSleep d]. split; [apply extends_emit | repeat constructor].
  - exists []. split; [apply extends_refl | constructor].
Qed.

Lemma sleep_for_retry_extends resp attempt bf mb (s s' : State) (r : result unit) :
  _sleep_for_retry resp attempt bf mb s = (r, s') ->
  exists evs, extends s s' evs /\ Forall is_net evs.
Proof.
  unfold _sleep_for_retry. destruct (random_random (world s)) as [u w].
  intros H. apply time_sleep_extends in H as (evs & He & Hn).
  exists evs. split; [|exact Hn]. exact He.
Qed.

Lemma request_loop_extends url hdrs n bf mb attempts :
  forall resp (s s' : State) r,
    request_loop url hdrs n bf mb attempts resp s = (r, s') ->
    exists evs, extends s s' evs /\ Forall is_net evs.
Proof.
  induction attempts as [|a rest IH]; intros resp s s' r H; simpl in H.
  - simplify_eq. exists []. split; [apply extends_refl | constructor].
  - destruct (prepare_request url hdrs (world s)) as [out w].
    set (s1 := emit (EvRequest url out) (with_world w s)) in *.
    assert (H1 : extends s s1 [EvRequest url out]) by reflexivity.
    assert (N1 : Forall is_net [EvRequest url out]) by (repeat constructor).
    destruct out as [resp'|e]; [|simplify_eq; eauto].
    destruct (is_success resp'); [simplify_eq; eauto|].
    destruct (is_retryable resp' && (a <? n)%nat); [|simplify_eq; eauto].
    destruct (_sleep_for_retry resp' a bf mb s1) as [[[]|e] s2] eqn:Hs.
    + apply sleep_for_retry_extends in Hs as (e2 & H2 & N2).
      apply IH in H as (e3 & H3 & N3).
      exists ([EvRequest url (Ok resp')] ++ e2 ++ e3). split.
      * eapply extends_trans; [exact H1|]. eapply extends_trans; eassumption.
      * apply Forall_app; split; [exact N1|]. apply Forall_app; split; assumption.
    + apply sleep_for_retry_extends in Hs as (e2 & H2 & N2). simplify_eq.
      exists ([EvRequest url (Ok resp')] ++ e2). split.
      * eapply extends_trans; eassumption.
      * apply Forall_app; split; assumption.
Qed.

Lemma get_item_log collection item_uuid catalog (s s' : State) r :
  get_item collection item_uuid catalog s = (r, s') ->
  exists evs,
    extends s s' evs /\ dropped evs = 0%nat /\
    forall data, r = Ok data ->
      fetched evs = if is_null data then [] else [data].
Proof.
  unfold get_item. destruct (get_access_token (world s)) as [[tok|e] w].
  2:{ intros H. simplify_eq. exists []. split; [apply extends_with_world|].
      split; [reflexivity | discriminate]. }
  destruct (_request_with_retries _ _ _ _ _ _) as [out s1] eqn:Hreq.
  unfold _request_with_retries in Hreq.
  apply request_loop_extends in Hreq as (e1 & H1 & N1).
  assert (H1' : extends s s1 e1) by exact H1.
  pose proof (net_fetched _ N1) as F1. pose proof (net_dropped _ N1) as D1.
  intros H. destruct out as [[resp|]|e].
  - destruct ((status_code resp =? 200) || (status_code resp =? 202)).
    + destruct (json_body resp) as [data|]; simplify_eq.
      * exists (e1 ++ [EvSetImgInfo data]). split; [|split].
        -- unfold extends in *. simpl. rewrite H1'. by rewrite app_assoc.
        -- rewrite dropped_app, D1. reflexivity.
        -- intros d [= <-]. rewrite fetched_app, F1. simpl.
           destruct (is_null data); reflexivity.
      * exists e1. split; [exact H1'|]. split; [exact D1|].
        intros d [= <-]. exact F1.
    + simplify_eq. exists (e1 ++ [EvError]). split; [|split].
      * unfold extends in *. simpl. rewrite H1'. by rewrite app_assoc.
      * rewrite dropped_app, D1. reflexivity.
      * intros d [= <-]. rewrite fetched_app, F1. reflexivity.
  - simplify_eq. exists (e1 ++ [EvError]). split; [|split].
    + unfold extends in *. simpl. rewrite H1'. by rewrite app_assoc.
    + rewrite dropped_app, D1. reflexivity.
    + intros d [= <-]. rewrite fetched_app, F1. reflexivity.
  - simplify_eq. exists e1. split; [exact H1'|]. split; [exact D1|]. discriminate.
Qed.

(** What one iteration adds: the buckets grow by the records fetched in it,
    each filed under its status, and the iteration either fetched one record
    or dropped the item with one warning. *)
Definition grows (st st' : poll_state) (evs : list event) : Prop :=
  ready st' = ready st ++ List.filter (in_bucket Ready) (fetched evs) /\
  queued st' = queued st ++ List.filter (in_bucket Queued) (fetched evs) /\
  unknown st' = unknown st ++ List.filter (in_bucket Unknown) (fetched evs).

Lemma grows_nil (st : poll_state) : grows st st [].
Proof. unfold grows. simpl. by rewrite !app_nil_r. Qed.

Lemma grows_trans (st1 st2 st3 : poll_state) (a b : list event) :
  grows st1 st2 a -> grows st2 st3 b -> grows st1 st3 (a ++ b).
Proof.
  unfold grows. intros (R1 & Q1 & U1) (R2 & Q2 & U2).
  rewrite fetched_app, !List.filter_app, R2, Q2, U2, R1, Q1, U1.
  by rewrite !app_assoc.
Qed.

Lemma in_bucket_total (data : json) :
  in_bucket (record_bucket data) data = true.
Proof. unfold in_bucket. by destruct (record_bucket data). Qed.

Lemma in_bucket_unique (b : bucket) (data : json) :
  in_bucket b data = true -> b = record_bucket data.
Proof. unfold in_bucket. by destruct b, (record_bucket data). Qed.

Lemma append_to_grows (data : json) (st : poll_state) (evs : list event) fields :
  data = JObj fields -> fetched evs = [data] ->
  grows st (append_to (record_bucket data) data st) evs.
Proof.
  intros -> Hf. unfold grows. rewrite Hf.
  cbn [List.filter]. unfold in_bucket.
  destruct (record_bucket (JObj fields)); cbn [append_to ready queued unknown];
    by rewrite ?app_nil_r.
Qed.

Lemma finish_item_keeps n_total t0 (st st' : poll_state) (s s' : State) :
  finish_item n_total t0 st s = (st', s') ->
  ready st' = ready st /\ queued st' = queued st /\ unknown st' = unknown st /\
  exists evs, extends s s' evs /\ fetched evs = [] /\ dropped evs = 0%nat.
Proof.
  unfold finish_item. destruct (perf_counter (world s)) as [t1 w1].
  destruct (perf_counter w1) as [t2 w2]. intros H. simplify_eq. simpl.
  repeat split. eexists. split; [reflexivity|]. split; reflexivity.
Qed.

Lemma throttle_log mi (st : poll_state) (s s' : State) r :
  throttle mi st s = (r, s') ->
  exists evs, extends s s' evs /\ fetched evs = [] /\ dropped evs = 0%nat.
Proof.
  unfold throttle. intros H. destruct (Qlt_bool 0 mi).
  - destruct (perf_counter (world s)) as [now w].
    destruct (Qlt_bool 0 _).
    + apply time_sleep_extends in H as (evs & He & Hn).
      exists evs. split; [exact He|].
      split; [by apply net_fetched | by apply net_dropped].
    + simplify_eq. exists []. split; [apply extends_with_world|]. split; reflexivity.
  - simplify_eq. exists []. split; [apply extends_refl|]. split; reflexivity.
Qed.

(** The body shared by both pollers once the ids are known:
    [get_item] followed by the status dispatch. *)
Lemma fetch_and_classify_log c a catalog (st st' : poll_state) (s s' : State) :
  match get_item c a catalog s with
  | (Raise x, s3) => (Raise x, s3)
  | (Ok data, s3) => classify data st s3
  end = (Ok st', s') ->
  exists evs, extends s s' evs /\ grows st st' evs /\
    (length (fetched evs) + dropped evs = 1)%nat.
Proof.
  destruct (get_item c a catalog s) as [[data|x] s3] eqn:Hg; [|discriminate].
  apply get_item_log in Hg as (e1 & H1 & D1 & F1). specialize (F1 data eq_refl).
  unfold classify. destruct data; try discriminate; intros H; simplify_eq.
  - exists (e1 ++ [EvWarning FetchFailure]). split; [|split].
    + unfold extends in *. simpl. rewrite H1. by rewrite app_assoc.
    + unfold grows. rewrite fetched_app, F1. simpl. by rewrite !app_nil_r.
    + rewrite fetched_app, dropped_app, F1, D1. reflexivity.
  - exists e1. split; [exact H1|]. split.
    + change (bucket_of_status (jget "status" fields))
        with (record_bucket (JObj fields)).
      eapply append_to_grows; [reflexivity | exact F1].
    + rewrite F1, D1. reflexivity.
Qed.

(** Items accounted for by a log: fetched or dropped. *)
Definition tally (evs : list event) : nat :=
  (length (fetched evs) + dropped evs)%nat.

Lemma tally_app (a b : list event) : tally (a ++ b) = (tally a + tally b)%nat.
Proof. unfold tally. rewrite fetched_app, dropped_app, length_app. lia. Qed.

Lemma tally_quiet (evs : list event) :
  fetched evs = [] -> dropped evs = 0%nat -> tally evs = 0%nat.
Proof. unfold tally. by intros -> ->. Qed.

Lemma grows_quiet_l (st st' : poll_state) (a b : list event) :
  fetched a = [] -> grows st st' b -> grows st st' (a ++ b).
Proof. unfold grows. rewrite fetched_app. by intros ->. Qed.

Lemma grows_quiet_r (st st1 st' : poll_state) (a b : list event) :
  grows st st1 a -> fetched b = [] ->
  ready st' = ready st1 -> queued st' = queued st1 -> unknown st' = unknown st1 ->
  grows st st' (a ++ b).
Proof.
  unfold grows. rewrite fetched_app. intros (R & Q & U) -> -> -> ->.
  by rewrite app_nil_r.
Qed.

Lemma with_finally_log n_total t0 (st st' : poll_state) r (s' : State) :
  with_finally n_total t0 st r = (Ok st', s') ->
  exists st1 s1 evs,
    r = (Ok st1, s1) /\ extends s1 s' evs /\
    fetched evs = [] /\ dropped evs = 0%nat /\
    ready st' = ready st1 /\ queued st' = queued st1 /\ unknown st' = unknown st1.
Proof.
  unfold with_finally. destruct r as [[st1|x] s1].
  - destruct (finish_item n_total t0 st1 s1) as [st2 s2] eqn:Hf.
    intros H. simplify_eq.
    apply finish_item_keeps in Hf as (R & Q & U & evs & He & F & D).
    exists st1, s1, evs. done.
  - destruct (finish_item n_total t0 st s1). discriminate.
Qed.

(** One iteration of either poller accounts for exactly one item. *)
Lemma poll_entry_log catalog n_total mi e (st st' : poll_state) (s s' : State) :
  poll_entry catalog n_total mi e st s = (Ok st', s') ->
  exists evs, extends s s' evs /\ grows st st' evs /\ tally evs = 1%nat.
Proof.
  unfold poll_entry.
  destruct (throttle mi st s) as [[[]|x] s1] eqn:Ht; [|discriminate].
  apply throttle_log in Ht as (e1 & H1 & F1 & D1).
  destruct (perf_counter (world s1)) as [t0 w].
  intros H. apply with_finally_log in H
    as (st1 & s3 & e3 & Hb & H3 & F3 & D3 & R & Q & U).
  destruct (e !! "collectionId") as [c|]; [|discriminate].
  destruct (e !! "archiveId") as [a|]; [|discriminate].
  apply fetch_and_classify_log in Hb as (e2 & H2 & G2 & T2).
  exists (e1 ++ e2 ++ e3). split; [|split].
  - eapply extends_trans; [exact H1|]. eapply extends_trans; [|exact H3]. exact H2.
  - apply grows_quiet_l; [exact F1|]. eapply grows_quiet_r; eassumption.
  - rewrite !tally_app, (tally_quiet e1), (tally_quiet e3) by assumption.
    unfold tally. lia.
Qed.

Lemma poll_result_log catalog n_total mi qr (st st' : poll_state) (s s' : State) :
  poll_result catalog n_total mi qr st s = (Ok st', s') ->
  exists evs, extends s s' evs /\ grows st st' evs /\ tally evs = 1%nat.
Proof.
  unfold poll_result.
  destruct (throttle mi st s) as [[[]|x] s1] eqn:Ht; [|discriminate].
  apply throttle_log in Ht as (e1 & H1 & F1 & D1).
  destruct (perf_counter (world s1)) as [t0 w].
  intros H. apply with_finally_log in H
    as (st1 & s3 & e3 & Hb & H3 & F3 & D3 & R & Q & U).
  assert (exists e2, extends (with_world w s1) s3 e2 /\ grows st st1 e2 /\
                     tally e2 = 1%nat) as (e2 & H2 & G2 & T2).
  { destruct (_resolve_ids qr) as [[c a]|].
    - apply fetch_and_classify_log in Hb as (e2 & H2 & G2 & T2). eauto.
    - simplify_eq. exists [EvWarning MissingIds].
      split; [reflexivity|]. split; [apply grows_nil | reflexivity]. }
  exists (e1 ++ e2 ++ e3). split; [|split].
  - eapply extends_trans; [exact H1|]. eapply extends_trans; [|exact H3]. exact H2.
  - apply grows_quiet_l; [exact F1|]. eapply grows_quiet_r; eassumption.
  - rewrite !tally_app, (tally_quiet e1), (tally_quiet e3) by assumption. lia.
Qed.

Lemma poll_entries_log catalog n_total mi items :
  forall (st st' : poll_state) (s s' : State),
    poll_entries catalog n_total mi items st s = (Ok st', s') ->
    exists evs, extends s s' evs /\ grows st st' evs /\
      tally evs = length items.
Proof.
  induction items as [|e rest IH]; intros st st' s s' H; simpl in H.
  - simplify_eq. exists []. split; [apply extends_refl|].
    split; [apply grows_nil | reflexivity].
  - destruct (poll_entry catalog n_total mi e st s) as [[st1|x] s1] eqn:H1;
      [|discriminate].
    apply poll_entry_log in H1 as (e1 & X1 & G1 & T1).
    apply IH in H as (e2 & X2 & G2 & T2).
    exists (e1 ++ e2). split; [eapply extends_trans; eassumption|].
    split; [eapply grows_trans; eassumption|].
    rewrite tally_app, T1, T2. reflexivity.
Qed.

Lemma poll_results_log catalog n_total mi items :
  forall (st st' : poll_state) (s s' : State),
    poll_results catalog n_total mi items st s = (Ok st', s') ->
    exists evs, extends s s' evs /\ grows st st' evs /\
      tally evs = length items.
Proof.
  induction items as [|qr rest IH]; intros st st' s s' H; simpl in H.
  - simplify_eq. exists []. split; [apply extends_refl|].
    split; [apply grows_nil | reflexivity].
  - destruct (poll_result catalog n_total mi qr st s) as [[st1|x] s1] eqn:H1;
      [|discriminate].
    apply poll_result_log in H1 as (e1 & X1 & G1 & T1).
    apply IH in H as (e2 & X2 & G2 & T2).
    exists (e1 ++ e2). split; [eapply extends_trans; eassumption|].
    split; [eapply grows_trans; eassumption|].
    rewrite tally_app, T1, T2. reflexivity.
Qed.

(** Filing by status is a partition: the three filters split a list. *)
Lemma partition_length (l : list json) :
  (length (List.filter (in_bucket Ready) l) +
   length (List.filter (in_bucket Queued) l) +
   length (List.filter (in_bucket Unknown) l))%nat = length l.
Proof.
  induction l as [|d l IH]; [reflexivity|]. cbn [List.filter].
  destruct (in_bucket Ready d) eqn:E1, (in_bucket Queued d) eqn:E2,
    (in_bucket Unknown d) eqn:E3; cbn [length]; try lia;
    unfold in_bucket in E1, E2, E3; destruct (record_bucket d); discriminate.
Qed.

(** The statement of the bucket invariant for a returned value [b], the
    number of input items [n] and the events [evs] of the call. *)
Definition bucket_partition (n : nat) (b : buckets) (evs : list event) : Prop :=
  b_ready b = List.filter (in_bucket Ready) (fetched evs) /\
  b_queued b = List.filter (in_bucket Queued) (fetched evs) /\
  b_unknown b = List.filter (in_bucket Unknown) (fetched evs) /\
  (length (fetched evs) + dropped evs = n)%nat /\
  (length (b_ready b) + length (b_queued b) + length (b_unknown b) <= n)%nat /\
  ((length (b_ready b) + length (b_queued b) + length (b_unknown b))%nat = n
   <-> dropped evs = 0%nat).

Lemma grows_partition (n : nat) (st : poll_state) (evs : list event) :
  grows poll_init st evs -> tally evs = n ->
  bucket_partition n (to_buckets st) evs.
Proof.
  unfold grows, tally, bucket_partition. simpl. intros (R & Q & U) T.
  rewrite R, Q, U. split; [done|]. split; [done|]. split; [done|].
  split; [exact T|]. rewrite partition_length. split; lia.
Qed.

(** C2 (bucket partition). Whenever either poller returns its buckets, the
    records the catalog delivered during the call are split over the three
    buckets by their status ([Available] to ready, [Queued] to queued,
    anything else to unknown), every input item was either fetched or
    dropped with a warning, so the bucket sizes add up to at most the number
    of inputs, with equality exactly when nothing was dropped. *)
Theorem poller_bucket_partition :
  (forall entries catalog rate (s s' : State) b,
      get_items entries catalog rate s = (Ok b, s') ->
      exists evs, extends s s' evs /\ bucket_partition (length entries) b evs) /\
  (forall results catalog rate (s s' : State) b,
      get_items_from_results results catalog rate s = (Ok b, s') ->
      exists evs, extends s s' evs /\ bucket_partition (length results) b evs).
Proof.
  split.
  - intros entries catalog rate s s' b. unfold get_items.
    destruct (poll_entries _ _ _ _ _ _) as [[st|x] s1] eqn:H; [|discriminate].
    intros [= <- <-].
    apply poll_entries_log in H as (evs & He & G & T).
    exists evs. split; [exact He | by apply grows_partition].
  - intros results catalog rate s s' b. unfold get_items_from_results.
    destruct (poll_results _ _ _ _ _ _) as [[st|x] s1] eqn:H; [|discriminate].
    intros [= <- <-].
    apply poll_results_log in H as (evs & He & G & T).
    exists evs. split; [exact He | by apply grows_partition].
Qed.

(** *** The retry discipline of the executor, read off the log *)

(** The shapes a run of the executor can have from attempt [a] on, with its
    outcome: it stops on a transport exception, on a response it hands back,
    or on a refused sleep; or it sleeps and goes on with attempt [a + 1]. *)
Inductive retry_trace (url : string) (n : nat) (bf mb : Q)
  : nat -> list event -> result (option response) -> Prop :=
| rt_raise a e :
    retry_trace url n bf mb a [EvRequest url (Raise e)] (Raise e)
| rt_return a resp :
    is_success resp || negb (is_retryable resp && (a <? n)%nat) = true ->
    retry_trace url n bf mb a [EvRequest url (Ok resp)] (Ok resp)
| rt_refused a resp u :
    is_retryable resp = true -> (a < n)%nat ->
    Qle_bool 0 (Backoff.sleep_delay py_float resp (Z.of_nat a) bf mb u) = false ->
    retry_trace url n bf mb a [EvRequest url (Ok resp)] (Raise ValueError)
| rt_retry a resp u tl r :
    is_retryable resp = true -> (a < n)%nat ->
    Qle_bool 0 (Backoff.sleep_delay py_float resp (Z.of_nat a) bf mb u) = true ->
    retry_trace url n bf mb (S a) tl r ->
    retry_trace url n bf mb a
      (EvRequest url (Ok resp)
       :: EvSleep (Backoff.sleep_delay py_float resp (Z.of_nat a) bf mb u) :: tl) r.

Lemma extends_cons (e : event) (s s' : State) (evs tl : list event) :
  extends s s' evs -> extends (emit e s) s' tl -> evs = e :: tl.
Proof.
  unfold extends. simpl. intros H1 H2. rewrite H2, <- app_assoc in H1.
  by apply app_inv_head in H1.
Qed.

Lemma request_loop_cons url hdrs n bf mb a rest prev (s : State) :
  request_loop url hdrs n bf mb (a :: rest) prev s =
  let '(out, w) := prepare_request url hdrs (world s) in
  let s1 := emit (EvRequest url out) (with_world w s) in
  match out with
  | Raise e => (Raise e, s1)
  | Ok resp =>
      if is_success resp then (Ok resp, s1)
      else if is_retryable resp && (a <? n)%nat then
        match _sleep_for_retry resp a bf mb s1 with
        | (Ok _, s2) => request_loop url hdrs n bf mb rest resp s2
        | (Raise e, s2) => (Raise e, s2)
        end
      else (Ok resp, s1)
  end.
Proof. reflexivity. Qed.

Lemma request_loop_trace url hdrs n bf mb :
  forall k a prev (s s' : State) r evs,
    request_loop url hdrs n bf mb (seq a (S k)) prev s = (r, s') ->
    extends s s' evs ->
    (a + S k = S n)%nat ->
    retry_trace url n bf mb a evs r.
Proof.
  induction k as [|k IH]; intros a prev s s' r evs H He Hk;
    change (seq a (S ?j)) with (a :: seq (S a) j) in H;
    rewrite request_loop_cons in H;
    destruct (prepare_request url hdrs (world s)) as [out w];
    set (s1 := emit (EvRequest url out) (with_world w s)) in *;
    assert (Hone : forall tl, extends s1 s' tl -> evs = EvRequest url out :: tl)
      by (intros tl Htl; eapply (extends_cons _ (with_world w s)); [exact He | exact Htl]).
  all: destruct out as [resp|e];
    [|injection H as <- <-; rewrite (Hone [] (extends_refl _)); constructor].
  all: destruct (is_success resp) eqn:Hsucc;
    [injection H as <- <-; rewrite (Hone [] (extends_refl _));
     apply rt_return; by rewrite Hsucc|].
  all: destruct (is_retryable resp && (a <? n)%nat) eqn:Hgo;
    [|injection H as <- <-; rewrite (Hone [] (extends_refl _));
      apply rt_return; by rewrite Hsucc, Hgo].
  all: apply andb_prop in Hgo as [Hr Halt]; apply Nat.ltb_lt in Halt.
  - lia.
  - unfold _sleep_for_retry, time_sleep in H.
    destruct (random_random (world s1)) as [u w1].
    destruct (Qle_bool 0 _) eqn:Hsl.
    + match type of H with
      | request_loop _ _ _ _ _ _ _ ?x = _ => set (s2 := x) in *
      end.
      destruct (request_loop_extends _ _ _ _ _ _ _ _ _ _ H) as (tl & Htl & _).
      assert (H12 : extends s1 s2 [EvSleep
                (Backoff.sleep_delay py_float resp (Z.of_nat a) bf mb u)])
        by reflexivity.
      rewrite (Hone _ (extends_trans _ _ _ _ _ H12 Htl)). simpl.
      apply rt_retry; try assumption.
      apply (IH (S a) resp s2 s' r tl H Htl). lia.
    + injection H as <- <-.
      assert (H12 : extends s1 (with_world w1 s1) []) by apply extends_with_world.
      rewrite (Hone _ H12). by eapply rt_refused.
Qed.




(** An exception leaves the executor only when the transport raised it or
    when [time.sleep] refused a negative delay. *)
Lemma retry_trace_raise url n bf mb a evs e :
  retry_trace url n bf mb a evs (Raise e) ->
  last (requests evs) = Some (Raise e) \/
  exists resp u k,
    last (requests evs) = Some (Ok resp) /\ e = ValueError /\
    is_retryable resp = true /\
    Qle_bool 0 (Backoff.sleep_delay py_float resp (Z.of_nat k) bf mb u) = false.
Proof.
  remember (Raise e) as r eqn:Hr.
  induction 1 as [a e0|a resp0 Hstop|a resp0 u Hr0 Ha0 Hsl|a resp0 u tl r Hr0 Ha0 Hsl Htl IH];
    simplify_eq.
  - by left.
  - right. exists resp0, u, a. done.
  - assert (Hne : requests tl <> []) by (inversion Htl; discriminate).
    assert (Hl : last (requests (EvRequest url (Ok resp0) :: EvSleep
                  (Backoff.sleep_delay py_float resp0 (Z.of_nat a) bf mb u) :: tl))
                 = last (requests tl)).
    { simpl. destruct (requests tl); [done | reflexivity]. }
    rewrite Hl. by apply IH.
Qed.

(** Every run of the executor with at least one attempt has such a shape,
    starting at attempt 1. *)
Lemma executor_trace url hdrs n bf mb (s s' : State) r :
  _request_with_retries url hdrs n bf mb s = (r, s') ->
  (0 < n)%nat ->
  exists evs, extends s s' evs /\ retry_trace url n bf mb 1 evs r.
Proof.
  unfold _request_with_retries. intros H Hn.
  destruct n as [|k]; [lia|].
  destruct (request_loop_extends _ _ _ _ _ _ _ _ _ _ H) as (evs & He & _).
  exists evs. split; [exact He|].
  eapply request_loop_trace; [exact H | exact He | lia].
Qed.

(** With no attempt allowed the executor sends nothing and returns [None]. *)
Lemma executor_no_attempt url hdrs bf mb (s : State) :
  _request_with_retries url hdrs 0 bf mb s = (Ok None, s).
Proof. reflexivity. Qed.

(** *** Statements about the executor *)





Lemma extends_unique (s s' : State) (a b : list event) :
  extends s s' a -> extends s s' b -> a = b.
Proof. unfold extends. intros Ha Hb. rewrite Ha in Hb. by apply app_inv_head in Hb. Qed.


(** *** Further properties of the executor *)

(** The delays of the sleeps of a log, and the urls of its requests. *)
Fixpoint sleeps (evs : list event) : list Q :=
  match evs with
  | [] => []
  | EvSleep d :: rest => d :: sleeps rest
  | _ :: rest => sleeps rest
  end.

Fixpoint urls (evs : list event) : list string :=
  match evs with
  | [] => []
  | EvRequest u _ :: rest => u :: urls rest
  | _ :: rest => urls rest
  end.

Lemma sleeps_app (a b : list event) : sleeps (a ++ b) = sleeps a ++ sleeps b.
Proof.
  induction a as [|e a IH]; [reflexivity|]. destruct e; simpl; congruence.
Qed.

Lemma urls_app (a b : list event) : urls (a ++ b) = urls a ++ urls b.
Proof.
  induction a as [|e a IH]; [reflexivity|]. destruct e; simpl; congruence.
Qed.

Lemma retry_trace_requests_ne url n bf mb a evs r :
  retry_trace url n bf mb a evs r -> requests evs <> [].
Proof. by destruct 1. Qed.

Lemma retry_trace_budget url n bf mb a evs r :
  retry_trace url n bf mb a evs r -> (a <= n)%nat ->
  (a + length (requests evs) <= S n)%nat /\
  S (length (sleeps evs)) = length (requests evs) /\
  Forall (eq url) (urls evs).
Proof.
  induction 1 as [a e|a resp0 Hstop|a resp0 u Hr0 Ha0 Hsl|a resp0 u tl r Hr0 Ha0 Hsl Htl IH];
    intros Ha; simpl.
  - repeat split; [lia | by repeat constructor].
  - repeat split; [lia | by repeat constructor].
  - repeat split; [lia | by repeat constructor].
  - destruct (IH Ha0) as (H1 & H2 & H3). repeat split; [lia | lia |].
    by constructor.
Qed.

Lemma retry_trace_last url n bf mb a evs r :
  retry_trace url n bf mb a evs r ->
  (forall resp, r = Ok resp -> last (requests evs) = Some (Ok resp)) /\
  (forall pre out post,
      evs = pre ++ EvRequest url out :: post -> requests post <> [] ->
      exists resp, out = Ok resp /\ is_retryable resp = true).
Proof.
  induction 1 as [a e|a resp0 Hstop|a resp0 u Hr0 Ha0 Hsl|a resp0 u tl r Hr0 Ha0 Hsl Htl IH].
  - split; [discriminate|]. intros pre out post Hd Hp.
    destruct pre as [|? [|]]; simpl in Hd; simplify_eq.
  - split; [by intros resp [= <-]|]. intros pre out post Hd Hp.
    destruct pre as [|? [|]]; simpl in Hd; simplify_eq.
  - split; [discriminate|]. intros pre out post Hd Hp.
    destruct pre as [|? [|]]; simpl in Hd; simplify_eq.
  - destruct IH as [IH1 IH2]. split.
    + intros resp Hr. specialize (IH1 resp Hr).
      pose proof (retry_trace_requests_ne _ _ _ _ _ _ _ Htl) as Hne.
      simpl. destruct (requests tl); [done | exact IH1].
    + intros pre out post Hd Hp. destruct pre as [|p0 pre].
      * simpl in Hd. injection Hd as <- <-. by exists resp0.
      * simpl in Hd. injection Hd as <- Hd.
        destruct pre as [|p1 pre]; [discriminate|]. simpl in Hd.
        injection Hd as <- Hd. by apply (IH2 pre out post).
Qed.

(** A sleep whose delay does not come from [Retry-After] lasts at most
    [max_backoff]. *)
Lemma capped_sleep (resp : option response) (a : Z) (bf mb : Q) (u : unit_float) :
  Backoff.retry_after_delay py_float resp = None ->
  Qle_bool 0 (Backoff.sleep_delay py_float resp a bf mb u) = true ->
  (0 <= Backoff.sleep_delay py_float resp a bf mb u)%Q /\
  (Backoff.sleep_delay py_float resp a bf mb u <= mb)%Q.
Proof.
  intros Hra Hacc. apply Qle_bool_iff in Hacc. split; [exact Hacc|].
  unfold Backoff.sleep_delay, Backoff.pre_jitter_delay in *. rewrite Hra in *.
  apply Backoff.jittered_capped; [apply Backoff.exp_backoff_capped | exact Hacc].
Qed.

Lemma retry_trace_sleeps_capped url n bf mb a evs r :
  retry_trace url n bf mb a evs r ->
  (forall resp, In (Ok resp) (requests evs) ->
     Backoff.retry_after_delay py_float resp = None) ->
  Forall (fun d => (0 <= d)%Q /\ (d <= mb)%Q) (sleeps evs).
Proof.
  induction 1 as [a e|a resp0 Hstop|a resp0 u Hr0 Ha0 Hsl|a resp0 u tl r Hr0 Ha0 Hsl Htl IH];
    intros Hra; simpl; try constructor.
  - apply capped_sleep; [|exact Hsl]. apply Hra. by left.
  - apply IH. intros resp Hin. apply Hra. by right.
Qed.

(** X1 (request budget of the executor). A run of the executor sends at
    most [max_retries] requests, all to the url it was given, at least one
    when [max_retries] is positive, and the number of its sleeps is one less
    than the number of its requests. *)
Theorem executor_request_budget url hdrs n bf mb (s s' : State) r evs :
  _request_with_retries url hdrs n bf mb s = (r, s') ->
  extends s s' evs ->
  (length (requests evs) <= n)%nat /\
  ((0 < n)%nat -> (1 <= length (requests evs))%nat) /\
  length (sleeps evs) = (length (requests evs) - 1)%nat /\
  Forall (eq url) (urls evs).
Proof.
  intros H He. destruct (Nat.eq_dec n 0%nat) as [->|Hn].
  - rewrite executor_no_attempt in H. injection H as <- <-.
    pose proof (extends_unique _ _ _ _ He (extends_refl s)) as ->.
    simpl. repeat split; [lia | lia | constructor].
  - destruct (executor_trace _ _ _ _ _ _ _ _ H ltac:(lia)) as (evs' & He' & Ht).
    pose proof (extends_unique _ _ _ _ He He') as ->.
    destruct (retry_trace_budget _ _ _ _ _ _ _ Ht ltac:(lia)) as (H1 & H2 & H3).
    repeat split; [lia | lia | lia | exact H3].
Qed.

(** X2 (the executor stops at the first final response). A response that
    the executor returns is the one its last request received, and every
    response that was followed by another request had a status of 429 or
    5xx: a 200, a 202 or any other status ends the run at once. *)
Theorem executor_stops_at_final_response url hdrs n bf mb (s s' : State) r evs :
  _request_with_retries url hdrs n bf mb s = (r, s') ->
  extends s s' evs ->
  (forall resp, (0 < n)%nat -> r = Ok resp ->
     last (requests evs) = Some (Ok resp)) /\
  (forall pre out post,
      evs = pre ++ EvRequest url out :: post -> requests post <> [] ->
      exists resp, out = Ok resp /\ is_retryable resp = true).
Proof.
  intros H He. destruct (Nat.eq_dec n 0%nat) as [->|Hn].
  - rewrite executor_no_attempt in H. injection H as <- <-.
    pose proof (extends_unique _ _ _ _ He (extends_refl s)) as ->.
    split; [lia|]. intros pre out post Hd. by destruct pre.
  - destruct (executor_trace _ _ _ _ _ _ _ _ H ltac:(lia)) as (evs' & He' & Ht).
    pose proof (extends_unique _ _ _ _ He He') as ->.
    destruct (retry_trace_last _ _ _ _ _ _ _ Ht) as [H1 H2].
    split; [intros resp _; apply H1 | exact H2].
Qed.

(** X3 (ceiling of the backoff). In a run of the executor where no response
    carries a usable [Retry-After] (a 429 with a header that [float]
    parses), every sleep lasts at most [max_backoff], whatever the backoff
    factor and the number of attempts. *)
Theorem executor_sleeps_capped url hdrs n bf mb (s s' : State) r evs :
  _request_with_retries url hdrs n bf mb s = (r, s') ->
  extends s s' evs ->
  (forall resp, In (Ok resp) (requests evs) ->
     Backoff.retry_after_delay py_float resp = None) ->
  Forall (fun d => (0 <= d)%Q /\ (d <= mb)%Q) (sleeps evs).
Proof.
  intros H He Hra. destruct (Nat.eq_dec n 0%nat) as [->|Hn].
  - rewrite executor_no_attempt in H. injection H as <- <-.
    pose proof (extends_unique _ _ _ _ He (extends_refl s)) as ->. constructor.
  - destruct (executor_trace _ _ _ _ _ _ _ _ H ltac:(lia)) as (evs' & He' & Ht).
    pose proof (extends_unique _ _ _ _ He He') as ->.
    by eapply retry_trace_sleeps_capped.
Qed.

(** *** Further properties of the poller *)

(** The url [get_item] asks for. *)
Definition item_url (collection item_uuid catalog : string) : string :=
  domain +:+ "/dds/v1/item/" +:+ catalog +:+ "/" +:+ collection
         +:+ "/" +:+ item_uuid.

(** From [s] to [s'] at most [k] requests were sent, all of them to a url
    that satisfies [P]. *)
Definition sent (P : string -> Prop) (k : nat) (s s' : State) : Prop :=
  exists evs,
    extends s s' evs /\ (length (requests evs) <= k)%nat /\ Forall P (urls evs).

Lemma sent_refl P (s : State) : sent P 0 s s.
Proof. exists []. split; [apply extends_refl|]. split; [done | constructor]. Qed.

Lemma sent_trans P a b (s1 s2 s3 : State) :
  sent P a s1 s2 -> sent P b s2 s3 -> sent P (a + b) s1 s3.
Proof.
  intros (e1 & E1 & L1 & U1) (e2 & E2 & L2 & U2). exists (e1 ++ e2).
  split; [by eapply extends_trans|]. split.
  - rewrite requests_app, length_app. lia.
  - rewrite urls_app. by apply Forall_app.
Qed.

Lemma sent_weaken (P Q : string -> Prop) a b (s s' : State) :
  (forall u, P u -> Q u) -> (a <= b)%nat -> sent P a s s' -> sent Q b s s'.
Proof.
  intros HPQ Hab (evs & E & L & U). exists evs. split; [exact E|].
  split; [lia|]. eapply Forall_impl; [exact U | exact HPQ].
Qed.

Lemma sent_with_world P (w : World) (s : State) : sent P 0 s (with_world w s).
Proof.
  exists []. split; [apply extends_with_world|]. split; [done | constructor].
Qed.

Lemma sent_emit P (e : event) (s : State) :
  (forall u o, e <> EvRequest u o) -> sent P 0 s (emit e s).
Proof.
  intros He. exists [e]. split; [apply extends_emit|].
  destruct e; try (split; [done | constructor]). by destruct (He url out).
Qed.

Lemma sent_set_img_info P data (s : State) : sent P 0 s (set_img_info data s).
Proof. exists [EvSetImgInfo data]. split; [reflexivity|]. split; [done | constructor]. Qed.

Lemma time_sleep_sent P d (s s' : State) r :
  time_sleep d s = (r, s') -> sent P 0 s s'.
Proof.
  unfold time_sleep. destruct (Qle_bool 0 d); intros [= <- <-];
    [by apply sent_emit | apply sent_refl].
Qed.

Lemma executor_sent url hdrs n bf mb (s s' : State) r :
  _request_with_retries url hdrs n bf mb s = (r, s') -> sent (eq url) n s s'.
Proof.
  intros H. destruct (Nat.eq_dec n 0%nat) as [->|Hn].
  - rewrite executor_no_attempt in H. injection H as <- <-. apply sent_refl.
  - destruct (executor_trace _ _ _ _ _ _ _ _ H ltac:(lia)) as (evs & He & Ht).
    destruct (retry_trace_budget _ _ _ _ _ _ _ Ht ltac:(lia)) as (H1 & H2 & H3).
    exists evs. split; [exact He|]. split; [lia | exact H3].
Qed.

Lemma get_item_sent collection item_uuid catalog (s s' : State) r :
  get_item collection item_uuid catalog s = (r, s') ->
  sent (eq (item_url collection item_uuid catalog)) 5 s s'.
Proof.
  unfold get_item. fold (item_url collection item_uuid catalog).
  set (P := eq (item_url collection item_uuid catalog)).
  destruct (get_access_token (world s)) as [[tok|e] w].
  2:{ intros [= <- <-]. eapply sent_weaken; [done | | apply sent_with_world]. lia. }
  destruct (_request_with_retries _ _ _ _ _ _) as [out s1] eqn:Hreq.
  apply executor_sent in Hreq.
  assert (H1 : sent P 5 s s1).
  { apply (sent_trans P 0 5 s (with_world w s) s1); [apply sent_with_world | exact Hreq]. }
  assert (Hplus : forall s2, sent P 0 s1 s2 -> sent P 5 s s2).
  { intros s2 H2. apply (sent_trans P 5 0 s s1 s2 H1) in H2.
    eapply sent_weaken; [done | | exact H2]. lia. }
  intros H. destruct out as [[resp|]|e].
  - destruct ((status_code resp =? 200) || (status_code resp =? 202)).
    + destruct (json_body resp) as [data|]; injection H as <- <-;
        [apply Hplus, sent_set_img_info | exact H1].
    + injection H as <- <-. by apply Hplus, sent_emit.
  - injection H as <- <-. by apply Hplus, sent_emit.
  - by injection H as <- <-.
Qed.

Lemma first_truthy_spec (keys : list string) (qd : list (string * json)) v :
  first_truthy keys qd = Some v <->
  exists pre k post,
    keys = pre ++ k :: post /\
    Forall (fun k' => json_truthy (jget k' qd) = false) pre /\
    json_truthy (jget k qd) = true /\ v = py_str (jget k qd).
Proof.
  induction keys as [|k0 keys IH]; simpl.
  - split; [discriminate|]. intros (pre & k & post & H & _). by destruct pre.
  - destruct (json_truthy (jget k0 qd)) eqn:Hk.
    + split.
      * intros [= <-]. exists [], k0, keys. by repeat split.
      * intros (pre & k & post & H & Hpre & Ht & ->).
        destruct pre as [|p pre]; simpl in H; injection H as -> ->; [done|].
        apply Forall_cons in Hpre as [Hp _]. congruence.
    + rewrite IH. split.
      * intros (pre & k & post & -> & Hpre & Ht & ->).
        exists (k0 :: pre), k, post. repeat split; [|done]. by constructor.
      * intros (pre & k & post & H & Hpre & Ht & ->).
        destruct pre as [|p pre]; simpl in H; injection H as -> ->; [congruence|].
        apply Forall_cons in Hpre as [_ Hpre]. by exists pre, k, post.
Qed.

Lemma first_truthy_none (keys : list string) (qd : list (string * json)) :
  first_truthy keys qd = None <->
  Forall (fun k => json_truthy (jget k qd) = false) keys.
Proof.
  induction keys as [|k0 keys IH]; simpl; [done|].
  destruct (json_truthy (jget k0 qd)) eqn:Hk.
  - split; [discriminate|]. intros H. apply Forall_cons in H as [H _]. congruence.
  - rewrite IH. split; [by constructor | by intros [_ H]%Forall_cons].
Qed.

Lemma throttle_sent P mi (st : poll_state) (s s' : State) r :
  throttle mi st s = (r, s') -> sent P 0 s s'.
Proof.
  unfold throttle. intros H. destruct (Qlt_bool 0 mi).
  - destruct (perf_counter (world s)) as [now w].
    destruct (Qlt_bool 0 _).
    + apply (time_sleep_sent P) in H.
      apply (sent_trans P 0 0 s (with_world w s) s' (sent_with_world P w s) H).
    + injection H as <- <-. apply sent_with_world.
  - injection H as <- <-. apply sent_refl.
Qed.

Lemma finish_item_sent P n_total t0 (st st' : poll_state) (s s' : State) :
  finish_item n_total t0 st s = (st', s') -> sent P 0 s s'.
Proof.
  unfold finish_item. destruct (perf_counter (world s)) as [t1 w1].
  destruct (perf_counter w1) as [t2 w2]. intros [= <- <-].
  apply (sent_trans P 0 0 s (with_world w2 s) _ (sent_with_world P w2 s)).
  by apply sent_emit.
Qed.

(** The [finally] block neither sends a request nor changes whether the
    body ended with an exception. *)
Lemma with_finally_sent P k n_total t0 (st : poll_state) (s0 s1 s' : State) r0 r :
  sent P k s0 s1 ->
  with_finally n_total t0 st (r0, s1) = (r, s') ->
  sent P k s0 s' /\
  (forall x, r0 = Raise x -> r = Raise x) /\
  (forall st', r = Ok st' -> exists st1, r0 = Ok st1).
Proof.
  intros H0. unfold with_finally. destruct r0 as [st1|x].
  - destruct (finish_item n_total t0 st1 s1) as [st2 s2] eqn:Hf.
    intros [= <- <-]. apply (finish_item_sent P) in Hf. split; [|split].
    + replace k with (k + 0)%nat by lia. by eapply sent_trans.
    + discriminate.
    + by exists st1.
  - destruct (finish_item n_total t0 st s1) as [st2 s2] eqn:Hf.
    intros [= <- <-]. apply (finish_item_sent P) in Hf. split; [|split].
    + replace k with (k + 0)%nat by lia. by eapply sent_trans.
    + by intros x0 [= <-].
    + discriminate.
Qed.

Lemma classify_sent P data (st : poll_state) (s s' : State) r :
  classify data st s = (r, s') -> sent P 0 s s'.
Proof.
  unfold classify. destruct data; intros [= <- <-];
    try apply sent_refl. by apply sent_emit.
Qed.

Lemma fetch_and_classify_sent c a catalog (st : poll_state) (s s' : State) r :
  match get_item c a catalog s with
  | (Raise x, s3) => (Raise x, s3)
  | (Ok data, s3) => classify data st s3
  end = (r, s') ->
  sent (fun _ => True) 5 s s'.
Proof.
  destruct (get_item c a catalog s) as [[data|x] s3] eqn:Hg;
    apply get_item_sent in Hg;
    apply (sent_weaken _ (fun _ => True) 5 5) in Hg; try done.
  - intros H. apply (classify_sent (fun _ => True)) in H.
    replace 5%nat with (5 + 0)%nat by lia. by eapply sent_trans.
  - by intros [= <- <-].
Qed.

Lemma poll_entry_sent catalog n_total mi e (st : poll_state) (s s' : State) r :
  poll_entry catalog n_total mi e st s = (r, s') ->
  sent (fun _ => True) 5 s s' /\
  ((e !! "collectionId" = None \/ e !! "archiveId" = None) ->
   exists x, r = Raise x).
Proof.
  unfold poll_entry.
  destruct (throttle mi st s) as [[[]|x] s1] eqn:Ht;
    apply (throttle_sent (fun _ => True)) in Ht.
  2:{ intros [= <- <-]. split; [|by eauto].
      eapply sent_weaken; [done | | exact Ht]. lia. }
  destruct (perf_counter (world s1)) as [t0 w].
  pose proof (sent_trans _ 0 0 s s1 _ Ht (sent_with_world (fun _ => True) w s1)) as H2.
  simpl in H2.
  destruct (e !! "collectionId") as [c|] eqn:Hc;
    [destruct (e !! "archiveId") as [a|] eqn:Ha|].
  - destruct (match get_item c a catalog (with_world w s1) with
              | (Raise x, s3) => (Raise x, s3)
              | (Ok data, s3) => classify data st s3
              end) as [r0 s3] eqn:Hb.
    apply fetch_and_classify_sent in Hb.
    pose proof (sent_trans _ 0 5 s _ s3 H2 Hb) as H3. simpl in H3.
    intros H. apply (with_finally_sent (fun _ => True) 5 _ _ _ s) in H as (H & _); [|exact H3].
    split; [exact H|]. intros [?|?]; discriminate.
  - intros H. apply (with_finally_sent (fun _ => True) 0 _ _ _ s) in H as (H & Hx & _); [|exact H2].
    split; [eapply sent_weaken; [done | | exact H]; lia|].
    intros _. exists KeyError. by apply Hx.
  - intros H.
    assert (H' : with_finally n_total t0 st (Raise KeyError, with_world w s1) = (r, s')).
    { by destruct (e !! "archiveId"). }
    apply (with_finally_sent (fun _ => True) 0 _ _ _ s) in H' as (H' & Hx & _); [|exact H2].
    split; [eapply sent_weaken; [done | | exact H']; lia|].
    intros _. exists KeyError. by apply Hx.
Qed.

Lemma poll_entries_sent catalog n_total mi items :
  forall (st : poll_state) (s s' : State) r,
    poll_entries catalog n_total mi items st s = (r, s') ->
    sent (fun _ => True) (5 * length items) s s' /\
    ((exists e, e ∈ items /\
        (e !! "collectionId" = None \/ e !! "archiveId" = None)) ->
     exists x, r = Raise x).
Proof.
  induction items as [|e rest IH]; intros st s s' r H; simpl in H.
  - injection H as <- <-. split; [apply sent_refl|].
    intros (e & He & _). by apply elem_of_nil in He.
  - destruct (poll_entry catalog n_total mi e st s) as [[st1|x] s1] eqn:H1;
      apply poll_entry_sent in H1 as [S1 K1].
    + apply IH in H as [S2 K2]. split.
      * pose proof (sent_trans _ _ _ _ _ _ S1 S2) as S3.
        eapply sent_weaken; [done | | exact S3]. simpl. lia.
      * intros (e0 & He0 & Hk). apply elem_of_cons in He0 as [->|He0].
        -- destruct (K1 Hk) as [x Hx]. discriminate.
        -- apply K2. by exists e0.
    + injection H as <- <-. split; [|by eauto].
      eapply sent_weaken; [done | | exact S1]. simpl. lia.
Qed.

Lemma poll_result_sent catalog n_total mi qr (st : poll_state) (s s' : State) r :
  poll_result catalog n_total mi qr st s = (r, s') ->
  sent (fun _ => True) (5 * length (omap _resolve_ids [qr])) s s'.
Proof.
  unfold poll_result.
  destruct (throttle mi st s) as [[[]|x] s1] eqn:Ht;
    apply (throttle_sent (fun _ => True)) in Ht.
  2:{ intros [= <- <-]. eapply sent_weaken; [done | | exact Ht]. lia. }
  destruct (perf_counter (world s1)) as [t0 w].
  pose proof (sent_trans _ 0 0 s s1 _ Ht (sent_with_world (fun _ => True) w s1)) as H2.
  simpl in H2. cbn [omap list_omap].
  destruct (_resolve_ids qr) as [[c a]|].
  - destruct (match get_item c a catalog (with_world w s1) with
              | (Raise x, s3) => (Raise x, s3)
              | (Ok data, s3) => classify data st s3
              end) as [r0 s3] eqn:Hb.
    apply fetch_and_classify_sent in Hb.
    pose proof (sent_trans _ 0 5 s _ s3 H2 Hb) as H3. simpl in H3.
    intros H. by apply (with_finally_sent (fun _ => True) 5 _ _ _ s) in H as (H & _).
  - intros H. apply (with_finally_sent (fun _ => True) 0 _ _ _ s) in H as (H & _); [exact H|].
    replace 0%nat with (0 + 0)%nat by lia.
    eapply sent_trans; [exact H2 | by apply sent_emit].
Qed.

Lemma poll_results_sent catalog n_total mi items :
  forall (st : poll_state) (s s' : State) r,
    poll_results catalog n_total mi items st s = (r, s') ->
    sent (fun _ => True) (5 * length (omap _resolve_ids items)) s s'.
Proof.
  induction items as [|qr rest IH]; intros st s s' r H; simpl in H.
  - injection H as <- <-. apply sent_refl.
  - assert (Hlen : (5 * length (omap _resolve_ids [qr]) +
                    5 * length (omap _resolve_ids rest) =
                    5 * length (omap _resolve_ids (qr :: rest)))%nat).
    { cbn [omap list_omap]. destruct (_resolve_ids qr); simpl; lia. }
    destruct (poll_result catalog n_total mi qr st s) as [[st1|x] s1] eqn:H1;
      apply poll_result_sent in H1.
    + apply IH in H. rewrite <- Hlen. by eapply sent_trans.
    + injection H as <- <-. eapply sent_weaken; [done | | exact H1]. lia.
Qed.

(** X4 ([get_item] hands back the body of a 200 or 202 only). A value other
    than [None] returned by [get_item] is the parsed body of the response to
    the last of at most five requests, all sent to the item url, and that
    response has status 200 or 202; the value is also what [img_info] holds
    afterwards. *)
Theorem get_item_returns_success_body collection item_uuid catalog
    (s s' : State) data :
  get_item collection item_uuid catalog s = (Ok data, s') ->
  data <> JNull ->
  exists evs resp,
    extends s s' (evs ++ [EvSetImgInfo data]) /\
    last (requests evs) = Some (Ok (Some resp)) /\
    is_success (Some resp) = true /\ json_body resp = Some data /\
    img_info s' = data /\
    (length (requests evs) <= 5)%nat /\
    Forall (eq (item_url collection item_uuid catalog)) (urls evs).
Proof.
  unfold get_item. fold (item_url collection item_uuid catalog).
  destruct (get_access_token (world s)) as [[tok|e] w]; [|discriminate].
  destruct (_request_with_retries _ _ _ _ _ _) as [out s1] eqn:Hreq.
  destruct (executor_trace _ _ _ _ _ _ _ _ Hreq ltac:(lia)) as (evs & He & Ht).
  destruct (retry_trace_budget _ _ _ _ _ _ _ Ht ltac:(lia)) as (H1 & H2 & H3).
  destruct (retry_trace_last _ _ _ _ _ _ _ Ht) as [Hlast _].
  intros H Hdata. destruct out as [[resp|]|e]; [|by simplify_eq..].
  destruct ((status_code resp =? 200) || (status_code resp =? 202)) eqn:Hcode;
    [|by simplify_eq].
  destruct (json_body resp) as [d|] eqn:Hbody; [|by simplify_eq].
  injection H as <- <-. exists evs, resp. split; [|split; [|split; [|split; [|split; [|split]]]]].
  - unfold extends in *. simpl in *. rewrite He. by rewrite app_assoc.
  - by apply Hlast.
  - exact Hcode.
  - exact Hbody.
  - reflexivity.
  - lia.
  - exact H3.
Qed.

(** X5 (how [_resolve_ids] picks the identifiers). When it returns a pair,
    neither component is empty; the collection is the value, as a string,
    of the first of [collectionId], [collectionID], [collection],
    [collection_name] that is truthy; the archive is that of the first of
    [archiveId], [datasetId], [recordId], [featureId] that is truthy, and
    the [uuid] of the result only if none of the four is. Without a truthy
    collection key there is no pair, whatever the [uuid]. *)
Theorem resolve_ids_priority (qr : query_result) :
  (forall c a,
      _resolve_ids qr = Some (c, a) ->
      c <> EmptyString /\ a <> EmptyString /\
      (exists pre k post,
          ["collectionId"; "collectionID"; "collection"; "collection_name"]
            = pre ++ k :: post /\
          Forall (fun k' => json_truthy (jget k' (default [] (query_data qr)))
                            = false) pre /\
          json_truthy (jget k (default [] (query_data qr))) = true /\
          c = py_str (jget k (default [] (query_data qr)))) /\
      ((exists pre k post,
           ["archiveId"; "datasetId"; "recordId"; "featureId"]
             = pre ++ k :: post /\
           Forall (fun k' => json_truthy (jget k' (default [] (query_data qr)))
                             = false) pre /\
           json_truthy (jget k (default [] (query_data qr))) = true /\
           a = py_str (jget k (default [] (query_data qr)))) \/
       (Forall (fun k' => json_truthy (jget k' (default [] (query_data qr)))
                          = false)
          ["archiveId"; "datasetId"; "recordId"; "featureId"] /\
        uuid qr = Some a))) /\
  (Forall (fun k' => json_truthy (jget k' (default [] (query_data qr))) = false)
     ["collectionId"; "collectionID"; "collection"; "collection_name"] ->
   _resolve_ids qr = None).
Proof.
  unfold _resolve_ids. set (qd := default [] (query_data qr)).
  split.
  - intros c a H.
    destruct (first_truthy ["collectionId"; "collectionID"; "collection";
                            "collection_name"] qd) as [c0|] eqn:Hc.
    2:{ by repeat case_match. }
    destruct (first_truthy ["archiveId"; "datasetId"; "recordId"; "featureId"] qd)
      as [a0|] eqn:Ha.
    + destruct (str_truthy c0 && str_truthy a0) eqn:Ht; [|discriminate].
      injection H as <- <-. apply andb_prop in Ht as [Ht1 Ht2].
      split; [by intros ->|]. split; [by intros ->|].
      split; [by apply first_truthy_spec|]. left. by apply first_truthy_spec.
    + apply first_truthy_none in Ha.
      destruct (uuid qr) as [u|]; [|discriminate].
      destruct (str_truthy u) eqn:Hu; [|discriminate].
      destruct (str_truthy c0 && str_truthy u) eqn:Ht; [|discriminate].
      injection H as <- <-. apply andb_prop in Ht as [Ht1 Ht2].
      split; [by intros ->|]. split; [by intros ->|].
      split; [by apply first_truthy_spec|]. by right.
  - intros H. apply first_truthy_none in H. rewrite H. by repeat case_match.
Qed.

(** X6 (request budget of the pollers). Whether it returns or raises,
    [get_items] sends at most five requests per entry, and
    [get_items_from_results] at most five per query result whose
    identifiers resolve: a result without identifiers costs no request. *)
Theorem poller_request_budget :
  (forall entries catalog rate (s : State),
      exists evs,
        extends s (snd (get_items entries catalog rate s)) evs /\
        (length (requests evs) <= 5 * length entries)%nat) /\
  (forall results catalog rate (s : State),
      exists evs,
        extends s (snd (get_items_from_results results catalog rate s)) evs /\
        (length (requests evs) <= 5 * length (omap _resolve_ids results))%nat).
Proof.
  split.
  - intros entries catalog rate s. unfold get_items.
    destruct (poll_entries _ _ _ _ _ _) as [r s1] eqn:H.
    apply poll_entries_sent in H as [(evs & He & Hl & _) _].
    exists evs. by destruct r.
  - intros results catalog rate s. unfold get_items_from_results.
    destruct (poll_results _ _ _ _ _ _) as [r s1] eqn:H.
    apply poll_results_sent in H as (evs & He & Hl & _).
    exists evs. by destruct r.
Qed.

(** X7 (an entry without its keys aborts [get_items]). If some entry lacks
    [collectionId] or [archiveId], [get_items] returns no buckets at all: the
    call ends with an exception, the records fetched for the entries before
    it being lost with it. *)
Theorem get_items_missing_key entries catalog rate (s : State) :
  (exists e, e ∈ entries /\
     (e !! "collectionId" = None \/ e !! "archiveId" = None)) ->
  exists x, fst (get_items entries catalog rate s) = Raise x.
Proof.
  intros Hk. unfold get_items.
  destruct (poll_entries _ _ _ _ _ _) as [r s1] eqn:H.
  apply poll_entries_sent in H as [_ H]. destruct (H Hk) as [x ->]. by exists x.
Qed.

End WithWorld.

Arguments world {World} _.
Arguments img_info {World} _.
Arguments log {World} _.

End Poller.

(** ** Path handling ([os.path] on POSIX) *)

Module Paths.
Local Open Scope nat_scope.

Definition is_slash (c : ascii) : bool := Ascii.eqb c "/"%char.

Definition is_dot (c : ascii) : bool := Ascii.eqb c "."%char.

(** The number of separators in a path. *)
Fixpoint count_slash (p : string) : nat :=
  match p with
  | EmptyString => 0
  | String c rest => (if is_slash c then 1 else 0) + count_slash rest
  end.

(** [os.path.basename(p)]: what follows the last separator. *)
Fixpoint basename (p : string) : string :=
  match p with
  | EmptyString => EmptyString
  | String c rest =>
      if 0 <? count_slash rest then basename rest
      else if is_slash c then rest
      else String c rest
  end.

Definition starts_with_slash (p : string) : bool :=
  match p with
  | String c _ => is_slash c
  | EmptyString => false
  end.

Fixpoint ends_with_slash (p : string) : bool :=
  match p with
  | EmptyString => false
  | String c EmptyString => is_slash c
  | String _ rest => ends_with_slash rest
  end.

(** [os.path.join(a, b)]. *)
Definition join (a b : string) : string :=
  if starts_with_slash b then b
  else if negb (str_truthy a) || ends_with_slash a then a +:+ b
  else a +:+ "/" +:+ b.

(** [s.lower()] on ASCII letters. *)
Definition lower_ascii (c : ascii) : ascii :=
  let n := nat_of_ascii c in
  if (65 <=? n) && (n <=? 90) then ascii_of_nat (n + 32) else c.

Fixpoint lower (s : string) : string :=
  match s with
  | EmptyString => EmptyString
  | String c rest => String (lower_ascii c) (lower rest)
  end.

(** [s.endswith(suffix)]. *)
Definition ends_with (suffix s : string) : bool :=
  let n := String.length s in
  let m := String.length suffix in
  (m <=? n) && String.eqb (String.substring (n - m) m s) suffix.

(** Index of the last dot of [s], counting from [i]. *)
Fixpoint rindex_dot (s : string) (i : nat) : option nat :=
  match s with
  | EmptyString => None
  | String c rest =>
      match rindex_dot rest (S i) with
      | Some j => Some j
      | None => if is_dot c then Some i else None
      end
  end.

Fixpoint all_dots (s : string) : bool :=
  match s with
  | EmptyString => true
  | String c rest => is_dot c && all_dots rest
  end.

(** [os.path.splitext(name)[0]] for a name without separator: the part
    before the last dot, unless only dots come before it. *)
Definition splitext_root (name : string) : string :=
  match rindex_dot name 0 with
  | Some d =>
      if all_dots (String.substring 0 d name) then name else String.substring 0 d name
  | None => name
  end.

Lemma length_app (a b : string) :
  String.length (a +:+ b) = String.length a + String.length b.
Proof. induction a as [|c a IH]; [reflexivity|]. simpl. by rewrite IH. Qed.

Lemma count_slash_app (a b : string) :
  count_slash (a +:+ b) = count_slash a + count_slash b.
Proof. induction a as [|c a IH]; simpl; [reflexivity|]. rewrite IH. lia. Qed.

Lemma basename_no_slash (p : string) : count_slash (basename p) = 0.
Proof.
  induction p as [|c p IH]; [reflexivity|]. simpl.
  destruct (0 <? count_slash p) eqn:H; [exact IH|].
  apply Nat.ltb_ge in H. destruct (is_slash c) eqn:Hc; simpl.
  - lia.
  - rewrite Hc. lia.
Qed.

Lemma app_slash (name : string) : "/" +:+ name = String "/"%char name.
Proof. reflexivity. Qed.

Lemma basename_app_slash (d name : string) :
  count_slash name = 0 -> basename (d +:+ "/" +:+ name) = name.
Proof.
  intros Hn. rewrite app_slash. induction d as [|c d IH]; simpl.
  - rewrite Hn. reflexivity.
  - rewrite count_slash_app. simpl.
    replace (0 <? count_slash d + S (count_slash name)) with true
      by (symmetry; apply Nat.ltb_lt; lia).
    exact IH.
Qed.

Lemma no_slash_start (p : string) : count_slash p = 0 -> starts_with_slash p = false.
Proof. destruct p as [|c p]; [done|]. simpl. destruct (is_slash c); [lia | done]. Qed.

Lemma count_slash_substring (n m : nat) (s : string) :
  count_slash (String.substring n m s) <= count_slash s.
Proof.
  revert n m. induction s as [|c s IH]; intros n m.
  - destruct n, m; simpl; lia.
  - destruct n as [|n].
    + destruct m as [|m]; simpl; [lia|]. specialize (IH 0 m). lia.
    + simpl. specialize (IH n m). lia.
Qed.

Lemma splitext_root_no_slash (name : string) :
  count_slash name = 0 -> count_slash (splitext_root name) = 0.
Proof.
  intros H. unfold splitext_root.
  destruct (rindex_dot name 0) as [d|]; [|exact H].
  destruct (all_dots _); [exact H|].
  pose proof (count_slash_substring 0 d name). lia.
Qed.

Lemma ends_with_slash_app (a b : string) :
  b <> EmptyString -> ends_with_slash (a +:+ b) = ends_with_slash b.
Proof.
  intros Hb. induction a as [|c a IH]; [reflexivity|]. simpl.
  destruct (a +:+ b) eqn:E; [|exact IH].
  destruct a; simpl in E; [contradiction | discriminate].
Qed.

(** [join out_dir sub] for a relative, non-empty [sub] without trailing
    separator is a directory prefix followed by [sub]. *)
Definition dir_prefix (out_dir : string) : string :=
  if negb (str_truthy out_dir) || ends_with_slash out_dir then out_dir
  else out_dir +:+ "/".

Lemma app_cons (x : ascii) (a b : string) :
  String x a +:+ b = String x (a +:+ b).
Proof. reflexivity. Qed.

Lemma app_assoc_str (a b c : string) : (a +:+ b) +:+ c = a +:+ b +:+ c.
Proof.
  induction a as [|x a IH]; [reflexivity|]. rewrite !app_cons. by rewrite IH.
Qed.

Lemma join_relative (a b : string) :
  starts_with_slash b = false -> join a b = dir_prefix a +:+ b.
Proof.
  intros Hb. unfold join, dir_prefix. rewrite Hb.
  destruct (negb (str_truthy a) || ends_with_slash a); [reflexivity|].
  by rewrite app_assoc_str.
Qed.

(** Joining a file name under a directory that is [prefix ++ sub]. *)
Lemma join_under (pre sub name : string) :
  sub <> EmptyString -> ends_with_slash sub = false ->
  starts_with_slash name = false ->
  join (pre +:+ sub) name = pre +:+ sub +:+ "/" +:+ name.
Proof.
  intros Hs He Hn. unfold join. rewrite Hn.
  rewrite ends_with_slash_app, He by exact Hs.
  assert (str_truthy (pre +:+ sub) = true) as ->.
  { destruct pre; [by destruct sub | reflexivity]. }
  simpl. by rewrite app_assoc_str.
Qed.

Example basename_url : basename "/data/out/test.zip" = "test.zip".
Proof. reflexivity. Qed.

Example basename_trailing : basename "/data/out/" = "".
Proof. reflexivity. Qed.

Example join_plain : join "out" "completed" = "out/completed".
Proof. reflexivity. Qed.

Example join_trailing : join "out/" "completed" = "out/completed".
Proof. reflexivity. Qed.

Example join_absolute : join "out" "/tmp/x" = "/tmp/x".
Proof. reflexivity. Qed.

Example ends_with_zip_upper : ends_with ".zip" (lower "SCENE.ZIP") = true.
Proof. reflexivity. Qed.

Example splitext_root_zip : splitext_root "a.b.zip" = "a.b".
Proof. reflexivity. Qed.

Example splitext_root_hidden : splitext_root ".zip" = ".zip".
Proof. reflexivity. Qed.

End Paths.

(** ** downloads.py: the resumable downloader *)

Module Downloads.
Import Paths.

(** What [requests.get(url, stream=True)] and the iteration over
    [r.iter_content] give: either the call raises, or there is a response
    whose body arrives as [chunks] and then ends, or breaks with an
    exception after them. *)
Inductive get_outcome : Type :=
| GetFails (e : exn)
| GetResponse (code : Z) (hdrs : gmap string string)
    (chunks : list (list Byte.byte)) (broken : option exn).

(** What a call did, in order; [EvFs] holds the file system right after a
    change to it. *)
Inductive event : Type :=
| EvGet (url : string) (out : get_outcome)
| EvSleep (delay : Q)
| EvFs (snapshot : gmap string (list Byte.byte))
| EvLogError (e : exn)
| EvLogInfo.

(** The dict [{"archiveId": ..., "dest": ..., "extracted_dir": ...}]. *)
Record download_result : Type := MkResult {
  r_archiveId : json;
  r_dest : string;
  r_extracted_dir : option string
}.

(** How one pass through the [try] block of the retry loop ends. *)
Inductive attempt_result : Type :=
| Committed
| Retry
| Failed (e : exn).

Section WithWorld.
Variable World : Type.
Variable requests_get : string -> World -> get_outcome * World.
Variable random_random : World -> unit_float * World.
(** [int(s)]: [None] stands for [ValueError]. *)
Variable py_int : string -> option Z.
(** [urlparse(url).path] and [parse_qs(urlparse(url).query)]. *)
Variable url_path : string -> string.
Variable url_query : string -> gmap string (list string).
(** [zipfile.ZipFile(path).extractall]: the members it writes, as paths
    relative to the target directory, and whether it finished ([false]: it
    raised after writing them). *)
Variable zip_read : list Byte.byte -> list (string * list Byte.byte) * bool.

Record State : Type := MkState {
  world : World;
  fs : gmap string (list Byte.byte);
  log : list event
}.

Definition emit (e : event) (s : State) : State :=
  MkState (world s) (fs s) (log s ++ [e]).

Definition with_world (w : World) (s : State) : State :=
  MkState w (fs s) (log s).

(** Any change to the file system. *)
Definition set_fs (f : gmap string (list Byte.byte)) (s : State) : State :=
  MkState (world s) f (log s ++ [EvFs f]).

(** [time.sleep(d)]: raises [ValueError] on a negative argument. *)
Definition time_sleep (d : Q) (s : State) : result unit * State :=
  if Qle_bool 0 d then (Ok tt, emit (EvSleep d) s) else (Raise ValueError, s).

(** The three lines [delay = min(...); delay *= 0.5 + 0.5 * random.random();
    time.sleep(delay)] of the download loop. *)
Definition backoff_sleep (attempt : nat) (backoff_factor max_backoff : Q)
    (s : State) : result unit * State :=
  let '(u, w) := random_random (world s) in
  time_sleep
    (Backoff.exp_backoff (Z.of_nat attempt) backoff_factor max_backoff
     * Backoff.jitter u)%Q
    (with_world w s).

(** downloads.py, [_expected_size]: the [size] query parameter. *)
Definition _expected_size (url : string) : option Z :=
  match url_query url !! "size" with
  | Some (v :: _) => py_int v
  | _ => None
  end.

(** base.py, [_parse_expected_size]: the [size] query parameter, else
    [Content-Length] of the response when one is passed. *)
Definition _parse_expected_size (url : string)
    (resp : option (gmap string string)) : option Z :=
  match _expected_size url with
  | Some n => Some n
  | None =>
      match resp with
      | Some hdrs =>
          match hdrs !! "Content-Length" with
          | Some cl => if str_truthy cl then py_int cl else None
          | None => None
          end
      | None => None
      end
  end.

(** [os.replace(src, dst)]. *)
Definition os_replace (src dst : string) (f : gmap string (list Byte.byte))
  : result (gmap string (list Byte.byte)) :=
  match f !! src with
  | Some data => Ok (<[dst := data]> (delete src f))
  | None => Raise FileNotFoundError
  end.

(** The loop over [r.iter_content]: empty chunks are skipped, the others
    appended to the open file. *)
Fixpoint stream_chunks (tmp : string) (chunks : list (list Byte.byte))
    (s : State) : State :=
  match chunks with
  | [] => s
  | [] :: rest => stream_chunks tmp rest s
  | c :: rest =>
      stream_chunks tmp rest
        (set_fs (<[tmp := default [] (fs s !! tmp) ++ c]> (fs s)) s)
  end.

(** The [try] block of [_download_with_retries] (lines 35-65). *)
Definition try_attempt (url dest : string) (max_retries : nat)
    (backoff_factor max_backoff : Q) (attempt : nat) (s : State)
  : attempt_result * State :=
  let tmp := dest +:+ ".part" in
  let '(out, w) := requests_get url (world s) in
  let s1 := emit (EvGet url out) (with_world w s) in
  match out with
  | GetFails e => (Failed e, s1)
  | GetResponse code hdrs chunks broken =>
      if retryable code && (attempt <? max_retries)%nat then
        match backoff_sleep attempt backoff_factor max_backoff s1 with
        | (Ok _, s2) => (Retry, s2)
        | (Raise e, s2) => (Failed e, s2)
        end
      else if (400 <=? code) && (code <? 600) then (Failed (HTTPError code), s1)
      else
        let s2 := stream_chunks tmp chunks (set_fs (<[tmp := []]> (fs s1)) s1) in
        match broken with
        | Some e => (Failed e, s2)
        | None =>
            match fs s2 !! tmp with
            | None => (Failed FileNotFoundError, s2)
            | Some data =>
                let size_ok :=
                  match _parse_expected_size url None with
                  | Some exp => Z.of_nat (length data) =? exp
                  | None => true
                  end in
                if size_ok then
                  match os_replace tmp dest (fs s2) with
                  | Ok f => (Committed, set_fs f s2)
                  | Raise e => (Failed e, s2)
                  end
                else (Failed IOError, s2)
            end
        end
  end.

(** [if os.path.exists(p): os.remove(p)], also [try: os.remove(p) except:
    pass]: the start of the [except] block and the end of [_maybe_unzip]. *)
Definition remove_if_exists (path : string) (s : State) : State :=
  match fs s !! path with
  | Some _ => set_fs (delete path (fs s)) s
  | None => s
  end.

(** The [for attempt in range(1, max_retries + 1)] loop. *)
Fixpoint download_loop (url dest : string) (max_retries : nat)
    (backoff_factor max_backoff : Q) (attempts : list nat) (s : State)
  : result string * State :=
  match attempts with
  | [] => (Ok dest, s)
  | attempt :: rest =>
      match try_attempt url dest max_retries backoff_factor max_backoff attempt s with
      | (Committed, s1) => (Ok dest, s1)
      | (Retry, s1) =>
          download_loop url dest max_retries backoff_factor max_backoff rest s1
      | (Failed e, s1) =>
          let s2 := remove_if_exists (dest +:+ ".part") s1 in
          if (max_retries <=? attempt)%nat then (Raise e, s2)
          else
            match backoff_sleep attempt backoff_factor max_backoff s2 with
            | (Ok _, s3) =>
                download_loop url dest max_retries backoff_factor max_backoff
                  rest s3
            | (Raise e', s3) => (Raise e', s3)
            end
      end
  end.

(** downloads.py, [_download_with_retries]. *)
Definition _download_with_retries (url dest : string) (max_retries : nat)
    (backoff_factor max_backoff : Q) (s : State) : result string * State :=
  download_loop url dest max_retries backoff_factor max_backoff
    (seq 1 max_retries) s.

(** [zf.extractall(extract_dir)]: one file per member under the directory. *)
Fixpoint extract_members (dir : string)
    (members : list (string * list Byte.byte)) (s : State) : State :=
  match members with
  | [] => s
  | (name, data) :: rest =>
      extract_members dir rest
        (set_fs (<[dir +:+ "/" +:+ name := data]> (fs s)) s)
  end.

(** downloads.py, [_maybe_unzip]. [os.makedirs(extract_dir, exist_ok=True)]
    raises when a file has that path. *)
Definition _maybe_unzip (file_path out_dir : string) (keep_zip : bool)
    (s : State) : result (option string) * State :=
  if negb (ends_with ".zip" (lower file_path)) then (Ok None, s)
  else
    let extract_dir := join out_dir (splitext_root (basename file_path)) in
    match fs s !! extract_dir with
    | Some _ => (Raise FileExistsError, s)
    | None =>
        match fs s !! file_path with
        | None => (Raise FileNotFoundError, s)
        | Some data =>
            let '(members, finished) := zip_read data in
            let s1 := extract_members extract_dir members s in
            if finished then
              if keep_zip then (Ok (Some extract_dir), s1)
              else (Ok (Some extract_dir), remove_if_exists file_path s1)
            else (Raise BadZipFile, s1)
        end
    end.

(** [os.path.basename(urlparse(url).path) or "download.bin"]. *)
Definition filename_of (url : string) : string :=
  let name := basename (url_path url) in
  if str_truthy name then name else "download.bin".

(** The tail shared by both exits of [job]: optional expansion, then the
    result dict. *)
Definition finish_job (aid : json) (fin_path completed_dir : string)
    (unzip keep_zip : bool) (s : State) : result download_result * State :=
  if unzip && ends_with ".zip" (lower fin_path) then
    match _maybe_unzip fin_path completed_dir keep_zip s with
    | (Ok extracted_dir, s1) => (Ok (MkResult aid fin_path extracted_dir), s1)
    | (Raise e, s1) => (Raise e, s1)
    end
  else (Ok (MkResult aid fin_path None), s).

(** The skip test of [job]: an expected size is known and the completed
    file has exactly that size. *)
Definition already_complete (url fin_path : string) (s : State) : bool :=
  match _expected_size url, fs s !! fin_path with
  | Some exp, Some data => Z.of_nat (length data) =? exp
  | _, _ => false
  end.

(** downloads.py, [job] (inner function of [download_items]); the retry
    loop runs with its defaults: 5 attempts, factor 1.0, ceiling 20.0. *)
Definition job (out_dir : string) (unzip keep_zip : bool) (url : string)
    (aid : json) (s : State) : result download_result * State :=
  let in_progress_dir := join out_dir "in_progress" in
  let completed_dir := join out_dir "completed" in
  let filename := filename_of url in
  let tmp_path := join in_progress_dir filename in
  let fin_path := join completed_dir filename in
  let skipped :=
    if already_complete url fin_path s then
      match finish_job aid fin_path completed_dir unzip keep_zip s with
      | (Ok r, s1) => (Some r, s1)
      | (Raise _, s1) => (None, s1)
      end
    else (None, s) in
  match skipped with
  | (Some r, s1) => (Ok r, s1)
  | (None, s1) =>
      match _download_with_retries url tmp_path 5 1%Q 20%Q s1 with
      | (Raise e, s2) => (Raise e, s2)
      | (Ok final_tmp, s2) =>
          match os_replace final_tmp fin_path (fs s2) with
          | Raise e => (Raise e, s2)
          | Ok f =>
              finish_job aid fin_path completed_dir unzip keep_zip (set_fs f s2)
          end
      end
  end.

(** [it.get("archiveId") or it.get("datasetId") or it.get("serviceUuid")
    or "unknown"]. *)
Definition archive_id_of (it : list (string * json)) : json :=
  if json_truthy (jget "archiveId" it) then jget "archiveId" it
  else if json_truthy (jget "datasetId" it) then jget "datasetId" it
  else if json_truthy (jget "serviceUuid" it) then jget "serviceUuid" it
  else JStr "unknown".

(** One pass of the task-building loop: items without a truthy
    [download_url] give no task. *)
Definition task_of (it : list (string * json)) : option (json * json) :=
  let url := jget "download_url" it in
  if json_truthy url then Some (url, archive_id_of it) else None.

(** A task whose url is not a string makes [urlparse] raise inside [job]. *)
Definition run_task (out_dir : string) (unzip keep_zip : bool)
    (task : json * json) (s : State) : result download_result * State :=
  match fst task with
  | JStr url => job out_dir unzip keep_zip url (snd task) s
  | _ => (Raise AttributeError, s)
  end.

(** The pool, run as one worker taking the tasks in submission order: a
    failed task is logged and left out of the results. *)
Fixpoint run_tasks (out_dir : string) (unzip keep_zip : bool)
    (tasks : list (json * json)) (s : State) : list download_result * State :=
  match tasks with
  | [] => ([], s)
  | task :: rest =>
      match run_task out_dir unzip keep_zip task s with
      | (Ok r, s1) =>
          let '(rs, s2) := run_tasks out_dir unzip keep_zip rest s1 in
          (r :: rs, s2)
      | (Raise e, s1) =>
          run_tasks out_dir unzip keep_zip rest (emit (EvLogError e) s1)
      end
  end.

(** [os.makedirs(path, exist_ok=True)] where only files are modelled. *)
Definition makedirs (path : string) (s : State) : result unit :=
  match fs s !! path with
  | Some _ => Raise FileExistsError
  | None => Ok tt
  end.

(** downloads.py, [download_items], on the list under ["ready"]. *)
Definition download_items (ready : list (list (string * json)))
    (out_dir : string) (unzip keep_zip : bool) (s : State)
  : result (list download_result) * State :=
  match omap task_of ready with
  | [] => (Ok [], emit EvLogInfo s)
  | tasks =>
      match makedirs (join out_dir "in_progress") s,
            makedirs (join out_dir "completed") s with
      | Ok _, Ok _ =>
          let '(rs, s1) := run_tasks out_dir unzip keep_zip tasks s in
          (Ok rs, s1)
      | Raise e, _ => (Raise e, s)
      | _, Raise e => (Raise e, s)
      end
  end.

(** *** Reading the log *)

Definition extends (s s' : State) (evs : list event) : Prop :=
  log s' = log s ++ evs.

(** During [evs], from [s] to [s'], the files selected by [keep] never
    change: not at the end and not in any intermediate file system. *)
Definition preserves (keep : string -> Prop) (s s' : State)
    (evs : list event) : Prop :=
  extends s s' evs /\
  (forall p, keep p -> fs s' !! p = fs s !! p) /\
  (forall f, In (EvFs f) evs -> forall p, keep p -> f !! p = fs s !! p).

Lemma preserves_refl keep (s : State) : preserves keep s s [].
Proof.
  split; [unfold extends; by rewrite app_nil_r|]. split; [done|]. intros f [].
Qed.

Lemma preserves_trans keep (s1 s2 s3 : State) (a b : list event) :
  preserves keep s1 s2 a -> preserves keep s2 s3 b ->
  preserves keep s1 s3 (a ++ b).
Proof.
  intros (E1 & F1 & S1) (E2 & F2 & S2). split; [|split].
  - unfold extends in *. by rewrite E2, E1, app_assoc.
  - intros p Hp. by rewrite F2, F1.
  - intros f Hf p Hp. apply in_app_or in Hf as [Hf|Hf].
    + by apply S1.
    + by rewrite (S2 f Hf p Hp), F1.
Qed.

Lemma preserves_weaken (keep keep' : string -> Prop) (s s' : State) evs :
  (forall p, keep' p -> keep p) ->
  preserves keep s s' evs -> preserves keep' s s' evs.
Proof.
  intros Hk (E & F & S). split; [exact E|]. split.
  - intros p Hp. apply F, Hk, Hp.
  - intros f Hf p Hp. apply (S f Hf), Hk, Hp.
Qed.

Lemma preserves_emit keep (e : event) (s : State) :
  (forall f, e <> EvFs f) -> preserves keep s (emit e s) [e].
Proof.
  intros He. split; [reflexivity|]. split; [done|].
  intros f [->|[]]. by destruct (He f).
Qed.

Lemma preserves_with_world keep (w : World) (s : State) :
  preserves keep s (with_world w s) [].
Proof.
  split; [unfold extends; simpl; by rewrite app_nil_r|]. split; [done|].
  intros f [].
Qed.

Lemma preserves_set_fs (keep : string -> Prop) f (s : State) :
  (forall p, keep p -> f !! p = fs s !! p) ->
  preserves keep s (set_fs f s) [EvFs f].
Proof.
  intros Hf. split; [reflexivity|]. split; [exact Hf|].
  intros g [[= <-]|[]]. exact Hf.
Qed.

Lemma time_sleep_preserves keep d (s s' : State) r :
  time_sleep d s = (r, s') ->
  exists evs, preserves keep s s' evs /\ forall u o, ~ In (EvGet u o) evs.
Proof.
  unfold time_sleep. intros H. destruct (Qle_bool 0 d); simplify_eq.
  - exists [EvSleep d]. split; [by apply preserves_emit|].
    intros u o [?|[]]. discriminate.
  - exists []. split; [apply preserves_refl | intros u o []].
Qed.

Lemma backoff_sleep_preserves keep a bf mb (s s' : State) r :
  backoff_sleep a bf mb s = (r, s') ->
  exists evs, preserves keep s s' evs /\ forall u o, ~ In (EvGet u o) evs.
Proof.
  unfold backoff_sleep. destruct (random_random (world s)) as [u w].
  intros H. apply (time_sleep_preserves keep) in H as (evs & Hp & Hg).
  exists evs. split; [|exact Hg].
  apply (preserves_trans keep _ _ _ [] evs (preserves_with_world keep w s) Hp).
Qed.

Lemma remove_if_exists_spec (path : string) (s : State) :
  exists evs,
    preserves (fun p => p <> path) s (remove_if_exists path s) evs /\
    fs (remove_if_exists path s) !! path = None /\
    (forall u o, ~ In (EvGet u o) evs) /\
    (forall f, In (EvFs f) evs -> f !! path = None).
Proof.
  unfold remove_if_exists. destruct (fs s !! path) as [data|] eqn:E.
  - exists [EvFs (delete path (fs s))]. split; [|split; [|split]].
    + apply preserves_set_fs. intros p Hp. by rewrite lookup_delete_ne.
    + simpl. apply lookup_delete_eq.
    + intros u o [?|[]]. discriminate.
    + intros f [[= <-]|[]]. apply lookup_delete_eq.
  - exists []. split; [apply preserves_refl|]. split; [exact E|].
    split; [intros u o [] | intros f []].
Qed.

(** Streaming touches the temporary file only and appends the chunks. *)
Lemma stream_chunks_spec (tmp : string) (chunks : list (list Byte.byte)) :
  forall (s : State) init,
    fs s !! tmp = Some init ->
    exists evs,
      preserves (fun p => p <> tmp) s (stream_chunks tmp chunks s) evs /\
      fs (stream_chunks tmp chunks s) !! tmp = Some (init ++ concat chunks) /\
      (forall u o, ~ In (EvGet u o) evs).
Proof.
  induction chunks as [|c rest IH]; intros s init Hinit.
  - exists []. split; [apply preserves_refl|]. simpl. rewrite app_nil_r.
    split; [exact Hinit | intros u o []].
  - destruct c as [|b c].
    + simpl. apply IH. exact Hinit.
    + cbn [stream_chunks]. rewrite Hinit. cbn [default from_option].
      change (id init) with init.
      set (f := <[tmp := init ++ b :: c]> (fs s)).
      destruct (IH (set_fs f s) (init ++ b :: c)) as (evs & Hp & Hc & Hg).
      { simpl. unfold f. apply lookup_insert_eq. }
      exists ([EvFs f] ++ evs). split; [|split].
      * eapply preserves_trans; [|exact Hp]. apply preserves_set_fs.
        intros p Hne. unfold f. by rewrite lookup_insert_ne.
      * rewrite Hc. cbn [concat]. by rewrite <- app_assoc.
      * intros u o [?|Hin]; [discriminate | by apply (Hg u o)].
Qed.

Lemma part_ne (dest : string) : dest +:+ ".part" <> dest.
Proof.
  intros H. apply (f_equal String.length) in H. rewrite length_app in H.
  simpl in H. lia.
Qed.

Lemma parse_expected_size_no_response (url : string) :
  _parse_expected_size url None = _expected_size url.
Proof. unfold _parse_expected_size. by destruct (_expected_size url). Qed.

(** [body] is the whole body of a response to a GET on [url] recorded in
    [evs], streamed to its end, and of the size the url announces if it
    announces one. *)
Definition delivered (url : string) (evs : list event)
    (body : list Byte.byte) : Prop :=
  exists code hdrs chunks,
    In (EvGet url (GetResponse code hdrs chunks None)) evs /\
    body = concat chunks /\
    forall n, _expected_size url = Some n -> Z.of_nat (length body) = n.

Lemma delivered_app_l url a b body :
  delivered url a body -> delivered url (a ++ b) body.
Proof.
  intros (code & hdrs & chunks & Hin & Hb & Hn).
  exists code, hdrs, chunks. split; [|done]. apply in_or_app. by left.
Qed.

Lemma delivered_app_r url a b body :
  delivered url b body -> delivered url (a ++ b) body.
Proof.
  intros (code & hdrs & chunks & Hin & Hb & Hn).
  exists code, hdrs, chunks. split; [|done]. apply in_or_app. by right.
Qed.

(** One attempt changes only the temporary file and, when it commits, the
    destination, which then holds a delivered body. *)
Lemma try_attempt_spec url dest n bf mb a (s s' : State) r :
  try_attempt url dest n bf mb a s = (r, s') ->
  exists evs,
    preserves (fun p => p <> dest +:+ ".part" /\ p <> dest) s s' evs /\
    (r = Committed ->
     exists body, delivered url evs body /\ fs s' !! dest = Some body).
Proof.
  unfold try_attempt. set (tmp := dest +:+ ".part").
  set (keep := fun p : string => p <> tmp /\ p <> dest).
  destruct (requests_get url (world s)) as [out w].
  set (s1 := emit (EvGet url out) (with_world w s)).
  assert (P1 : preserves keep s s1 [EvGet url out]).
  { apply (preserves_trans keep _ _ _ [] _ (preserves_with_world keep w s)).
    by apply preserves_emit. }
  destruct out as [e|code hdrs chunks broken].
  { intros H. simplify_eq. exists [EvGet url (GetFails e)]. split; [exact P1 | done]. }
  destruct (retryable code && (a <? n)%nat).
  { destruct (backoff_sleep a bf mb s1) as [[[]|e] s2] eqn:Hs;
      apply (backoff_sleep_preserves keep) in Hs as (e2 & P2 & _);
      intros H; simplify_eq; eexists; (split; [eapply preserves_trans; eassumption | done]). }
  destruct ((400 <=? code) && (code <? 600)).
  { intros H. simplify_eq. eexists. split; [exact P1 | done]. }
  set (s1' := set_fs (<[tmp := []]> (fs s1)) s1).
  assert (P1' : preserves keep s1 s1' [EvFs (<[tmp := []]> (fs s1))]).
  { apply preserves_set_fs. intros p [Hp _]. by rewrite lookup_insert_ne. }
  destruct (stream_chunks_spec tmp chunks s1' []) as (e2 & P2 & C2 & _).
  { simpl. apply lookup_insert_eq. }
  set (s2 := stream_chunks tmp chunks s1') in *.
  assert (P2' : preserves keep s1' s2 e2).
  { eapply preserves_weaken; [|exact P2]. by intros p [Hp _]. }
  pose proof (preserves_trans _ _ _ _ _ _ P1 (preserves_trans _ _ _ _ _ _ P1' P2'))
    as P12.
  destruct broken as [e|].
  { intros H. simplify_eq. eexists. split; [exact P12 | done]. }
  rewrite C2. simpl app. rewrite parse_expected_size_no_response.
  unfold os_replace. rewrite C2.
  destruct (match _expected_size url with
            | Some exp => Z.of_nat (length (concat chunks)) =? exp
            | None => true
            end) eqn:Hsize.
  2:{ intros H. simplify_eq. eexists. split; [exact P12 | done]. }
  intros H. simplify_eq.
  set (f := <[dest := concat chunks]> (delete tmp (fs s2))).
  exists ([EvGet url (GetResponse code hdrs chunks None)] ++
          [EvFs (<[tmp := []]> (fs s1))] ++ e2 ++ [EvFs f]). split.
  - rewrite !app_assoc. eapply preserves_trans.
    + rewrite <- !app_assoc. exact P12.
    + apply preserves_set_fs. intros p [Hp Hd]. unfold f.
      by rewrite lookup_insert_ne, lookup_delete_ne.
  - intros _. exists (concat chunks). split.
    + exists code, hdrs, chunks. split; [by left|]. split; [done|].
      intros m Hm. rewrite Hm in Hsize. lia.
    + simpl. unfold f. apply lookup_insert_eq.
Qed.

Lemma try_attempt_retry_lt url dest n bf mb a (s s' : State) :
  try_attempt url dest n bf mb a s = (Retry, s') -> (a < n)%nat.
Proof.
  unfold try_attempt. destruct (requests_get url (world s)) as [out w].
  destruct out as [e|code hdrs chunks broken]; [discriminate|].
  destruct (retryable code && (a <? n)%nat) eqn:Hgo.
  { intros _. apply andb_prop in Hgo as [_ H]. by apply Nat.ltb_lt. }
  intros H. exfalso. repeat case_match; simplify_eq.
Qed.

Lemma download_loop_cons url dest n bf mb a rest (s : State) :
  download_loop url dest n bf mb (a :: rest) s =
  match try_attempt url dest n bf mb a s with
  | (Committed, s1) => (Ok dest, s1)
  | (Retry, s1) => download_loop url dest n bf mb rest s1
  | (Failed e, s1) =>
      let s2 := remove_if_exists (dest +:+ ".part") s1 in
      if (n <=? a)%nat then (Raise e, s2)
      else
        match backoff_sleep a bf mb s2 with
        | (Ok _, s3) => download_loop url dest n bf mb rest s3
        | (Raise e', s3) => (Raise e', s3)
        end
  end.
Proof. reflexivity. Qed.

(** The whole retry loop changes only the temporary file and the
    destination; when it returns, the destination holds a delivered body. *)
Lemma download_loop_spec url dest n bf mb :
  forall k a (s s' : State) r,
    download_loop url dest n bf mb (seq a (S k)) s = (r, s') ->
    (a + S k = S n)%nat ->
    exists evs,
      preserves (fun p => p <> dest +:+ ".part" /\ p <> dest) s s' evs /\
      forall d, r = Ok d ->
        d = dest /\
        exists body, delivered url evs body /\ fs s' !! dest = Some body.
Proof.
  set (keep := fun p : string => p <> dest +:+ ".part" /\ p <> dest).
  induction k as [|k IH]; intros a s s' r H Hk;
    change (seq a (S ?j)) with (a :: seq (S a) j) in H;
    rewrite download_loop_cons in H;
    destruct (try_attempt url dest n bf mb a s) as [[| |e] s1] eqn:Ht;
    pose proof (try_attempt_spec _ _ _ _ _ _ _ _ _ Ht) as (e1 & P1 & C1).
  all: try (injection H as <- <-; exists e1; split; [exact P1|];
            intros d [= <-]; split; [done|]; by apply C1).
  all: try (apply try_attempt_retry_lt in Ht; lia).
  all: cbn zeta in H;
    destruct (remove_if_exists_spec (dest +:+ ".part") s1) as (e2 & P2 & _);
    apply (preserves_weaken _ keep) in P2; [|by intros p [Hp _]].
  all: try (destruct (n <=? a)%nat eqn:Hle;
    [injection H as <- <-; exists (e1 ++ e2); split;
       [eapply preserves_trans; eassumption | discriminate]|]).
  - apply Nat.leb_gt in Hle. lia.
  - destruct (IH (S a) s1 s' r H ltac:(lia)) as (e3 & P3 & C3).
    exists (e1 ++ e3). split; [eapply preserves_trans; eassumption|].
    intros d Hd. destruct (C3 d Hd) as (-> & body & Hb & Hf).
    split; [done|]. exists body. split; [by apply delivered_app_r | done].
  - destruct (backoff_sleep a bf mb _) as [[[]|e'] s3] eqn:Hs;
      apply (backoff_sleep_preserves keep) in Hs as (e3 & P3 & _).
    + destruct (IH (S a) s3 s' r H ltac:(lia)) as (e4 & P4 & C4).
      exists (e1 ++ e2 ++ e3 ++ e4). split.
      * repeat (eapply preserves_trans; [eassumption|]). exact P4.
      * intros d Hd. destruct (C4 d Hd) as (-> & body & Hb & Hf).
        split; [done|]. exists body. split; [|done].
        by do 3 apply delivered_app_r.
    + injection H as <- <-. exists (e1 ++ e2 ++ e3). split.
      * repeat (eapply preserves_trans; [eassumption|]). exact P3.
      * discriminate.
Qed.

(** *** The paths of one task *)

Lemma filename_no_slash (url : string) : count_slash (filename_of url) = 0%nat.
Proof.
  unfold filename_of. destruct (str_truthy _); [apply basename_no_slash | reflexivity].
Qed.

Lemma in_progress_path (out_dir name : string) :
  count_slash name = 0%nat ->
  join (join out_dir "in_progress") name =
  dir_prefix out_dir +:+ "in_progress" +:+ "/" +:+ name.
Proof.
  intros Hn. rewrite (join_relative out_dir "in_progress") by reflexivity.
  apply join_under; [discriminate | reflexivity | by apply no_slash_start].
Qed.

Lemma completed_path (out_dir name : string) :
  count_slash name = 0%nat ->
  join (join out_dir "completed") name =
  dir_prefix out_dir +:+ "completed" +:+ "/" +:+ name.
Proof.
  intros Hn. rewrite (join_relative out_dir "completed") by reflexivity.
  apply join_under; [discriminate | reflexivity | by apply no_slash_start].
Qed.

(** The completed path differs from the in-progress path, from its [.part]
    sibling and from everything under the extraction directory. *)
Lemma completed_ne_in_progress (out_dir name : string) :
  count_slash name = 0%nat ->
  join (join out_dir "completed") name <> join (join out_dir "in_progress") name.
Proof.
  intros Hn H. rewrite completed_path, in_progress_path in H by exact Hn.
  apply (f_equal String.length) in H. rewrite !length_app in H. simpl in H. lia.
Qed.

Lemma completed_ne_part (out_dir name : string) :
  count_slash name = 0%nat ->
  join (join out_dir "completed") name <>
  join (join out_dir "in_progress") name +:+ ".part".
Proof.
  intros Hn H. rewrite completed_path, in_progress_path in H by exact Hn.
  apply (f_equal String.length) in H. rewrite !length_app in H. simpl in H. lia.
Qed.

Lemma completed_ne_extracted (out_dir name member : string) :
  count_slash name = 0%nat ->
  join (join out_dir "completed") name <>
  join (join out_dir "completed")
    (splitext_root (basename (join (join out_dir "completed") name)))
  +:+ "/" +:+ member.
Proof.
  intros Hn H. rewrite completed_path in H by exact Hn.
  rewrite <- (app_assoc_str (dir_prefix out_dir) "completed") in H.
  rewrite basename_app_slash in H by exact Hn.
  rewrite (join_relative out_dir "completed") in H by reflexivity.
  rewrite join_under in H;
    [|discriminate | reflexivity
     | by apply no_slash_start, splitext_root_no_slash].
  apply (f_equal count_slash) in H.
  rewrite !count_slash_app in H. simpl in H.
  rewrite Hn, (splitext_root_no_slash name Hn) in H. lia.
Qed.

(** *** Archive expansion leaves the archive as it is, or removes it *)

Lemma extract_members_spec (dir : string) members :
  forall s : State,
    exists evs,
      preserves (fun p => forall name, p <> dir +:+ "/" +:+ name)
        s (extract_members dir members s) evs /\
      forall u o, ~ In (EvGet u o) evs.
Proof.
  induction members as [|[name data] rest IH]; intros s.
  - exists []. split; [apply preserves_refl | intros u o []].
  - cbn [extract_members].
    set (f := <[dir +:+ "/" +:+ name := data]> (fs s)).
    destruct (IH (set_fs f s)) as (evs & Hp & Hg).
    exists ([EvFs f] ++ evs). split.
    + eapply preserves_trans; [|exact Hp]. apply preserves_set_fs.
      intros p Hne. unfold f. rewrite lookup_insert_ne; [done|].
      intros Heq. by apply (Hne name).
    + intros u o [?|Hin]; [discriminate | by apply (Hg u o)].
Qed.

(** A file system seen during [evs] or at the end of it. *)
Definition observed (evs : list event) (s' : State)
    (f : gmap string (list Byte.byte)) : Prop :=
  In (EvFs f) evs \/ f = fs s'.

Lemma maybe_unzip_spec (file_path out_dir : string) keep_zip (s s' : State) r :
  _maybe_unzip file_path out_dir keep_zip s = (r, s') ->
  (forall member,
      file_path <>
      join out_dir (splitext_root (basename file_path)) +:+ "/" +:+ member) ->
  exists evs,
    extends s s' evs /\ (forall u o, ~ In (EvGet u o) evs) /\
    forall f, observed evs s' f ->
      f !! file_path = fs s !! file_path \/ f !! file_path = None.
Proof.
  unfold _maybe_unzip. intros H Hne.
  assert (Hnil : exists evs, extends s s evs /\ (forall u o, ~ In (EvGet u o) evs) /\
            forall f, observed evs s f ->
              f !! file_path = fs s !! file_path \/ f !! file_path = None).
  { exists []. split; [unfold extends; by rewrite app_nil_r|].
    split; [intros u o []|]. intros f [[]| ->]. by left. }
  destruct (negb _); [by simplify_eq|].
  set (dir := join out_dir (splitext_root (basename file_path))) in *.
  destruct (fs s !! dir); [by simplify_eq|].
  destruct (fs s !! file_path) as [data|] eqn:Hfile; [|by simplify_eq].
  destruct (zip_read data) as [members finished].
  destruct (extract_members_spec dir members s) as (e1 & (E1 & F1 & S1) & G1).
  set (s1 := extract_members dir members s) in *.
  assert (K1 : forall f, observed e1 s1 f -> f !! file_path = fs s !! file_path).
  { intros f [Hf| ->]; [by apply (S1 f Hf) | by apply F1]. }
  rewrite Hfile in K1.
  destruct finished; [destruct keep_zip|]; injection H as <- <-.
  - exists e1. split; [exact E1|]. split; [exact G1|]. intros f Hf. left. by apply K1.
  - destruct (remove_if_exists_spec file_path s1) as (e2 & (E2 & F2 & S2) & N2 & G2 & D2).
    exists (e1 ++ e2). split; [|split].
    + unfold extends in *. by rewrite E2, E1, app_assoc.
    + intros u o Hin. apply in_app_or in Hin as [Hin|Hin];
        [by apply (G1 u o) | by apply (G2 u o)].
    + intros f [Hf| ->]; [|by right].
      apply in_app_or in Hf as [Hf|Hf]; [left; apply K1; by left | right; by apply D2].
  - exists e1. split; [exact E1|]. split; [exact G1|]. intros f Hf. left. by apply K1.
Qed.

Lemma finish_job_spec aid (fin_path completed_dir : string) unzip keep_zip
    (s s' : State) r :
  finish_job aid fin_path completed_dir unzip keep_zip s = (r, s') ->
  (forall member,
      fin_path <>
      join completed_dir (splitext_root (basename fin_path)) +:+ "/" +:+ member) ->
  exists evs,
    extends s s' evs /\ (forall u o, ~ In (EvGet u o) evs) /\
    (forall f, observed evs s' f ->
       f !! fin_path = fs s !! fin_path \/ f !! fin_path = None) /\
    (forall res, r = Ok res -> r_dest res = fin_path /\ r_archiveId res = aid).
Proof.
  unfold finish_job. intros H Hne.
  destruct (unzip && _).
  - destruct (_maybe_unzip fin_path completed_dir keep_zip s) as [[d|e] s1] eqn:Hu;
      apply maybe_unzip_spec in Hu as (evs & E & G & K); try exact Hne;
      simplify_eq; exists evs; (split; [exact E|]); (split; [exact G|]);
      (split; [exact K|]).
    + by intros res [= <-].
    + discriminate.
  - simplify_eq. exists []. split; [unfold extends; by rewrite app_nil_r|].
    split; [intros u o []|]. split.
    + intros f [[]| ->]. by left.
    + by intros res [= <-].
Qed.

(** *** Atomicity of the completed file *)

(** What may be seen at the completed path of a task while and after the
    task runs: what was there before, nothing, or a delivered body. *)
Definition never_partial (url : string) (before : option (list Byte.byte))
    (evs : list event) (now : option (list Byte.byte)) : Prop :=
  now = before \/ now = None \/
  exists body, delivered url evs body /\ now = Some body.

Lemma os_replace_some src dst (f : gmap string (list Byte.byte)) data :
  f !! src = Some data -> os_replace src dst f = Ok (<[dst := data]> (delete src f)).
Proof. unfold os_replace. by intros ->. Qed.

(** C1 (atomicity). While a download task runs and after it, whatever the
    network does, every file system state shows at the task's completed
    path either what was there before the task, or no file, or the whole
    body of a response that was streamed to its end and passed the size
    check: the body goes to the [.part] sibling of the in-progress file and
    reaches the completed path only by [os.replace]. *)
Theorem completed_never_partial out_dir unzip keep_zip url aid (s s' : State) r :
  job out_dir unzip keep_zip url aid s = (r, s') ->
  exists evs,
    extends s s' evs /\
    forall f, observed evs s' f ->
      never_partial url
        (fs s !! join (join out_dir "completed") (filename_of url)) evs
        (f !! join (join out_dir "completed") (filename_of url)).
Proof.
  unfold job.
  pose proof (filename_no_slash url) as Hn.
  set (name := filename_of url) in *.
  set (cdir := join out_dir "completed").
  set (fin := join cdir name).
  set (tmp := join (join out_dir "in_progress") name).
  assert (Hne1 : fin <> tmp) by (by apply completed_ne_in_progress).
  assert (Hne2 : fin <> tmp +:+ ".part") by (by apply completed_ne_part).
  assert (Hne3 : forall member,
             fin <> join cdir (splitext_root (basename fin)) +:+ "/" +:+ member)
    by (intros member; by apply completed_ne_extracted).
  set (skipped := if already_complete url fin s then _ else _).
  assert (Hskip : exists e0,
             extends s (snd skipped) e0 /\
             forall f, observed e0 (snd skipped) f ->
               f !! fin = fs s !! fin \/ f !! fin = None).
  { unfold skipped. destruct (already_complete url fin s).
    - destruct (finish_job aid fin cdir unzip keep_zip s) as [[r0|e] s1] eqn:Hf;
        apply finish_job_spec in Hf as (e0 & E0 & _ & K0 & _); try exact Hne3;
        exists e0; done.
    - exists []. split; [unfold extends; by rewrite app_nil_r|].
      intros f [[]| ->]. by left. }
  destruct Hskip as (e0 & E0 & K0).
  destruct skipped as [[r0|] s1]; simpl in E0, K0.
  { intros [= <- <-]. exists e0. split; [exact E0|].
    intros f Hf. destruct (K0 f Hf) as [->| ->]; [by left | right; by left]. }
  destruct (_download_with_retries url tmp 5 1%Q 20%Q s1) as [[d|e] s2] eqn:Hd;
    unfold _download_with_retries in Hd;
    apply (download_loop_spec url tmp 5 1%Q 20%Q 4 1) in Hd as (e1 & (E1 & F1 & S1) & C1);
    try reflexivity.
  2:{ intros [= <- <-]. exists (e0 ++ e1). split.
      - unfold extends in *. by rewrite E1, E0, app_assoc.
      - intros f [Hf| ->].
        + apply in_app_or in Hf as [Hf|Hf].
          * destruct (K0 f (or_introl Hf)) as [->| ->]; [by left | right; by left].
          * rewrite (S1 f Hf fin) by done.
            destruct (K0 (fs s1) (or_intror eq_refl)) as [->| ->];
              [by left | right; by left].
        + rewrite (F1 fin) by done.
          destruct (K0 (fs s1) (or_intror eq_refl)) as [->| ->];
            [by left | right; by left]. }
  destruct (C1 d eq_refl) as (-> & body & Hb & Hbody).
  rewrite (os_replace_some _ _ _ _ Hbody).
  set (g := <[fin := body]> (delete tmp (fs s2))).
  intros Hfin. apply finish_job_spec in Hfin as (e3 & E3 & _ & K3 & _);
    [|exact Hne3].
  exists (e0 ++ e1 ++ [EvFs g] ++ e3). split.
  { unfold extends in *. rewrite E3. simpl. rewrite E1, E0.
    by rewrite <- !app_assoc. }
  assert (Hdel : delivered url (e0 ++ e1 ++ [EvFs g] ++ e3) body).
  { apply delivered_app_r. by apply delivered_app_l. }
  assert (Hg : g !! fin = Some body) by apply lookup_insert_eq.
  assert (Hkeep : fs s1 !! fin = fs s !! fin \/ fs s1 !! fin = None)
    by (apply K0; by right).
  assert (Hlate : forall f, observed e3 s' f ->
            never_partial url (fs s !! fin) (e0 ++ e1 ++ [EvFs g] ++ e3) (f !! fin)).
  { intros f Hf. destruct (K3 f Hf) as [Hk| ->]; [|right; by left].
    rewrite Hk. simpl. rewrite Hg. right. right. by exists body. }
  intros f [Hf| ->]; [|apply Hlate; by right].
  apply in_app_or in Hf as [Hf|Hf].
  { destruct (K0 f (or_introl Hf)) as [->| ->]; [by left | right; by left]. }
  apply in_app_or in Hf as [Hf|Hf].
  { rewrite (S1 f Hf fin) by done.
    destruct Hkeep as [->| ->]; [by left | right; by left]. }
  apply in_app_or in Hf as [Hf|Hf].
  { destruct Hf as [[= <-]|[]]. rewrite Hg. right. right. by exists body. }
  apply Hlate. by left.
Qed.

(** *** Skip-if-complete and resuming *)




(** *** The size check *)

(** C6 (size verification), as the code has it. The check after the stream
    uses the size announced by the url only ([_parse_expected_size(url,
    None)]). With such a size: the loop returns only with a destination of
    exactly that size; and an attempt whose stream ends with another size
    fails with [IOError], its temporary file is removed and the destination
    untouched, after which the loop raises if this was the last attempt and
    otherwise sleeps and goes on with the remaining attempts. *)
Theorem size_mismatch_fails_attempt url dest n bf mb exp :
  _expected_size url = Some exp ->
  (forall (s s' : State) d,
      (0 < n)%nat ->
      _download_with_retries url dest n bf mb s = (Ok d, s') ->
      exists body, fs s' !! dest = Some body /\ Z.of_nat (length body) = exp) /\
  (forall a rest (s : State) code hdrs chunks w,
      requests_get url (world s) = (GetResponse code hdrs chunks None, w) ->
      retryable code && (a <? n)%nat = false ->
      (400 <=? code) && (code <? 600) = false ->
      Z.of_nat (length (concat chunks)) <> exp ->
      exists s1,
        try_attempt url dest n bf mb a s = (Failed IOError, s1) /\
        fs (remove_if_exists (dest +:+ ".part") s1) !! (dest +:+ ".part") = None /\
        fs (remove_if_exists (dest +:+ ".part") s1) !! dest = fs s !! dest /\
        download_loop url dest n bf mb (a :: rest) s =
        if (n <=? a)%nat then (Raise IOError, remove_if_exists (dest +:+ ".part") s1)
        else
          match backoff_sleep a bf mb (remove_if_exists (dest +:+ ".part") s1) with
          | (Ok _, s3) => download_loop url dest n bf mb rest s3
          | (Raise e', s3) => (Raise e', s3)
          end).
Proof.
  intros Hexp. split.
  - intros s s' d Hpos H. unfold _download_with_retries in H.
    destruct n as [|k]; [lia|].
    apply (download_loop_spec url dest (S k) bf mb k 1) in H as (evs & _ & C);
      [|lia].
    destruct (C d eq_refl) as (_ & body & (code & hdrs & chunks & _ & _ & Hsz) & Hb).
    exists body. split; [exact Hb | by apply Hsz].
  - intros a rest s code hdrs chunks w Hget Hretry Hstatus Hsize.
    destruct (try_attempt url dest n bf mb a s) as [r s1] eqn:Ht.
    pose proof (try_attempt_spec _ _ _ _ _ _ _ _ _ Ht) as (e1 & (_ & F1 & _) & _).
    assert (r = Failed IOError) as ->.
    { unfold try_attempt in Ht. rewrite Hget, Hretry, Hstatus in Ht.
      set (s0 := set_fs _ (emit _ (with_world w s))) in Ht.
      destruct (stream_chunks_spec (dest +:+ ".part") chunks s0 []) as (e2 & _ & C2 & _).
      { simpl. apply lookup_insert_eq. }
      rewrite C2, parse_expected_size_no_response, Hexp in Ht. simpl app in Ht.
      apply Z.eqb_neq in Hsize. rewrite Hsize in Ht. by injection Ht as <- _. }
    exists s1. split; [done|].
    destruct (remove_if_exists_spec (dest +:+ ".part") s1) as (e3 & (_ & F3 & _) & N3 & _).
    split; [exact N3|]. split.
    + rewrite F3 by (intros H; symmetry in H; by apply part_ne in H).
      destruct (decide (dest = dest +:+ ".part")) as [Heq|Hne];
        [symmetry in Heq; by apply part_ne in Heq|].
      (* the attempt itself did not touch the destination either *)
      unfold try_attempt in Ht. rewrite Hget, Hretry, Hstatus in Ht.
      set (s0 := set_fs _ (emit _ (with_world w s))) in Ht.
      destruct (stream_chunks_spec (dest +:+ ".part") chunks s0 []) as (e2 & (_ & F2 & _) & C2 & _).
      { simpl. apply lookup_insert_eq. }
      rewrite C2, parse_expected_size_no_response, Hexp in Ht. simpl app in Ht.
      apply Z.eqb_neq in Hsize. rewrite Hsize in Ht. injection Ht as <-.
      rewrite F2 by done. simpl. by rewrite lookup_insert_ne.
    + rewrite download_loop_cons, Ht. reflexivity.
Qed.

(** *** The retry discipline of the download loop, read off the log *)

(** The network side of a log: requests and sleeps. *)
Fixpoint net (evs : list event) : list event :=
  match evs with
  | [] => []
  | EvGet u o :: rest => EvGet u o :: net rest
  | EvSleep d :: rest => EvSleep d :: net rest
  | _ :: rest => net rest
  end.

Fixpoint n_gets (evs : list event) : nat :=
  match evs with
  | [] => 0
  | EvGet _ _ :: rest => S (n_gets rest)
  | _ :: rest => n_gets rest
  end.

Lemma net_app (a b : list event) : net (a ++ b) = net a ++ net b.
Proof.
  induction a as [|e a IH]; [reflexivity|]. destruct e; simpl; by rewrite ?IH.
Qed.

(** The delay of the download loop at attempt [a] for the random draw [u]. *)
Definition delay (a : nat) (bf mb : Q) (u : unit_float) : Q :=
  (Backoff.exp_backoff (Z.of_nat a) bf mb * Backoff.jitter u)%Q.


(** The outcomes an attempt can commit: a whole body under a status that
    is neither retried nor an error. *)
Definition commits (n a : nat) (out : get_outcome) : bool :=
  match out with
  | GetResponse code _ _ None =>
      negb (retryable code && (a <? n)%nat) &&
      negb ((400 <=? code) && (code <? 600))
  | _ => false
  end.

Lemma net_set_fs f (s : State) : net (log (set_fs f s)) = net (log s).
Proof. simpl. rewrite net_app. simpl. by rewrite app_nil_r. Qed.

Lemma stream_chunks_net tmp chunks :
  forall s : State, net (log (stream_chunks tmp chunks s)) = net (log s).
Proof.
  induction chunks as [|c rest IH]; intros s; [reflexivity|].
  destruct c; simpl; [apply IH|]. rewrite IH. apply net_set_fs.
Qed.

Lemma remove_if_exists_net path (s : State) :
  net (log (remove_if_exists path s)) = net (log s).
Proof.
  unfold remove_if_exists. destruct (fs s !! path); [apply net_set_fs | reflexivity].
Qed.

Lemma backoff_sleep_net a bf mb (s s' : State) r :
  backoff_sleep a bf mb s = (r, s') ->
  exists u,
    (r = Ok tt /\ Qle_bool 0 (delay a bf mb u) = true /\
     net (log s') = net (log s) ++ [EvSleep (delay a bf mb u)]) \/
    (r = Raise ValueError /\ Qle_bool 0 (delay a bf mb u) = false /\
     net (log s') = net (log s)).
Proof.
  unfold backoff_sleep, time_sleep. destruct (random_random (world s)) as [u w].
  fold (delay a bf mb u). destruct (Qle_bool 0 (delay a bf mb u)) eqn:Hd;
    intros [= <- <-]; exists u; [left | right]; (split; [done|]); (split; [done|]).
  - simpl. by rewrite net_app.
  - reflexivity.
Qed.

Lemma try_attempt_net url dest n bf mb a (s s' : State) r :
  try_attempt url dest n bf mb a s = (r, s') ->
  exists out,
    match r with
    | Committed =>
        net (log s') = net (log s) ++ [EvGet url out] /\ commits n a out = true
    | Retry =>
        exists u,
          net (log s') =
            net (log s) ++ [EvGet url out; EvSleep (delay a bf mb u)] /\
          (a < n)%nat /\ Qle_bool 0 (delay a bf mb u) = true
    | Failed _ => net (log s') = net (log s) ++ [EvGet url out]
    end.
Proof.
  unfold try_attempt. destruct (requests_get url (world s)) as [out w].
  set (s1 := emit (EvGet url out) (with_world w s)).
  assert (N1 : net (log s1) = net (log s) ++ [EvGet url out])
    by (simpl; by rewrite net_app).
  intros H. exists out. destruct out as [e|code hdrs chunks broken].
  { by injection H as <- <-. }
  destruct (retryable code && (a <? n)%nat) eqn:Hgo.
  { apply andb_prop in Hgo as [_ Hlt]. apply Nat.ltb_lt in Hlt.
    destruct (backoff_sleep a bf mb s1) as [[[]|e] s2] eqn:Hs;
      apply backoff_sleep_net in Hs as (u & [(? & Hacc & Hn)|(? & Hacc & Hn)]);
      simplify_eq.
    - exists u. rewrite Hn, N1, <- app_assoc. done.
    - by rewrite Hn. }
  destruct ((400 <=? code) && (code <? 600)) eqn:Hst.
  { by injection H as <- <-. }
  set (s2 := stream_chunks _ _ _) in H.
  assert (N2 : net (log s2) = net (log s) ++ [EvGet url (GetResponse code hdrs chunks broken)]).
  { unfold s2. by rewrite stream_chunks_net, net_set_fs. }
  destruct broken as [e|]; [by injection H as <- <-|].
  destruct (fs s2 !! (dest +:+ ".part")) as [data|]; [|by injection H as <- <-].
  assert (Hcommit :
    match os_replace (dest +:+ ".part") dest (fs s2) with
    | Ok f => (Committed, set_fs f s2)
    | Raise e => (Failed e, s2)
    end = (r, s') ->
    match r with
    | Committed =>
        net (log s') =
          net (log s) ++ [EvGet url (GetResponse code hdrs chunks None)] /\
        commits n a (GetResponse code hdrs chunks None) = true
    | Retry =>
        exists u,
          net (log s') =
            net (log s) ++ [EvGet url (GetResponse code hdrs chunks None);
                            EvSleep (delay a bf mb u)] /\
          (a < n)%nat /\ Qle_bool 0 (delay a bf mb u) = true
    | Failed _ =>
        net (log s') =
          net (log s) ++ [EvGet url (GetResponse code hdrs chunks None)]
    end).
  { destruct (os_replace _ _ _); intros [= <- <-]; [|done].
    rewrite net_set_fs. split; [done|]. simpl. by rewrite Hgo, Hst. }
  destruct (_parse_expected_size url None) as [exp|]; [|by apply Hcommit].
  destruct (Z.of_nat (length data) =? exp); [by apply Hcommit|].
  by injection H as <- <-.
Qed.

(** The shapes a run of the download loop can have from attempt [a] on:
    it commits, it raises at the last attempt, a sleep is refused, or it
    sleeps and goes on with attempt [a + 1]. *)
Inductive dl_trace (url : string) (n : nat) (bf mb : Q)
  : nat -> list event -> result string -> Prop :=
| dt_commit a out d :
    commits n a out = true ->
    dl_trace url n bf mb a [EvGet url out] (Ok d)
| dt_raise a out e :
    (n <= a)%nat ->
    dl_trace url n bf mb a [EvGet url out] (Raise e)
| dt_refused a out u :
    (a < n)%nat -> Qle_bool 0 (delay a bf mb u) = false ->
    dl_trace url n bf mb a [EvGet url out] (Raise ValueError)
| dt_retry a out u tl r :
    (a < n)%nat -> Qle_bool 0 (delay a bf mb u) = true ->
    dl_trace url n bf mb (S a) tl r ->
    dl_trace url n bf mb a (EvGet url out :: EvSleep (delay a bf mb u) :: tl) r.

Lemma download_loop_trace url dest n bf mb :
  forall k a (s s' : State) r,
    download_loop url dest n bf mb (seq a (S k)) s = (r, s') ->
    (a + S k = S n)%nat ->
    exists tr, net (log s') = net (log s) ++ tr /\ dl_trace url n bf mb a tr r.
Proof.
  induction k as [|k IH]; intros a s s' r H Hk;
    change (seq a (S ?j)) with (a :: seq (S a) j) in H;
    rewrite download_loop_cons in H;
    destruct (try_attempt url dest n bf mb a s) as [[| |e] s1] eqn:Ht;
    apply try_attempt_net in Ht as (out & Ht).
  all: try (destruct Ht as (N1 & Hc); injection H as <- <-;
            exists [EvGet url out]; split; [exact N1 | by constructor]).
  all: try (destruct Ht as (u & _ & Hlt & _); lia).
  all: cbn zeta in H;
    pose proof (remove_if_exists_net (dest +:+ ".part") s1) as N2;
    set (s2 := remove_if_exists (dest +:+ ".part") s1) in *.
  all: try (destruct (n <=? a)%nat eqn:Hle;
    [apply Nat.leb_le in Hle; injection H as <- <-; exists [EvGet url out];
     split; [by rewrite N2 | by constructor]|]).
  - apply Nat.leb_gt in Hle. lia.
  - destruct Ht as (u & N1 & Hlt & Hacc).
    destruct (IH (S a) s1 s' r H ltac:(lia)) as (tr & N3 & T3).
    exists (EvGet url out :: EvSleep (delay a bf mb u) :: tr). split.
    + rewrite N3, N1, <- app_assoc. reflexivity.
    + by constructor.
  - apply Nat.leb_gt in Hle.
    destruct (backoff_sleep a bf mb s2) as [[[]|e'] s3] eqn:Hs;
      apply backoff_sleep_net in Hs as (u & [(? & Hacc & N3)|(? & Hacc & N3)]);
      simplify_eq.
    + destruct (IH (S a) s3 s' r H ltac:(lia)) as (tr & N4 & T4).
      exists (EvGet url out :: EvSleep (delay a bf mb u) :: tr). split.
      * rewrite N4, N3, N2, Ht, <- !app_assoc. reflexivity.
      * by constructor.
    + exists [EvGet url out]. split; [by rewrite N3, N2|]. by eapply dt_refused.
Qed.


(** With delays that cannot be negative, the loop raises only after the
    last attempt. *)
Lemma dl_trace_surface url n bf mb a tr e :
  dl_trace url n bf mb a tr (Raise e) ->
  (0 <= bf)%Q -> (0 <= mb)%Q -> (a <= n)%nat ->
  (a + n_gets tr = S n)%nat.
Proof.
  remember (Raise e) as r eqn:Hr. intros H Hbf Hmb.
  induction H as [a out0 d Hc|a out0 e0 Hle|a out0 u Hlt Href|a out0 u tl r Hlt Hacc Htl IH];
    intros Ha; simplify_eq.
  - simpl. lia.
  - unfold delay in Href.
    rewrite (Backoff.jittered_nonneg _ u
               (Backoff.exp_backoff_nonneg _ _ _ Hbf Hmb)) in Href.
    discriminate.
  - simpl. specialize (IH eq_refl Hlt). lia.
Qed.





(** *** Further properties of the download loop *)

Lemma backoff_sleep_fs a bf mb (s s' : State) r :
  backoff_sleep a bf mb s = (r, s') -> fs s' = fs s.
Proof.
  unfold backoff_sleep, time_sleep. destruct (random_random (world s)) as [u w].
  by destruct (Qle_bool 0 _); intros [= <- <-].
Qed.

(** An attempt that commits leaves no temporary file; one that does not
    leaves the destination as it was. *)
Lemma try_attempt_part url dest n bf mb a (s s' : State) r :
  try_attempt url dest n bf mb a s = (r, s') ->
  match r with
  | Committed => fs s' !! (dest +:+ ".part") = None
  | _ => fs s' !! dest = fs s !! dest
  end.
Proof.
  unfold try_attempt. set (tmp := dest +:+ ".part").
  destruct (requests_get url (world s)) as [out w].
  set (s1 := emit (EvGet url out) (with_world w s)).
  destruct out as [e|code hdrs chunks broken]; [by intros [= <- <-]|].
  destruct (retryable code && (a <? n)%nat).
  { destruct (backoff_sleep a bf mb s1) as [[[]|e] s2] eqn:Hs;
      apply backoff_sleep_fs in Hs; intros [= <- <-]; by rewrite Hs. }
  destruct ((400 <=? code) && (code <? 600)); [by intros [= <- <-]|].
  set (s1' := set_fs (<[tmp := []]> (fs s1)) s1).
  destruct (stream_chunks_spec tmp chunks s1' []) as (e2 & (_ & F2 & _) & C2 & _).
  { simpl. apply lookup_insert_eq. }
  set (s2 := stream_chunks tmp chunks s1') in *.
  assert (Hne : tmp <> dest) by apply part_ne.
  assert (Hdest : fs s2 !! dest = fs s !! dest).
  { rewrite F2 by done. simpl. by rewrite lookup_insert_ne. }
  destruct broken as [e|]; [by intros [= <- <-]|].
  rewrite C2. simpl app. rewrite parse_expected_size_no_response.
  unfold os_replace. rewrite C2.
  destruct (match _expected_size url with
            | Some exp => Z.of_nat (length (concat chunks)) =? exp
            | None => true
            end); intros [= <- <-]; [|exact Hdest].
  simpl. rewrite lookup_insert_ne by done. apply lookup_delete_eq.
Qed.

Lemma download_loop_part url dest n bf mb :
  forall k a (s s' : State) r,
    download_loop url dest n bf mb (seq a (S k)) s = (r, s') ->
    (a + S k = S n)%nat ->
    fs s' !! (dest +:+ ".part") = None /\
    (forall e, r = Raise e -> fs s' !! dest = fs s !! dest).
Proof.
  assert (Hne : dest <> dest +:+ ".part")
    by (intros H; symmetry in H; by apply part_ne in H).
  induction k as [|k IH]; intros a s s' r H Hk;
    change (seq a (S ?j)) with (a :: seq (S a) j) in H;
    rewrite download_loop_cons in H;
    destruct (try_attempt url dest n bf mb a s) as [[| |e] s1] eqn:Ht;
    pose proof (try_attempt_part _ _ _ _ _ _ _ _ _ Ht) as Hp; simpl in Hp.
  all: try (injection H as <- <-; split; [exact Hp | discriminate]).
  all: try (apply try_attempt_retry_lt in Ht; lia).
  all: cbn zeta in H;
    destruct (remove_if_exists_spec (dest +:+ ".part") s1)
      as (e2 & (_ & F2 & _) & N2 & _);
    set (s2 := remove_if_exists (dest +:+ ".part") s1) in *;
    assert (Hd2 : fs s2 !! dest = fs s !! dest) by (by rewrite F2).
  all: try (destruct (n <=? a)%nat eqn:Hle;
    [injection H as <- <-; split; [exact N2 | by intros]|]).
  - apply Nat.leb_gt in Hle. lia.
  - destruct (IH (S a) s1 s' r H ltac:(lia)) as [P3 D3].
    split; [exact P3|]. intros e He. by rewrite (D3 e He).
  - destruct (backoff_sleep a bf mb s2) as [[[]|e'] s3] eqn:Hs;
      apply backoff_sleep_fs in Hs.
    + destruct (IH (S a) s3 s' r H ltac:(lia)) as [P3 D3].
      split; [exact P3|]. intros e0 He. by rewrite (D3 e0 He), Hs.
    + injection H as <- <-. rewrite Hs. split; [exact N2 | by intros].
Qed.

(** X8 (no partial file is left behind). Whatever way a download with at
    least one attempt ends, no [.part] file remains next to the
    destination; and when it ends with an exception, the destination is
    what it was before the call. *)
Theorem download_leaves_no_part url dest n bf mb (s s' : State) r :
  (0 < n)%nat ->
  _download_with_retries url dest n bf mb s = (r, s') ->
  fs s' !! (dest +:+ ".part") = None /\
  (forall e, r = Raise e -> fs s' !! dest = fs s !! dest).
Proof.
  intros Hn H. unfold _download_with_retries in H.
  destruct n as [|k]; [lia|].
  apply (download_loop_part url dest (S k) bf mb k 1 s s' r H). lia.
Qed.

(** The delays of the sleeps of a log. *)
Fixpoint sleeps (evs : list event) : list Q :=
  match evs with
  | [] => []
  | EvSleep d :: rest => d :: sleeps rest
  | _ :: rest => sleeps rest
  end.

Lemma dl_trace_budget url n bf mb a tr r :
  dl_trace url n bf mb a tr r -> (a <= n)%nat ->
  (a + n_gets tr <= S n)%nat /\
  S (length (sleeps tr)) = n_gets tr /\
  Forall (fun d => (0 <= d)%Q /\ (d <= mb)%Q) (sleeps tr).
Proof.
  induction 1 as [a out0 d Hc|a out0 e Hle|a out0 u Hlt Href|a out0 u tl r Hlt Hacc Htl IH];
    intros Ha; simpl.
  - repeat split; [lia | constructor].
  - repeat split; [lia | constructor].
  - repeat split; [lia | constructor].
  - destruct (IH Hlt) as (H1 & H2 & H3). repeat split; [lia | lia |].
    constructor; [|exact H3]. apply Qle_bool_iff in Hacc. split; [exact Hacc|].
    unfold delay in *.
    apply Backoff.jittered_capped; [apply Backoff.exp_backoff_capped | exact Hacc].
Qed.

(** X9 (request and waiting budget of a download). A download sends at most
    [max_retries] GET requests, at least one when [max_retries] is
    positive, and the number of its sleeps is one less than the number of
    its requests; each sleep lasts at most [max_backoff], so that for a
    ceiling that is not negative the sleeps add up to at most
    [(max_retries - 1) * max_backoff]. *)
Theorem download_request_budget url dest n bf mb (s s' : State) r :
  _download_with_retries url dest n bf mb s = (r, s') ->
  exists tr,
    net (log s') = net (log s) ++ tr /\
    (n_gets tr <= n)%nat /\
    ((0 < n)%nat -> (1 <= n_gets tr)%nat) /\
    length (sleeps tr) = (n_gets tr - 1)%nat /\
    Forall (fun d => (0 <= d)%Q /\ (d <= mb)%Q) (sleeps tr) /\
    ((0 <= mb)%Q ->
     (Backoff.total (sleeps tr) <= inject_Z (Z.of_nat (n - 1)) * mb)%Q).
Proof.
  intros H. unfold _download_with_retries in H. destruct n as [|k].
  - injection H as <- <-. exists []. rewrite app_nil_r.
    split; [done|]. split; [simpl; lia|]. split; [lia|]. split; [done|].
    split; [constructor|]. intros Hmb.
    apply (Backoff.total_capped [] mb 0); [constructor | simpl; lia | exact Hmb].
  - destruct (download_loop_trace _ _ _ _ _ _ _ _ _ _ H ltac:(lia)) as (tr & Hnet & Ht).
    destruct (dl_trace_budget _ _ _ _ _ _ _ Ht ltac:(lia)) as (H1 & H2 & H3).
    exists tr. split; [exact Hnet|]. split; [lia|]. split; [lia|].
    split; [lia|]. split; [exact H3|].
    intros Hmb. apply Backoff.total_capped; [|lia | exact Hmb].
    eapply Forall_impl; [exact H3|]. by intros d [_ Hd].
Qed.

(** *** Further properties of tasks and of the pool *)

(** The exceptions the pool logged. *)
Fixpoint errors (evs : list event) : list exn :=
  match evs with
  | [] => []
  | EvLogError e :: rest => e :: errors rest
  | _ :: rest => errors rest
  end.

Lemma errors_app (a b : list event) : errors (a ++ b) = errors a ++ errors b.
Proof.
  induction a as [|e a IH]; [reflexivity|]. destruct e; simpl; by rewrite ?IH.
Qed.

(** From [s] to [s'] nothing was logged as an error. *)
Definition silent (s s' : State) : Prop := errors (log s') = errors (log s).

Lemma silent_refl (s : State) : silent s s.
Proof. reflexivity. Qed.

Lemma silent_trans (s1 s2 s3 : State) : silent s1 s2 -> silent s2 s3 -> silent s1 s3.
Proof. unfold silent. congruence. Qed.

Lemma silent_emit (e : event) (s : State) :
  (forall x, e <> EvLogError x) -> silent s (emit e s).
Proof.
  intros He. unfold silent. simpl. rewrite errors_app.
  destruct e; simpl; rewrite ?app_nil_r; try done. by destruct (He e).
Qed.

Lemma silent_set_fs f (s : State) : silent s (set_fs f s).
Proof. unfold silent. simpl. rewrite errors_app. simpl. by rewrite app_nil_r. Qed.

Lemma silent_with_world w (s : State) : silent s (with_world w s).
Proof. reflexivity. Qed.

Lemma backoff_sleep_silent a bf mb (s s' : State) r :
  backoff_sleep a bf mb s = (r, s') -> silent s s'.
Proof.
  unfold backoff_sleep, time_sleep. destruct (random_random (world s)) as [u w].
  destruct (Qle_bool 0 _); intros [= <- <-]; [|reflexivity].
  apply (silent_trans _ (with_world w s)); [reflexivity | by apply silent_emit].
Qed.

Lemma stream_chunks_silent tmp chunks :
  forall s : State, silent s (stream_chunks tmp chunks s).
Proof.
  induction chunks as [|c rest IH]; intros s; [reflexivity|].
  destruct c; simpl; [apply IH|].
  eapply silent_trans; [apply silent_set_fs | apply IH].
Qed.

Lemma remove_if_exists_silent path (s : State) : silent s (remove_if_exists path s).
Proof.
  unfold remove_if_exists. destruct (fs s !! path); [apply silent_set_fs | reflexivity].
Qed.

Lemma try_attempt_silent url dest n bf mb a (s s' : State) r :
  try_attempt url dest n bf mb a s = (r, s') -> silent s s'.
Proof.
  unfold try_attempt. destruct (requests_get url (world s)) as [out w].
  set (s1 := emit (EvGet url out) (with_world w s)).
  assert (S1 : silent s s1).
  { apply (silent_trans _ (with_world w s)); [reflexivity | by apply silent_emit]. }
  destruct out as [e|code hdrs chunks broken]; [by intros [= <- <-]|].
  destruct (retryable code && (a <? n)%nat).
  { destruct (backoff_sleep a bf mb s1) as [[[]|e] s2] eqn:Hs;
      apply backoff_sleep_silent in Hs; intros [= <- <-];
      by apply (silent_trans _ s1). }
  destruct ((400 <=? code) && (code <? 600)); [by intros [= <- <-]|].
  set (s2 := stream_chunks _ _ _).
  assert (S2 : silent s s2).
  { apply (silent_trans _ s1); [exact S1|].
    eapply silent_trans; [apply silent_set_fs | apply stream_chunks_silent]. }
  destruct broken as [e|]; [by intros [= <- <-]|].
  destruct (fs s2 !! (dest +:+ ".part")) as [data|]; [|by intros [= <- <-]].
  assert (Hcommit :
    match os_replace (dest +:+ ".part") dest (fs s2) with
    | Ok f => (Committed, set_fs f s2)
    | Raise e => (Failed e, s2)
    end = (r, s') -> silent s s').
  { destruct (os_replace _ _ _); intros [= <- <-]; [|done].
    eapply silent_trans; [exact S2 | apply silent_set_fs]. }
  destruct (_parse_expected_size url None) as [exp|]; [|exact Hcommit].
  destruct (Z.of_nat (length data) =? exp); [exact Hcommit|].
  by intros [= <- <-].
Qed.

Lemma download_loop_silent url dest n bf mb attempts :
  forall (s s' : State) r,
    download_loop url dest n bf mb attempts s = (r, s') -> silent s s'.
Proof.
  induction attempts as [|a rest IH]; intros s s' r H.
  - by injection H as <- <-.
  - rewrite download_loop_cons in H.
    destruct (try_attempt url dest n bf mb a s) as [[| |e] s1] eqn:Ht;
      apply try_attempt_silent in Ht.
    + by injection H as <- <-.
    + apply IH in H. by eapply silent_trans.
    + cbn zeta in H.
      pose proof (remove_if_exists_silent (dest +:+ ".part") s1) as S2.
      set (s2 := remove_if_exists (dest +:+ ".part") s1) in *.
      pose proof (silent_trans _ _ _ Ht S2) as S12.
      destruct (n <=? a)%nat; [by injection H as <- <-|].
      destruct (backoff_sleep a bf mb s2) as [[[]|e'] s3] eqn:Hs;
        apply backoff_sleep_silent in Hs.
      * apply IH in H. eapply silent_trans; [|exact H]. by eapply silent_trans.
      * injection H as <- <-. by eapply silent_trans.
Qed.

Lemma extract_members_silent dir members :
  forall s : State, silent s (extract_members dir members s).
Proof.
  induction members as [|[name data] rest IH]; intros s; [reflexivity|].
  cbn [extract_members]. eapply silent_trans; [apply silent_set_fs | apply IH].
Qed.

(** Whether [_maybe_unzip] removed the archive: only after an expansion
    that went through, and only when the archive is not to be kept. *)
Definition removes (r : result (option string)) (keep_zip : bool) : bool :=
  match r with
  | Ok (Some _) => negb keep_zip
  | _ => false
  end.

(** What [_maybe_unzip] may change: the members under the extraction
    directory and, when it removes it, the archive. *)
Lemma maybe_unzip_frame (file_path out_dir : string) keep_zip (s s' : State) r :
  _maybe_unzip file_path out_dir keep_zip s = (r, s') ->
  silent s s' /\
  exists evs,
    preserves
      (fun p =>
         (removes r keep_zip = true -> p <> file_path) /\
         forall member,
           p <> join out_dir (splitext_root (basename file_path))
                  +:+ "/" +:+ member)
      s s' evs.
Proof.
  unfold _maybe_unzip.
  destruct (negb _).
  { intros [= <- <-]. split; [reflexivity|]. exists []. apply preserves_refl. }
  set (dir := join out_dir (splitext_root (basename file_path))).
  destruct (fs s !! dir).
  { intros [= <- <-]. split; [reflexivity|]. exists []. apply preserves_refl. }
  destruct (fs s !! file_path) as [data|] eqn:Hfile.
  2:{ intros [= <- <-]. split; [reflexivity|]. exists []. apply preserves_refl. }
  destruct (zip_read data) as [members finished].
  destruct (extract_members_spec dir members s) as (e1 & P1 & _).
  pose proof (extract_members_silent dir members s) as S1.
  set (s1 := extract_members dir members s) in *.
  destruct finished; [destruct keep_zip|]; intros [= <- <-].
  - split; [exact S1|]. exists e1.
    eapply preserves_weaken; [|exact P1]. by intros p [_ Hp].
  - split; [eapply silent_trans; [exact S1 | apply remove_if_exists_silent]|].
    destruct (remove_if_exists_spec file_path s1) as (e2 & P2 & _).
    exists (e1 ++ e2). eapply preserves_trans.
    + eapply preserves_weaken; [|exact P1]. by intros p [_ Hp].
    + eapply preserves_weaken; [|exact P2]. intros p [Hp _]. by apply Hp.
  - split; [exact S1|]. exists e1.
    eapply preserves_weaken; [|exact P1]. by intros p [_ Hp].
Qed.

Lemma maybe_unzip_outcome (file_path out_dir : string) keep_zip
    (s s' : State) r :
  _maybe_unzip file_path out_dir keep_zip s = (r, s') ->
  (forall member,
      file_path <>
      join out_dir (splitext_root (basename file_path)) +:+ "/" +:+ member) ->
  match r with
  | Ok None => ends_with ".zip" (lower file_path) = false /\ s' = s
  | Ok (Some d) =>
      ends_with ".zip" (lower file_path) = true /\
      d = join out_dir (splitext_root (basename file_path)) /\
      fs s !! file_path <> None /\
      fs s' !! file_path = if keep_zip then fs s !! file_path else None
  | Raise _ => fs s' !! file_path = fs s !! file_path
  end.
Proof.
  intros H Hne.
  destruct (maybe_unzip_frame _ _ _ _ _ _ H) as (_ & evs & _ & F & _).
  unfold _maybe_unzip in H.
  destruct (ends_with ".zip" (lower file_path)) eqn:Hzip; simpl in H.
  2:{ by injection H as <- <-. }
  set (dir := join out_dir (splitext_root (basename file_path))) in *.
  destruct (fs s !! dir); [by injection H as <- <-|].
  destruct (fs s !! file_path) as [data|] eqn:Hfile; [|by injection H as <- <-].
  destruct (zip_read data) as [members finished].
  destruct finished; [destruct keep_zip|]; injection H as <- <-.
  - repeat split; [done|]. rewrite <- Hfile. apply F. split; [discriminate | exact Hne].
  - repeat split; [done|].
    by destruct (remove_if_exists_spec file_path (extract_members dir members s))
      as (_ & _ & N & _).
  - rewrite <- Hfile. apply F. split; [discriminate | exact Hne].
Qed.

(** X10 (what archive expansion does to the archive). On a path that does
    not end in [.zip], whatever the case of the letters, [_maybe_unzip]
    returns [None] and changes nothing, and it returns [None] on such paths
    only. On a path that ends in [.zip], with no file where the extraction
    directory goes and an archive that reads to its end, it returns that
    directory: the archive's name without its extension under [out_dir]; an
    archive that breaks off gives [BadZipFile]. For an archive that does not
    lie under its own extraction directory, the archive is removed exactly
    when the expansion went through and [keep_zip] is false; an expansion
    that raises never removes it. *)
Theorem maybe_unzip_archive_fate (file_path out_dir : string) keep_zip
    (s : State) :
  (ends_with ".zip" (lower file_path) = false ->
   _maybe_unzip file_path out_dir keep_zip s = (Ok None, s)) /\
  (forall data,
      ends_with ".zip" (lower file_path) = true ->
      fs s !! join out_dir (splitext_root (basename file_path)) = None ->
      fs s !! file_path = Some data ->
      fst (_maybe_unzip file_path out_dir keep_zip s) =
      if snd (zip_read data)
      then Ok (Some (join out_dir (splitext_root (basename file_path))))
      else Raise BadZipFile) /\
  (forall s' r,
      _maybe_unzip file_path out_dir keep_zip s = (r, s') ->
      (forall member,
          file_path <>
          join out_dir (splitext_root (basename file_path)) +:+ "/" +:+ member) ->
      match r with
      | Ok None => ends_with ".zip" (lower file_path) = false /\ s' = s
      | Ok (Some d) =>
          ends_with ".zip" (lower file_path) = true /\
          d = join out_dir (splitext_root (basename file_path)) /\
          fs s !! file_path <> None /\
          fs s' !! file_path = if keep_zip then fs s !! file_path else None
      | Raise _ => fs s' !! file_path = fs s !! file_path
      end).
Proof.
  split; [|split].
  - intros Hzip. unfold _maybe_unzip. by rewrite Hzip.
  - intros data Hzip Hdir Hfile. unfold _maybe_unzip.
    rewrite Hzip, Hdir, Hfile. simpl.
    destruct (zip_read data) as [members finished]. simpl.
    by destruct finished, keep_zip.
  - intros s' r. apply maybe_unzip_outcome.
Qed.

Lemma finish_job_frame aid (fin_path completed_dir : string) unzip keep_zip
    (s s' : State) r :
  finish_job aid fin_path completed_dir unzip keep_zip s = (r, s') ->
  silent s s' /\
  (forall res, r = Ok res ->
     r_dest res = fin_path /\ r_archiveId res = aid /\
     (r_extracted_dir res <> None ->
      unzip = true /\ ends_with ".zip" (lower fin_path) = true)) /\
  exists evs,
    preserves
      (fun p =>
         (unzip && negb keep_zip = true -> p <> fin_path) /\
         forall member,
           p <> join completed_dir (splitext_root (basename fin_path))
                  +:+ "/" +:+ member)
      s s' evs.
Proof.
  unfold finish_job. destruct (unzip && ends_with ".zip" (lower fin_path)) eqn:Hgo.
  - apply andb_prop in Hgo as [-> Hzip].
    destruct (_maybe_unzip fin_path completed_dir keep_zip s) as [[d|e] s1] eqn:Hu;
      apply maybe_unzip_frame in Hu as (S1 & evs & P1); intros [= <- <-];
      (split; [exact S1|]); split.
    + by intros res [= <-].
    + exists evs. eapply preserves_weaken; [|exact P1].
      intros p [Hp Hm]. split; [|exact Hm]. intros Hr. apply Hp.
      simpl. simpl in Hr. by destruct d, keep_zip.
    + discriminate.
    + exists evs. eapply preserves_weaken; [|exact P1].
      intros p [Hp Hm]. split; [discriminate | exact Hm].
  - intros [= <- <-]. split; [reflexivity|]. split.
    + intros res [= <-]. simpl. by repeat split.
    + exists []. apply preserves_refl.
Qed.

(** The paths a task may write: its in-progress file and the [.part]
    sibling of it, its completed file, and what lies under the extraction
    directory of that file. *)
Definition task_paths (out_dir url p : string) : Prop :=
  p = join (join out_dir "in_progress") (filename_of url) +:+ ".part" \/
  p = join (join out_dir "in_progress") (filename_of url) \/
  p = join (join out_dir "completed") (filename_of url) \/
  exists member,
    p = join (join out_dir "completed")
          (splitext_root
             (basename (join (join out_dir "completed") (filename_of url))))
        +:+ "/" +:+ member.

Lemma job_frame_silent out_dir unzip keep_zip url aid (s s' : State) r :
  job out_dir unzip keep_zip url aid s = (r, s') ->
  silent s s' /\
  (exists evs, preserves (fun p => ~ task_paths out_dir url p) s s' evs) /\
  (forall res, r = Ok res ->
     r_dest res = join (join out_dir "completed") (filename_of url) /\
     r_archiveId res = aid /\
     (r_extracted_dir res <> None ->
      unzip = true /\ ends_with ".zip" (lower (r_dest res)) = true) /\
     (unzip && negb keep_zip = false ->
      exists body, fs s' !! r_dest res = Some body)).
Proof.
  unfold job.
  pose proof (filename_no_slash url) as Hn.
  set (name := filename_of url) in *.
  set (cdir := join out_dir "completed").
  set (fin := join cdir name).
  set (tmp := join (join out_dir "in_progress") name).
  set (keep := fun p => ~ task_paths out_dir url p).
  assert (Hne3 : forall member,
             fin <> join cdir (splitext_root (basename fin)) +:+ "/" +:+ member)
    by (intros member; by apply completed_ne_extracted).
  assert (Hfin : forall s0 s1 r0,
            finish_job aid fin cdir unzip keep_zip s0 = (r0, s1) ->
            silent s0 s1 /\
            (exists evs, preserves keep s0 s1 evs) /\
            (forall res, r0 = Ok res ->
               r_dest res = fin /\ r_archiveId res = aid /\
               (r_extracted_dir res <> None ->
                unzip = true /\ ends_with ".zip" (lower (r_dest res)) = true) /\
               (unzip && negb keep_zip = false ->
                fs s1 !! r_dest res = fs s0 !! fin))).
  { intros s0 s1 r0 Hf.
    apply finish_job_frame in Hf as (S0 & R0 & evs & P0). split; [exact S0|].
    split.
    - exists evs. eapply preserves_weaken; [|exact P0].
      intros p Hp. split.
      + intros _ ->. apply Hp. right. right. by left.
      + intros member ->. apply Hp. right. right. right. by exists member.
    - intros res Hres. destruct (R0 res Hres) as (Hd & Ha & He).
      rewrite Hd. split; [done|]. split; [done|]. split; [exact He|].
      intros Hk. destruct P0 as (_ & F0 & _). apply F0.
      split; [by rewrite Hk | exact Hne3]. }
  set (skipped := if already_complete url fin s then _ else _).
  assert (Hskip :
    silent s (snd skipped) /\
    (exists evs, preserves keep s (snd skipped) evs) /\
    (forall res, fst skipped = Some res ->
       r_dest res = fin /\ r_archiveId res = aid /\
       (r_extracted_dir res <> None ->
        unzip = true /\ ends_with ".zip" (lower (r_dest res)) = true) /\
       (unzip && negb keep_zip = false ->
        exists body, fs (snd skipped) !! r_dest res = Some body))).
  { unfold skipped. destruct (already_complete url fin s) eqn:Hc.
    - destruct (finish_job aid fin cdir unzip keep_zip s) as [[r0|e] s1] eqn:Hf;
        apply Hfin in Hf as (S0 & P0 & R0); (split; [exact S0|]);
        (split; [exact P0|]); [|discriminate].
      intros res [= <-]. destruct (R0 r0 eq_refl) as (Hd & Ha & He & Hk).
      split; [done|]. split; [done|]. split; [exact He|].
      intros Hkeep. cbn [snd]. rewrite (Hk Hkeep).
      unfold already_complete in Hc.
      destruct (_expected_size url); [|discriminate].
      destruct (fs s !! fin) as [data|]; [by exists data | discriminate].
    - split; [reflexivity|]. split; [exists []; apply preserves_refl | discriminate]. }
  destruct Hskip as (S0 & (e0 & P0) & R0).
  destruct skipped as [[r0|] s1]; simpl in S0, P0, R0.
  { intros [= <- <-]. split; [exact S0|]. split; [by exists e0|].
    intros res [= <-]. by apply R0. }
  destruct (_download_with_retries url tmp 5 1%Q 20%Q s1) as [[d|e] s2] eqn:Hd;
    unfold _download_with_retries in Hd;
    pose proof (download_loop_silent _ _ _ _ _ _ _ _ _ Hd) as S1;
    apply (download_loop_spec url tmp 5 1%Q 20%Q 4 1) in Hd as (e1 & P1 & C1);
    try reflexivity;
    assert (P1' : preserves keep s1 s2 e1)
      by (eapply preserves_weaken; [|exact P1];
          intros p Hp; split; intros ->; apply Hp;
          [by left | right; by left]).
  2:{ intros [= <- <-]. split; [by eapply silent_trans|]. split; [|discriminate].
      exists (e0 ++ e1). by eapply preserves_trans. }
  destruct (C1 d eq_refl) as (-> & body & Hb & Hbody).
  rewrite (os_replace_some _ _ _ _ Hbody).
  set (g := <[fin := body]> (delete tmp (fs s2))).
  intros Hf. apply Hfin in Hf as (S3 & (e3 & P3) & R3).
  split; [|split].
  - eapply silent_trans; [exact S0|]. eapply silent_trans; [exact S1|].
    eapply silent_trans; [apply silent_set_fs | exact S3].
  - exists (e0 ++ e1 ++ [EvFs g] ++ e3).
    eapply preserves_trans; [exact P0|]. eapply preserves_trans; [exact P1'|].
    eapply preserves_trans; [|exact P3]. apply preserves_set_fs.
    intros p Hp. unfold g. rewrite lookup_insert_ne, lookup_delete_ne; [done| |].
    + intros <-. apply Hp. right. by left.
    + intros <-. apply Hp. right. right. by left.
  - intros res Hres. destruct (R3 res Hres) as (Hd & Ha & He & Hk).
    split; [done|]. split; [done|]. split; [exact He|].
    intros Hkeep. rewrite (Hk Hkeep). exists body.
    simpl. unfold g. apply lookup_insert_eq.
Qed.

(** X11 (a task writes only its own paths). While a download task runs and
    after it, every file other than the task's in-progress file, the
    [.part] sibling of that file, its completed file and the files under its
    extraction directory is what it was before the task. *)
Theorem job_frame out_dir unzip keep_zip url aid (s s' : State) r :
  job out_dir unzip keep_zip url aid s = (r, s') ->
  exists evs, preserves (fun p => ~ task_paths out_dir url p) s s' evs.
Proof.
  intros H. by destruct (job_frame_silent _ _ _ _ _ _ _ _ H) as (_ & P & _).
Qed.

(** X12 (where the result of a task points). A task that returns reports
    the archive id it was given and a destination that is the file name of
    the url (or [download.bin]), without any separator, directly under
    [completed]; that file exists when the task returns, unless expansion
    was asked for together with removal of the archive; and an extraction
    directory is reported only for an expanded [.zip]. *)
Theorem job_result_in_completed out_dir unzip keep_zip url aid
    (s s' : State) res :
  job out_dir unzip keep_zip url aid s = (Ok res, s') ->
  r_archiveId res = aid /\
  r_dest res =
    dir_prefix out_dir +:+ "completed" +:+ "/" +:+ filename_of url /\
  count_slash (filename_of url) = 0%nat /\
  filename_of url <> EmptyString /\
  (unzip && negb keep_zip = false ->
   exists body, fs s' !! r_dest res = Some body) /\
  (r_extracted_dir res <> None ->
   unzip = true /\ ends_with ".zip" (lower (r_dest res)) = true).
Proof.
  intros H. destruct (job_frame_silent _ _ _ _ _ _ _ _ H) as (_ & _ & R).
  destruct (R res eq_refl) as (Hd & Ha & He & Hk).
  split; [exact Ha|]. split.
  { rewrite Hd. apply completed_path, filename_no_slash. }
  split; [apply filename_no_slash|]. split; [|by split].
  unfold filename_of. destruct (str_truthy (basename (url_path url))) eqn:Ht;
    [|discriminate]. intros Heq. by rewrite Heq in Ht.
Qed.

Lemma run_task_spec out_dir unzip keep_zip task (s s' : State) r :
  run_task out_dir unzip keep_zip task s = (r, s') ->
  silent s s' /\
  forall res, r = Ok res ->
    exists url,
      fst task = JStr url /\ r_archiveId res = snd task /\
      r_dest res = join (join out_dir "completed") (filename_of url).
Proof.
  unfold run_task. destruct task as [u aid]. simpl.
  destruct u; try (intros [= <- <-]; split; [reflexivity | discriminate]).
  intros H. destruct (job_frame_silent _ _ _ _ _ _ _ _ H) as (S & _ & R).
  split; [exact S|]. intros res Hres. exists s0.
  destruct (R res Hres) as (Hd & Ha & _). done.
Qed.

Lemma run_tasks_spec out_dir unzip keep_zip tasks :
  forall (s s' : State) rs,
    run_tasks out_dir unzip keep_zip tasks s = (rs, s') ->
    (length rs + length (errors (log s')) =
     length tasks + length (errors (log s)))%nat /\
    Forall (fun res =>
              exists url aid,
                (JStr url, aid) ∈ tasks /\ r_archiveId res = aid /\
                r_dest res = join (join out_dir "completed") (filename_of url))
      rs.
Proof.
  induction tasks as [|task rest IH]; intros s s' rs H; simpl in H.
  - injection H as <- <-. split; [reflexivity | constructor].
  - destruct (run_task out_dir unzip keep_zip task s) as [[res|e] s1] eqn:Ht;
      apply run_task_spec in Ht as [S1 R1].
    + destruct (run_tasks out_dir unzip keep_zip rest s1) as [rs1 s2] eqn:Hr.
      injection H as <- <-. apply IH in Hr as [L2 F2]. split.
      * simpl. unfold silent in S1. rewrite <- S1. lia.
      * constructor.
        -- destruct (R1 res eq_refl) as (url & Hu & Ha & Hd).
           exists url, (snd task). split; [|done]. rewrite <- Hu.
           destruct task. apply list_elem_of_here.
        -- eapply Forall_impl; [exact F2|]. intros r0 (url & aid & Hin & Hr0).
           exists url, aid. split; [by apply list_elem_of_further | done].
    + apply IH in H as [L2 F2]. split.
      * simpl in L2. rewrite errors_app in L2. simpl in L2.
        rewrite List.length_app in L2. simpl in L2. unfold silent in S1.
        rewrite S1 in L2. simpl. lia.
      * eapply Forall_impl; [exact F2|]. intros r0 (url & aid & Hin & Hr0).
        exists url, aid. split; [by apply list_elem_of_further | done].
Qed.

Lemma archive_id_truthy (it : list (string * json)) :
  json_truthy (archive_id_of it) = true.
Proof.
  unfold archive_id_of.
  destruct (json_truthy (jget "archiveId" it)) eqn:H1; [exact H1|].
  destruct (json_truthy (jget "datasetId" it)) eqn:H2; [exact H2|].
  destruct (json_truthy (jget "serviceUuid" it)) eqn:H3; [exact H3 | reflexivity].
Qed.

Lemma task_of_spec (ready : list (list (string * json))) (task : json * json) :
  task ∈ omap task_of ready ->
  exists it,
    it ∈ ready /\ fst task = jget "download_url" it /\
    snd task = archive_id_of it /\ json_truthy (jget "download_url" it) = true.
Proof.
  intros H. apply list_elem_of_omap in H as (it & Hin & Ht).
  exists it. split; [exact Hin|]. unfold task_of in Ht.
  destruct (json_truthy (jget "download_url" it)) eqn:Hu; [|discriminate].
  by injection Ht as <-.
Qed.

(** X13 (accounting of [download_items]). When [download_items] returns,
    every task, that is every ready item with a truthy [download_url], is
    either in the results or was logged as failed: a failing task neither
    stops the others nor raises. Each result stems from a ready item whose
    [download_url] is a string, carries an archive id that is never empty
    (the item's [archiveId], [datasetId] or [serviceUuid], else ["unknown"])
    and points to the file name of the url under [completed]. Without any
    task the call returns the empty list and touches neither the network
    nor a file. *)
Theorem download_items_accounting ready out_dir unzip keep_zip
    (s s' : State) rs :
  download_items ready out_dir unzip keep_zip s = (Ok rs, s') ->
  (length rs + length (errors (log s')) =
   length (omap task_of ready) + length (errors (log s)))%nat /\
  Forall (fun res =>
            exists it url,
              it ∈ ready /\ jget "download_url" it = JStr url /\
              r_archiveId res = archive_id_of it /\
              json_truthy (r_archiveId res) = true /\
              r_dest res = join (join out_dir "completed") (filename_of url))
    rs /\
  (omap task_of ready = [] ->
   rs = [] /\ fs s' = fs s /\ net (log s') = net (log s)).
Proof.
  unfold download_items. destruct (omap task_of ready) as [|t ts] eqn:Htasks.
  { intros [= <- <-]. split; [|split; [constructor|]].
    - simpl. rewrite errors_app. simpl. by rewrite app_nil_r.
    - intros _. simpl. rewrite net_app. simpl. by rewrite app_nil_r. }
  destruct (makedirs (join out_dir "in_progress") s); [|discriminate].
  destruct (makedirs (join out_dir "completed") s); [|discriminate].
  destruct (run_tasks out_dir unzip keep_zip (t :: ts) s) as [rs1 s1] eqn:Hr.
  intros [= <- <-]. apply run_tasks_spec in Hr as [L F].
  split; [exact L|]. split; [|discriminate].
  eapply Forall_impl; [exact F|]. intros res (url & aid & Hin & Ha & Hd).
  rewrite <- Htasks in Hin. apply task_of_spec in Hin as (it & Hit & Hu & Hid & _).
  simpl in Hu, Hid. exists it, url. split; [exact Hit|]. split; [done|].
  rewrite Ha, Hid. split; [done|]. split; [apply archive_id_truthy | exact Hd].
Qed.

(** From [s] to [s'] at most [k] GET requests were sent. *)
Definition gets (k : nat) (s s' : State) : Prop :=
  exists tr, net (log s') = net (log s) ++ tr /\ (n_gets tr <= k)%nat.

Lemma n_gets_app (a b : list event) : n_gets (a ++ b) = (n_gets a + n_gets b)%nat.
Proof.
  induction a as [|e a IH]; [reflexivity|]. destruct e; simpl; lia.
Qed.

Lemma gets_same (s s' : State) : net (log s') = net (log s) -> gets 0 s s'.
Proof. intros H. exists []. rewrite app_nil_r. by split. Qed.

Lemma gets_trans a b (s1 s2 s3 : State) :
  gets a s1 s2 -> gets b s2 s3 -> gets (a + b) s1 s3.
Proof.
  intros (t1 & N1 & L1) (t2 & N2 & L2). exists (t1 ++ t2). split.
  - by rewrite N2, N1, app_assoc.
  - rewrite n_gets_app. lia.
Qed.

Lemma gets_weaken a b (s s' : State) : (a <= b)%nat -> gets a s s' -> gets b s s'.
Proof. intros Hab (tr & N & L). exists tr. split; [exact N | lia]. Qed.

Lemma extract_members_net dir members :
  forall s : State, net (log (extract_members dir members s)) = net (log s).
Proof.
  induction members as [|[name data] rest IH]; intros s; [reflexivity|].
  cbn [extract_members]. rewrite IH. apply net_set_fs.
Qed.

Lemma maybe_unzip_net (file_path out_dir : string) keep_zip (s s' : State) r :
  _maybe_unzip file_path out_dir keep_zip s = (r, s') ->
  net (log s') = net (log s).
Proof.
  unfold _maybe_unzip. destruct (negb _); [by intros [= <- <-]|].
  destruct (fs s !! join out_dir _); [by intros [= <- <-]|].
  destruct (fs s !! file_path) as [data|]; [|by intros [= <- <-]].
  destruct (zip_read data) as [members finished].
  destruct finished; [destruct keep_zip|]; intros [= <- <-];
    rewrite ?remove_if_exists_net; apply extract_members_net.
Qed.

Lemma finish_job_net aid fin_path completed_dir unzip keep_zip (s s' : State) r :
  finish_job aid fin_path completed_dir unzip keep_zip s = (r, s') ->
  net (log s') = net (log s).
Proof.
  unfold finish_job. destruct (unzip && _); [|by intros [= <- <-]].
  destruct (_maybe_unzip fin_path completed_dir keep_zip s) as [[d|e] s1] eqn:Hu;
    apply maybe_unzip_net in Hu; by intros [= <- <-].
Qed.

Lemma download_gets url dest n bf mb (s s' : State) r :
  _download_with_retries url dest n bf mb s = (r, s') -> gets n s s'.
Proof.
  intros H. unfold _download_with_retries in H. destruct n as [|k].
  - injection H as <- <-. by apply gets_same.
  - destruct (download_loop_trace _ _ _ _ _ _ _ _ _ _ H ltac:(lia)) as (tr & Hnet & Ht).
    destruct (dl_trace_budget _ _ _ _ _ _ _ Ht ltac:(lia)) as (H1 & _).
    exists tr. split; [exact Hnet | lia].
Qed.

Lemma job_gets out_dir unzip keep_zip url aid (s s' : State) r :
  job out_dir unzip keep_zip url aid s = (r, s') -> gets 5 s s'.
Proof.
  unfold job.
  set (fin := join (join out_dir "completed") (filename_of url)).
  set (tmp := join (join out_dir "in_progress") (filename_of url)).
  set (skipped := if already_complete url fin s then _ else _).
  assert (Hskip : gets 0 s (snd skipped)).
  { unfold skipped. destruct (already_complete url fin s); [|by apply gets_same].
    destruct (finish_job aid fin _ unzip keep_zip s) as [[r0|e] s1] eqn:Hf;
      apply finish_job_net in Hf; by apply gets_same. }
  destruct skipped as [[r0|] s1]; simpl in Hskip.
  { intros [= <- <-]. eapply gets_weaken; [|exact Hskip]. lia. }
  destruct (_download_with_retries url tmp 5 1%Q 20%Q s1) as [[d|e] s2] eqn:Hd;
    apply download_gets in Hd;
    pose proof (gets_trans _ _ _ _ _ Hskip Hd) as H2; simpl in H2.
  2:{ by intros [= <- <-]. }
  destruct (os_replace d fin (fs s2)) as [f|e]; [|by intros [= <- <-]].
  intros Hf. apply finish_job_net in Hf.
  replace 5%nat with (5 + 0)%nat by lia. eapply gets_trans; [exact H2|].
  apply gets_same. rewrite Hf. apply net_set_fs.
Qed.

Lemma run_task_gets out_dir unzip keep_zip task (s s' : State) r :
  run_task out_dir unzip keep_zip task s = (r, s') -> gets 5 s s'.
Proof.
  unfold run_task.
  destruct (fst task);
    try (intros [= <- <-]; apply (gets_weaken 0); [lia | by apply gets_same]).
  apply job_gets.
Qed.

Lemma run_tasks_gets out_dir unzip keep_zip tasks :
  forall (s s' : State) rs,
    run_tasks out_dir unzip keep_zip tasks s = (rs, s') ->
    gets (5 * length tasks) s s'.
Proof.
  induction tasks as [|task rest IH]; intros s s' rs H; simpl in H.
  - injection H as <- <-. by apply gets_same.
  - destruct (run_task out_dir unzip keep_zip task s) as [[res|e] s1] eqn:Ht;
      apply run_task_gets in Ht.
    + destruct (run_tasks out_dir unzip keep_zip rest s1) as [rs1 s2] eqn:Hr.
      injection H as <- <-. apply IH in Hr.
      eapply gets_weaken; [|eapply gets_trans; [exact Ht | exact Hr]].
      simpl. lia.
    + apply IH in H.
      assert (He : gets 0 s1 (emit (EvLogError e) s1)).
      { apply gets_same. simpl. rewrite net_app. simpl. by rewrite app_nil_r. }
      eapply gets_weaken;
        [|eapply gets_trans; [exact Ht | eapply gets_trans; [exact He | exact H]]].
      simpl. lia.
Qed.

(** X24 (request budget of [download_items]). Whether its tasks succeed or
    fail, [download_items] sends at most five GET requests per task, a task
    being a ready item with a truthy [download_url]; items without one cost
    no request. *)
Theorem download_items_request_budget ready out_dir unzip keep_zip (s : State) :
  exists tr,
    net (log (snd (download_items ready out_dir unzip keep_zip s))) =
      net (log s) ++ tr /\
    (n_gets tr <= 5 * length (omap task_of ready))%nat.
Proof.
  unfold download_items. destruct (omap task_of ready) as [|t ts] eqn:Htasks.
  { exists []. simpl. rewrite net_app. simpl. split; [done | lia]. }
  destruct (makedirs (join out_dir "in_progress") s);
    [|exists []; rewrite app_nil_r; split; [done | simpl; lia]].
  destruct (makedirs (join out_dir "completed") s);
    [|exists []; rewrite app_nil_r; split; [done | simpl; lia]].
  destruct (run_tasks out_dir unzip keep_zip (t :: ts) s) as [rs1 s1] eqn:Hr.
  apply run_tasks_gets in Hr. exact Hr.
Qed.

(** base.py, [_safe_filename]. [os.makedirs] refuses the empty path. *)
Definition _safe_filename (url out_dir : string) (s : State) : result string :=
  if negb (str_truthy out_dir) then Raise FileNotFoundError
  else
    match makedirs out_dir s with
    | Raise e => Raise e
    | Ok _ => Ok (join out_dir (filename_of url))
    end.

Lemma basename_id (p : string) : count_slash p = 0%nat -> basename p = p.
Proof.
  induction p as [|c p IH]; [reflexivity|]. simpl.
  destruct (is_slash c) eqn:Hc; [simpl; lia|]. simpl. intros Hp.
  rewrite Hp. reflexivity.
Qed.

Lemma ends_with_slash_split (d : string) :
  ends_with_slash d = true -> exists d', d = d' +:+ "/".
Proof.
  induction d as [|c d IH]; [discriminate|]. simpl.
  destruct d as [|c' d].
  - unfold is_slash. intros H. apply Ascii.eqb_eq in H as ->. by exists EmptyString.
  - intros H. destruct (IH H) as [d' Hd']. exists (String c d').
    rewrite app_cons. by rewrite <- Hd'.
Qed.

Lemma basename_dir_prefix (d name : string) :
  count_slash name = 0%nat -> basename (dir_prefix d +:+ name) = name.
Proof.
  intros Hn. unfold dir_prefix. destruct d as [|c d].
  - simpl. by apply basename_id.
  - cbn [str_truthy negb orb].
    destruct (ends_with_slash (String c d)) eqn:He.
    + apply ends_with_slash_split in He as [d' ->].
      rewrite app_assoc_str. by apply basename_app_slash.
    + rewrite app_assoc_str. by apply basename_app_slash.
Qed.

(** X14 ([_safe_filename] names a direct child of [out_dir]). The path it
    returns is [out_dir], a separator unless [out_dir] ends with one, and
    the last component of the url's path, or [download.bin] when that
    component is empty: the name is never empty, holds no separator, and is
    what [os.path.basename] gives back from the path. *)
Theorem safe_filename_direct_child (url out_dir : string) (s : State) p :
  _safe_filename url out_dir s = Ok p ->
  p = dir_prefix out_dir +:+ filename_of url /\
  basename p = filename_of url /\
  filename_of url <> EmptyString /\
  count_slash (filename_of url) = 0%nat /\
  out_dir <> EmptyString.
Proof.
  unfold _safe_filename. destruct (str_truthy out_dir) eqn:Hout; [|discriminate].
  simpl. destruct (makedirs out_dir s); [|discriminate]. intros [= <-].
  pose proof (filename_no_slash url) as Hn.
  assert (Hp : join out_dir (filename_of url) = dir_prefix out_dir +:+ filename_of url)
    by (apply join_relative; by apply no_slash_start).
  rewrite Hp. split; [done|]. split; [by apply basename_dir_prefix|].
  split; [|split; [exact Hn | by intros ->]].
  unfold filename_of. destruct (str_truthy (basename (url_path url))) eqn:Ht;
    [|discriminate]. intros Heq. by rewrite Heq in Ht.
Qed.

End WithWorld.

Arguments world {World} _.
Arguments fs {World} _.
Arguments log {World} _.

End Downloads.

(** ** rcm_db.py: the optional persistence shadow *)

Module RcmDb.

(** Values SQLite stores. *)
Inductive sqlval : Type :=
| SNull
| SInt (z : Z)
| SReal (q : Q)
| SText (s : string).

#[global] Instance Q_eq_dec : EqDecision Q.
Proof. solve_decision. Defined.

#[global] Instance sqlval_eq_dec : EqDecision sqlval.
Proof. solve_decision. Defined.

(** Python values found in a [meta] dict. A [datetime] carries its
    [isoformat()], its position on the time line in seconds and whether it
    is timezone-aware; [PObj] is any other object. *)
Inductive pyval : Type :=
| PNone
| PStr (s : string)
| PInt (z : Z)
| PFloat (q : Q)
| PDatetime (iso : string) (seconds : Q) (aware : bool)
| PObj (tag : nat).

(** The columns of the [downloads] table, named as the statements of
    rcm_db.py name them. *)
Inductive column : Type :=
| product_id | query_id | constellation | sensor_mode | product_type
| processing_level | status | acqusition_time | publication_time | latency
| coordinates | latitude | longitude | name | quicklook | file_path
| file_size_mb | checksum | created_at | updated_at.

#[global] Instance column_eq_dec : EqDecision column.
Proof. solve_decision. Defined.

(** Modelled from the spec: the [downloads] table itself is created outside
    the package; the spec gives it the columns above with [product_id
    UNIQUE], which is what [ON CONFLICT(product_id)] relies on. A row gives
    every column a value; the table keeps its rows in insertion order. *)
Definition row : Type := column -> sqlval.

(** The [queries] table: [id] is the row id SQLite assigns. *)
Record query_row : Type := MkQuery {
  q_id : Z;
  q_constellation : sqlval;
  q_geometry_wkt : sqlval;
  q_start_date : sqlval;
  q_end_date : sqlval;
  q_parameters : sqlval;
  q_created_at : sqlval
}.

(** The two tables as the connection of the handle sees them: the rows of
    every statement it executed, those of a transaction whose [commit]
    raised included, since they stay pending on the connection and the next
    [commit] that goes through writes them. An error on which SQLite itself
    rolls the transaction back is outside the model. *)
Record database : Type := MkDb {
  queries : list query_row;
  downloads : list row
}.

(** *** The schema gate *)

(** What [db_path] leads to: no path given, no file there, a file SQLite
    cannot read, or a database with its tables and their columns. *)
Inductive store : Type :=
| NoPath
| Missing
| Unreadable
| Database (schema : gmap string (gset string)).

Definition _EXPECTED_QUERY_TABLE : string := "queries".

Definition _EXPECTED_QUERY_COLS : gset string :=
  {[ "id"; "constellation"; "geometry_wkt"; "start_date"; "end_date";
     "parameters"; "created_at" ]}.

Definition _EXPECTED_DL_TABLE : string := "downloads".

Definition _EXPECTED_DL_COLS : gset string :=
  {[ "product_id"; "query_id"; "constellation"; "sensor_mode"; "product_type";
     "processing_level"; "status"; "acqusition_time"; "publication_time";
     "latency"; "coordinates"; "latitude"; "longitude"; "name"; "quicklook";
     "file_path"; "file_size_mb"; "checksum"; "created_at"; "updated_at" ]}.

(** rcm_db.py, [_subset_present]: [PRAGMA table_info] of a table that does
    not exist has no rows. *)
Definition _subset_present (schema : gmap string (gset string))
    (table : string) (need : gset string) : bool :=
  bool_decide (need ⊆ default ∅ (schema !! table)).

(** [OptionalRCMDB.__init__]: the value of [self.enabled]. *)
Definition open_db (db_path : store) : bool :=
  match db_path with
  | NoPath => false
  | Missing => false
  | Unreadable => false
  | Database schema =>
      if negb (_subset_present schema _EXPECTED_QUERY_TABLE _EXPECTED_QUERY_COLS)
      then false
      else if negb (_subset_present schema _EXPECTED_DL_TABLE _EXPECTED_DL_COLS)
      then false
      else true
  end.

(** The schema of the external interface as the specification lists it. *)
Definition interface_schema : gmap string (gset string) :=
  {[ "queries" :=
       {[ "id"; "constellation"; "geometry_wkt"; "start_date"; "end_date";
          "parameters"; "created_at" ]};
     "downloads" :=
       {[ "product_id"; "query_id"; "constellation"; "sensor_mode";
          "product_type"; "processing_level"; "status"; "acquisition_time";
          "publication_time"; "latency"; "coordinates"; "latitude";
          "longitude"; "name"; "quicklook"; "file_path"; "file_size_mb";
          "checksum"; "created_at"; "updated_at" ]} ]}.

(** *** The write operations *)

Section WithAdapters.
(** How [sqlite3] binds a Python value as a statement parameter ([None]:
    the type is not supported and [execute] raises). *)
Variable sql_adapt : pyval -> option sqlval.
(** [json.dumps(obj)] ([None]: it raises). *)
Variable json_dumps : pyval -> option string.
(** [str(Path(p))]. *)
Variable path_str : string -> string.

(** db_utils.py, [to_iso]. *)
Definition to_iso (x : pyval) : option string :=
  match x with
  | PStr s => Some s
  | PDatetime iso _ _ => Some iso
  | _ => None
  end.

(** db_utils.py, [json_dumps_safe]. *)
Definition json_dumps_safe (obj : pyval) : string :=
  default "{}" (json_dumps obj).

(** [meta.get(key)] and [meta.get(key, fallback)]. *)
Definition meta_get (meta : gmap string pyval) (key : string) (fallback : pyval)
  : pyval :=
  default fallback (meta !! key).

Definition opt_text (o : option string) : sqlval :=
  match o with Some s => SText s | None => SNull end.

Definition opt_int (o : option Z) : sqlval :=
  match o with Some z => SInt z | None => SNull end.

(** The handle: [self.enabled] and the database behind [self.conn]. *)
Record handle : Type := MkHandle {
  enabled : bool;
  db : database
}.

(** The eighteen bound parameters and the two [datetime('now')] of the
    [INSERT] shared by the three marking methods; [None] when a parameter
    cannot be bound. *)
Definition insert_row (pid : string) (qid : option Z) (meta : gmap string pyval)
    (status_text : string) (acq pub : sqlval) (lat : sqlval) (path : string)
    (size_mb sum : sqlval) (now : string) : option row :=
  c ← sql_adapt (meta_get meta "constellation" (PStr "RCM"));
  sm ← sql_adapt (meta_get meta "sensor_mode" PNone);
  pt ← sql_adapt (meta_get meta "product_type" PNone);
  pl ← sql_adapt (meta_get meta "processing_level" PNone);
  la ← sql_adapt (meta_get meta "latitude" PNone);
  lo ← sql_adapt (meta_get meta "longitude" PNone);
  nm ← sql_adapt (meta_get meta "name" PNone);
  ql ← sql_adapt (meta_get meta "quicklook" PNone);
  Some (fun col =>
    match col with
    | product_id => SText pid
    | query_id => opt_int qid
    | constellation => c
    | sensor_mode => sm
    | product_type => pt
    | processing_level => pl
    | status => SText status_text
    | acqusition_time => acq
    | publication_time => pub
    | latency => lat
    | coordinates => SText (json_dumps_safe (meta_get meta "coordinates" PNone))
    | latitude => la
    | longitude => lo
    | name => nm
    | quicklook => ql
    | file_path => SText path
    | file_size_mb => size_mb
    | checksum => sum
    | created_at => SText now
    | updated_at => SText now
    end).

Definition has_id (pid : sqlval) (r : row) : bool :=
  bool_decide (r product_id = pid).

(** [ON CONFLICT(product_id) DO UPDATE SET c = excluded.c, ...] for the
    columns [set]: the other columns of the row stay. *)
Definition do_update (set : list column) (excluded old : row) : row :=
  fun col => if bool_decide (col ∈ set) then excluded col else old col.

(** [INSERT ... ON CONFLICT(product_id) DO UPDATE SET ...] on the table. *)
Definition upsert (set : list column) (new : row) (table : list row)
  : list row :=
  if existsb (has_id (new product_id)) table then
    map (fun r => if has_id (new product_id) r then do_update set new r else r)
      table
  else table ++ [new].

(** A write of one row, with everything that can keep it from happening:
    a disabled handle, a parameter that cannot be bound, and an exception
    of the method body or of [execute] ([engine_ok = false]), which the
    method swallows. All three leave the tables as they are. With
    [engine_ok = true] the statement was executed: the connection has the
    row whether [commit] went through or raised, and the method, which
    returns nothing, swallows that exception too. *)
Definition write_download (set : list column) (new : option row)
    (engine_ok : bool) (h : handle) : handle :=
  if negb (enabled h) then h
  else
    match new with
    | None => h
    | Some r =>
        if engine_ok then
          MkHandle (enabled h)
            (MkDb (queries (db h)) (upsert set r (downloads (db h))))
        else h
    end.

(** rcm_db.py, [mark_in_progress]. *)
Definition mark_in_progress (pid : string) (qid : option Z)
    (meta : gmap string pyval) (path : string) (now : string)
    (engine_ok : bool) (h : handle) : handle :=
  write_download [status; file_path; updated_at]
    (insert_row pid qid meta "in_progress"
       (opt_text (to_iso (meta_get meta "acquisition_time" PNone)))
       (opt_text (to_iso (meta_get meta "publication_time" PNone)))
       SNull path SNull SNull now)
    engine_ok h.

(** [(pub - acq).total_seconds() / 60.0] when both are datetimes; the
    subtraction raises between a naive and an aware datetime. *)
Definition latency_minutes (acq pub : pyval) : sqlval :=
  match acq, pub with
  | PDatetime _ t0 a0, PDatetime _ t1 a1 =>
      if Bool.eqb a0 a1 then SReal ((t1 - t0) / 60)%Q else SNull
  | _, _ => SNull
  end.

(** What [mark_success] reads from the finalized file: [None] when it does
    not exist, else its size in bytes and its MD5 ([None] when reading
    fails). *)
Definition size_mb_of (file : option (Z * option string)) : sqlval :=
  match file with
  | Some (size, _) => SReal (inject_Z size / inject_Z (1024 * 1024))%Q
  | None => SNull
  end.

Definition checksum_of (file : option (Z * option string)) : sqlval :=
  match file with
  | Some (_, Some digest) => SText digest
  | _ => SNull
  end.

(** rcm_db.py, [mark_success]. *)
Definition mark_success (pid : string) (qid : option Z) (final_path : string)
    (meta : gmap string pyval) (file : option (Z * option string))
    (now : string) (engine_ok : bool) (h : handle) : handle :=
  let acq := meta_get meta "acquisition_time" PNone in
  let pub := meta_get meta "publication_time" PNone in
  write_download
    [status; file_path; file_size_mb; checksum; publication_time;
     acqusition_time; latency; updated_at]
    (insert_row pid qid meta "completed"
       (opt_text (to_iso acq)) (opt_text (to_iso pub))
       (latency_minutes acq pub) (path_str final_path)
       (size_mb_of file) (checksum_of file) now)
    engine_ok h.

(** rcm_db.py, [mark_failed]. *)
Definition mark_failed (pid : string) (qid : option Z) (final_path : string)
    (meta : gmap string pyval) (now : string) (engine_ok : bool) (h : handle)
  : handle :=
  write_download [status; file_path; updated_at]
    (insert_row pid qid meta "failed"
       (opt_text (to_iso (meta_get meta "acquisition_time" PNone)))
       (opt_text (to_iso (meta_get meta "publication_time" PNone)))
       SNull final_path SNull SNull now)
    engine_ok h.

(** What SQLite makes of the statement of [record_query]: [execute]
    raises and nothing is written; [execute] goes through and [commit]
    raises, which leaves the row pending on the connection; or both go
    through. *)
Inductive engine : Type :=
| ExecuteFails
| CommitFails
| Done.

(** rcm_db.py, [record_query]: a plain [INSERT] into [queries]; the new
    row id is one more than the largest in the table. [PObj 0] stands for
    the empty dict that [payload.get("parameters", {})] falls back to. The
    [except] clause covers [execute] and [commit] alike: when [commit]
    raises the method returns [None] with the row already on the
    connection. *)
Definition next_id (qs : list query_row) : Z :=
  1 + foldr (fun q acc => Z.max (q_id q) acc) 0 qs.

Definition record_query (payload : gmap string pyval) (now : string)
    (sqlite : engine) (h : handle) : option Z * handle :=
  if negb (enabled h) then (None, h)
  else
    match sql_adapt (meta_get payload "constellation" (PStr "RCM")),
          sql_adapt (meta_get payload "geometry_wkt" PNone),
          sql_adapt (meta_get payload "start_date" PNone),
          sql_adapt (meta_get payload "end_date" PNone) with
    | Some c, Some g, Some sd, Some ed =>
        let id := next_id (queries (db h)) in
        let written :=
          MkHandle (enabled h)
            (MkDb (queries (db h) ++
                   [MkQuery id c g sd ed
                      (SText (json_dumps_safe
                                (meta_get payload "parameters" (PObj 0))))
                      (SText now)])
                  (downloads (db h))) in
        match sqlite with
        | ExecuteFails => (None, h)
        | CommitFails => (None, written)
        | Done => (Some id, written)
        end
    | _, _, _, _ => (None, h)
    end.

(** *** Properties of the gate *)

Lemma open_db_enabled_iff (db_path : store) :
  open_db db_path = true <->
  exists schema,
    db_path = Database schema /\
    _EXPECTED_QUERY_COLS ⊆ default ∅ (schema !! _EXPECTED_QUERY_TABLE) /\
    _EXPECTED_DL_COLS ⊆ default ∅ (schema !! _EXPECTED_DL_TABLE).
Proof.
  split.
  - destruct db_path as [| | |schema]; try discriminate. unfold open_db, _subset_present.
    intros H. exists schema. split; [reflexivity|].
    destruct (bool_decide _) eqn:H1 in H; [|discriminate].
    destruct (bool_decide _) eqn:H2 in H; [|discriminate].
    apply bool_decide_eq_true in H1, H2. done.
  - intros (schema & -> & H1 & H2). unfold open_db, _subset_present.
    by rewrite !bool_decide_eq_true_2.
Qed.

Lemma misspelt_column_expected : "acqusition_time" ∈ _EXPECTED_DL_COLS.
Proof. unfold _EXPECTED_DL_COLS. set_solver. Qed.

Lemma interface_lacks_misspelt_column :
  "acqusition_time" ∉ default ∅ (interface_schema !! _EXPECTED_DL_TABLE).
Proof.
  unfold interface_schema, _EXPECTED_DL_TABLE.
  rewrite lookup_insert_ne by discriminate. rewrite lookup_singleton_eq.
  simpl. rewrite !elem_of_union, !elem_of_singleton.
  intros H. repeat (destruct H as [H|H]); discriminate.
Qed.

(** C5, at the schema of the external interface. A database whose two
    tables have exactly the columns the interface lists, [acquisition_time]
    among them, is refused: the expected column set of [downloads] names
    [acqusition_time] instead. *)
Theorem interface_schema_disabled : open_db (Database interface_schema) = false.
Proof.
  apply not_true_iff_false. intros H.
  apply open_db_enabled_iff in H as (schema & [= <-] & _ & H).
  apply interface_lacks_misspelt_column, H, misspelt_column_expected.
Qed.

(** *** Properties of the upsert *)

(** At most one row per [product_id]. *)
Definition unique_ids (table : list row) : Prop :=
  NoDup (map (fun r => r product_id) table).

Lemma do_update_keeps_id set (new old : row) :
  product_id ∉ set -> do_update set new old product_id = old product_id.
Proof. intros H. unfold do_update. by rewrite bool_decide_eq_false_2. Qed.


Lemma existsb_has_id (pid : sqlval) (table : list row) :
  existsb (has_id pid) table = true <-> pid ∈ map (fun r => r product_id) table.
Proof.
  rewrite existsb_exists, list_elem_of_In, in_map_iff. unfold has_id.
  split.
  - intros (r & Hin & Hr). apply bool_decide_eq_true in Hr. eauto.
  - intros (r & Hr & Hin). exists r. split; [done|]. by apply bool_decide_eq_true.
Qed.

Lemma has_row_of_existsb (pid : sqlval) (table : list row) :
  existsb (has_id pid) table = true ->
  exists r, r ∈ table /\ r product_id = pid.
Proof.
  intros H. apply existsb_exists in H as (r & Hin & Hr).
  exists r. split; [by apply list_elem_of_In|]. by apply bool_decide_eq_true in Hr.
Qed.



(** The rows of [pid] after an upsert that went through: there is one. *)
Lemma upsert_one_row set (new : row) (table : list row) :
  product_id ∉ set -> unique_ids table ->
  exists before r after,
    upsert set new table = before ++ r :: after /\
    r product_id = new product_id /\
    (forall c, c ∈ set -> r c = new c) /\
    Forall (fun x => x product_id <> new product_id) (before ++ after).
Proof.
  intros Hset Hu. unfold upsert. destruct (existsb _ table) eqn:He.
  - induction table as [|x table IH]; [discriminate|].
    apply NoDup_cons in Hu as [Hx Hu]. cbn [map].
    destruct (has_id (new product_id) x) eqn:Hid.
    + apply bool_decide_eq_true in Hid.
      exists [], (do_update set new x),
        (map (fun r => if has_id (new product_id) r then do_update set new r else r) table).
      split; [reflexivity|]. split; [by rewrite do_update_keeps_id|]. split.
      * intros c Hc. unfold do_update. by rewrite bool_decide_eq_true_2.
      * simpl. apply Forall_forall. intros y Hy.
        apply list_elem_of_fmap in Hy as (z & -> & Hz).
        assert (Hne : z product_id <> new product_id).
        { intros Heq. apply Hx. rewrite Hid, <- Heq.
          apply list_elem_of_fmap. by exists z. }
        destruct (has_id _ z) eqn:Hz'; [|exact Hne].
        apply bool_decide_eq_true in Hz'. contradiction.
    + simpl in He. rewrite Hid in He. simpl in He.
      destruct (IH Hu He) as (before & r & after & Heq & Hr & Hc & Hf).
      exists (x :: before), r, after. split; [by rewrite Heq|].
      split; [exact Hr|]. split; [exact Hc|]. simpl. constructor; [|exact Hf].
      intros Heq'. apply bool_decide_eq_false in Hid. by apply Hid.
  - exists table, new, []. split; [reflexivity|]. split; [reflexivity|].
    split; [done|]. rewrite app_nil_r. apply Forall_forall. intros y Hy Heq.
    apply not_true_iff_false in He. apply He, existsb_has_id.
    rewrite <- Heq. apply list_elem_of_fmap. by exists y.
Qed.

Lemma insert_row_fields pid qid meta st acq pub lat path size sum now r :
  insert_row pid qid meta st acq pub lat path size sum now = Some r ->
  r product_id = SText pid /\ r status = SText st.
Proof.
  unfold insert_row. intros H. simplify_option_eq. done.
Qed.


(** The calls a client makes on the handle, with what the environment
    contributes to each: the clock, the file on disk, and whether SQLite
    carried the statement out. *)
Inductive write_op : Type :=
| OpQuery (payload : gmap string pyval) (now : string) (sqlite : engine)
| OpInProgress (pid : string) (qid : option Z) (meta : gmap string pyval)
    (path : string) (now : string) (engine_ok : bool)
| OpSuccess (pid : string) (qid : option Z) (final_path : string)
    (meta : gmap string pyval) (file : option (Z * option string))
    (now : string) (engine_ok : bool)
| OpFailed (pid : string) (qid : option Z) (final_path : string)
    (meta : gmap string pyval) (now : string) (engine_ok : bool).

Definition run_op (op : write_op) (h : handle) : handle :=
  match op with
  | OpQuery payload now ok => snd (record_query payload now ok h)
  | OpInProgress pid qid meta path now ok =>
      mark_in_progress pid qid meta path now ok h
  | OpSuccess pid qid final_path meta file now ok =>
      mark_success pid qid final_path meta file now ok h
  | OpFailed pid qid final_path meta now ok =>
      mark_failed pid qid final_path meta now ok h
  end.

Definition run_ops (ops : list write_op) (h : handle) : handle :=
  foldl (fun acc op => run_op op acc) h ops.

Lemma record_query_downloads payload now ok (h : handle) :
  downloads (db (snd (record_query payload now ok h))) = downloads (db h).
Proof.
  unfold record_query. destruct (negb (enabled h)); [done|].
  repeat (destruct (sql_adapt _); [|done]). by destruct ok.
Qed.



(** C10 (frame of [mark_in_progress]). When the table already has a row for
    the id, [mark_in_progress] adds no row; the rows of other ids keep every
    column, and the row of the id keeps every column other than [status],
    [file_path] and [updated_at]. *)
Theorem mark_in_progress_frame (h : handle) pid qid meta path now ok :
  (exists r, r ∈ downloads (db h) /\ r product_id = SText pid) ->
  length (downloads (db (mark_in_progress pid qid meta path now ok h))) =
    length (downloads (db h)) /\
  forall i r,
    downloads (db h) !! i = Some r ->
    exists r',
      downloads (db (mark_in_progress pid qid meta path now ok h)) !! i = Some r' /\
      (forall c, c <> status -> c <> file_path -> c <> updated_at -> r' c = r c) /\
      (r product_id <> SText pid -> forall c, r' c = r c).
Proof.
  intros (r0 & Hin & Hr0). unfold mark_in_progress, write_download.
  assert (Hsame : length (downloads (db h)) = length (downloads (db h)) /\
            forall i r, downloads (db h) !! i = Some r ->
              exists r', downloads (db h) !! i = Some r' /\
                (forall c, c <> status -> c <> file_path -> c <> updated_at ->
                           r' c = r c) /\
                (r product_id <> SText pid -> forall c, r' c = r c)).
  { split; [done|]. intros i r Hr. by exists r. }
  destruct (negb (enabled h)); [exact Hsame|].
  destruct (insert_row _ _ _ _ _ _ _ _ _ _ _) as [new|] eqn:Hnew; [|exact Hsame].
  destruct ok; [|exact Hsame]. simpl.
  destruct (insert_row_fields _ _ _ _ _ _ _ _ _ _ _ _ Hnew) as [Hid _].
  unfold upsert.
  assert (He : existsb (has_id (new product_id)) (downloads (db h)) = true).
  { apply existsb_has_id. rewrite Hid, <- Hr0. apply list_elem_of_fmap. by exists r0. }
  rewrite He. split; [apply length_map|].
  intros i r Hr. change (map ?f ?l) with (f <$> l). unfold row in *.
  rewrite list_lookup_fmap, Hr. simpl.
  eexists. split; [reflexivity|]. unfold has_id. rewrite Hid. split.
  - intros c H1 H2 H3. case_bool_decide; [|done]. unfold do_update.
    rewrite bool_decide_eq_false_2; [done|].
    rewrite !not_elem_of_cons. repeat split; try done. apply not_elem_of_nil.
  - intros Hne c. by rewrite bool_decide_eq_false_2.
Qed.

(** *** Further properties of the write operations *)

Lemma write_download_disabled set new ok (h : handle) :
  enabled h = false -> write_download set new ok h = h.
Proof. unfold write_download. by intros ->. Qed.

Lemma run_op_disabled (op : write_op) (h : handle) :
  enabled h = false -> run_op op h = h.
Proof.
  intros He. destruct op; simpl.
  - unfold record_query. by rewrite He.
  - by apply write_download_disabled.
  - by apply write_download_disabled.
  - by apply write_download_disabled.
Qed.

(** X15 (a refused store makes every call a no-op). When the schema gate
    refuses what [db_path] leads to, no sequence of [record_query],
    [mark_in_progress], [mark_success] and [mark_failed] calls changes
    anything, and [record_query] returns [None]. *)
Theorem disabled_store_is_inert (db_path : store) (d : database) :
  open_db db_path = false ->
  (forall ops,
      run_ops ops (MkHandle (open_db db_path) d) = MkHandle (open_db db_path) d) /\
  (forall payload now ok,
      record_query payload now ok (MkHandle (open_db db_path) d) =
      (None, MkHandle (open_db db_path) d)).
Proof.
  intros Hoff. rewrite Hoff. split.
  - intros ops. unfold run_ops. induction ops as [|op ops IH]; [reflexivity|].
    simpl. by rewrite run_op_disabled.
  - reflexivity.
Qed.

(** What an upsert does to the row at a given position. *)
Lemma upsert_lookup (set : list column) (new : row) (table : list row) i r :
  table !! i = Some r ->
  exists r',
    upsert set new table !! i = Some r' /\
    (forall c, c ∉ set -> r' c = r c) /\
    (r product_id <> new product_id -> r' = r) /\
    (r product_id = new product_id -> forall c, c ∈ set -> r' c = new c).
Proof.
  intros Hr. unfold upsert.
  destruct (existsb (has_id (new product_id)) table) eqn:He.
  - change (map ?f ?l) with (f <$> l). unfold row in *.
    rewrite list_lookup_fmap, Hr. simpl. eexists. split; [reflexivity|].
    unfold has_id. case_bool_decide as Hid.
    + split; [|split; [congruence|]].
      * intros c Hc. unfold do_update. by rewrite bool_decide_eq_false_2.
      * intros _ c Hc. unfold do_update. by rewrite bool_decide_eq_true_2.
    + split; [done|]. split; [done | congruence].
  - exists r. split; [by apply lookup_app_l_Some|]. split; [done|]. split; [done|].
    intros Heq. exfalso. apply not_true_iff_false in He. apply He.
    apply existsb_has_id. rewrite <- Heq. apply list_elem_of_fmap.
    exists r. split; [done|]. by eapply list_elem_of_lookup_2.
Qed.

Lemma upsert_length_conflict (set : list column) (new : row) (table : list row) :
  existsb (has_id (new product_id)) table = true ->
  length (upsert set new table) = length table.
Proof. unfold upsert. intros ->. apply length_map. Qed.

(** The frame of a marking method on a table that has a row for the id. *)
Lemma write_download_frame (set : list column) (new : option row) ok
    (h : handle) (pid : string) :
  (forall nr, new = Some nr -> nr product_id = SText pid) ->
  (exists r, r ∈ downloads (db h) /\ r product_id = SText pid) ->
  length (downloads (db (write_download set new ok h))) =
    length (downloads (db h)) /\
  forall i r,
    downloads (db h) !! i = Some r ->
    exists r',
      downloads (db (write_download set new ok h)) !! i = Some r' /\
      (forall c, c ∉ set -> r' c = r c) /\
      (r product_id <> SText pid -> forall c, r' c = r c).
Proof.
  intros Hid (r0 & Hin & Hr0). unfold write_download.
  assert (Hsame : length (downloads (db h)) = length (downloads (db h)) /\
            forall i r, downloads (db h) !! i = Some r ->
              exists r', downloads (db h) !! i = Some r' /\
                (forall c, c ∉ set -> r' c = r c) /\
                (r product_id <> SText pid -> forall c, r' c = r c)).
  { split; [done|]. intros i r Hr. by exists r. }
  destruct (negb (enabled h)); [exact Hsame|].
  destruct new as [nr|]; [|exact Hsame]. destruct ok; [|exact Hsame]. simpl.
  specialize (Hid nr eq_refl). split.
  - apply upsert_length_conflict, existsb_has_id. rewrite Hid, <- Hr0.
    apply list_elem_of_fmap. by exists r0.
  - intros i r Hr.
    destruct (upsert_lookup set nr _ i r Hr) as (r' & Hl & Hk & Hne & _).
    exists r'. split; [exact Hl|]. split; [exact Hk|].
    intros Hother c. rewrite Hne; [done|]. by rewrite Hid.
Qed.

Lemma insert_row_cols pid qid meta st acq pub lat path size sum now r :
  insert_row pid qid meta st acq pub lat path size sum now = Some r ->
  r product_id = SText pid /\ r query_id = opt_int qid /\
  r status = SText st /\ r acqusition_time = acq /\ r publication_time = pub /\
  r latency = lat /\ r file_path = SText path /\ r file_size_mb = size /\
  r checksum = sum /\ r created_at = SText now /\ r updated_at = SText now.
Proof.
  unfold insert_row. intros H. simplify_option_eq. done.
Qed.

(** X16 (frame of [mark_failed]). When the table already has a row for the
    id, [mark_failed] adds no row; the rows of other ids keep every column,
    and the row of the id keeps every column other than [status],
    [file_path] and [updated_at]: the size, the checksum and the times an
    earlier call stored stay. *)
Theorem mark_failed_frame (h : handle) pid qid final_path meta now ok :
  (exists r, r ∈ downloads (db h) /\ r product_id = SText pid) ->
  length (downloads (db (mark_failed pid qid final_path meta now ok h))) =
    length (downloads (db h)) /\
  forall i r,
    downloads (db h) !! i = Some r ->
    exists r',
      downloads (db (mark_failed pid qid final_path meta now ok h)) !! i
        = Some r' /\
      (forall c, c <> status -> c <> file_path -> c <> updated_at -> r' c = r c) /\
      (r product_id <> SText pid -> forall c, r' c = r c).
Proof.
  intros Hrow. unfold mark_failed.
  destruct (write_download_frame [status; file_path; updated_at]
              (insert_row pid qid meta "failed"
                 (opt_text (to_iso (meta_get meta "acquisition_time" PNone)))
                 (opt_text (to_iso (meta_get meta "publication_time" PNone)))
                 SNull final_path SNull SNull now) ok h pid) as [Hlen Hrows];
    [|exact Hrow|].
  { intros nr Hnr. by destruct (insert_row_cols _ _ _ _ _ _ _ _ _ _ _ _ Hnr). }
  split; [exact Hlen|]. intros i r Hr.
  destruct (Hrows i r Hr) as (r' & Hl & Hk & Hother).
  exists r'. split; [exact Hl|]. split; [|exact Hother].
  intros c H1 H2 H3. apply Hk.
  rewrite !not_elem_of_cons. repeat split; try done. apply not_elem_of_nil.
Qed.

(** X17 (frame of [mark_success]). When the table already has a row for the
    id, [mark_success] adds no row and leaves the rows of other ids alone;
    in the row of the id it never changes [product_id], [query_id],
    [created_at] nor the descriptive columns ([constellation],
    [sensor_mode], [product_type], [processing_level], [coordinates],
    [latitude], [longitude], [name], [quicklook]): the query id and the
    metadata passed with the call are not stored for a product that is
    already known. *)
Theorem mark_success_frame (h : handle) pid qid final_path meta file now ok :
  (exists r, r ∈ downloads (db h) /\ r product_id = SText pid) ->
  length (downloads (db (mark_success pid qid final_path meta file now ok h))) =
    length (downloads (db h)) /\
  forall i r,
    downloads (db h) !! i = Some r ->
    exists r',
      downloads (db (mark_success pid qid final_path meta file now ok h)) !! i
        = Some r' /\
      (forall c,
          c ∈ [product_id; query_id; constellation; sensor_mode; product_type;
               processing_level; coordinates; latitude; longitude; name;
               quicklook; created_at] ->
          r' c = r c) /\
      (r product_id <> SText pid -> forall c, r' c = r c).
Proof.
  intros Hrow. unfold mark_success. cbn zeta.
  match goal with
  | |- context [write_download ?set ?new ok h] =>
      destruct (write_download_frame set new ok h pid) as [Hlen Hrows]
  end; [|exact Hrow|].
  { intros nr Hnr. by destruct (insert_row_cols _ _ _ _ _ _ _ _ _ _ _ _ Hnr). }
  split; [exact Hlen|]. intros i r Hr.
  destruct (Hrows i r Hr) as (r' & Hl & Hk & Hother).
  exists r'. split; [exact Hl|]. split; [|exact Hother].
  intros c Hc. apply Hk. intros Hin.
  repeat (apply elem_of_cons in Hc as [->|Hc];
          [by repeat (apply elem_of_cons in Hin as [Hin|Hin]; [discriminate|]);
              apply elem_of_nil in Hin|]).
  by apply elem_of_nil in Hc.
Qed.

(** The columns no statement of rcm_db.py ever updates. *)
Definition stable (c : column) : bool :=
  match c with
  | product_id | query_id | constellation | sensor_mode | product_type
  | processing_level | coordinates | latitude | longitude | name | quicklook
  | created_at => true
  | _ => false
  end.

Lemma write_download_lookup (set : list column) new ok (h : handle) i r :
  downloads (db h) !! i = Some r ->
  exists r',
    downloads (db (write_download set new ok h)) !! i = Some r' /\
    forall c, c ∉ set -> r' c = r c.
Proof.
  intros Hr. unfold write_download.
  destruct (negb (enabled h)); [by exists r|].
  destruct new as [nr|]; [|by exists r]. destruct ok; [|by exists r]. simpl.
  destruct (upsert_lookup set nr _ i r Hr) as (r' & Hl & Hk & _). by exists r'.
Qed.

Lemma run_op_lookup (op : write_op) (h : handle) i r :
  downloads (db h) !! i = Some r ->
  exists r',
    downloads (db (run_op op h)) !! i = Some r' /\
    forall c, stable c = true -> r' c = r c.
Proof.
  intros Hr. destruct op; simpl.
  - rewrite record_query_downloads. by exists r.
  - unfold mark_in_progress.
    match goal with
    | |- context [write_download ?set ?new ?ok h] =>
        destruct (write_download_lookup set new ok h i r Hr) as (r' & Hl & Hk)
    end.
    exists r'. split; [exact Hl|]. intros c Hc. apply Hk. intros Hin.
    repeat (apply elem_of_cons in Hin as [->|Hin]; [discriminate|]).
    by apply elem_of_nil in Hin.
  - unfold mark_success. cbn zeta.
    match goal with
    | |- context [write_download ?set ?new ?ok h] =>
        destruct (write_download_lookup set new ok h i r Hr) as (r' & Hl & Hk)
    end.
    exists r'. split; [exact Hl|]. intros c Hc. apply Hk. intros Hin.
    repeat (apply elem_of_cons in Hin as [->|Hin]; [discriminate|]).
    by apply elem_of_nil in Hin.
  - unfold mark_failed.
    match goal with
    | |- context [write_download ?set ?new ?ok h] =>
        destruct (write_download_lookup set new ok h i r Hr) as (r' & Hl & Hk)
    end.
    exists r'. split; [exact Hl|]. intros c Hc. apply Hk. intros Hin.
    repeat (apply elem_of_cons in Hin as [->|Hin]; [discriminate|]).
    by apply elem_of_nil in Hin.
Qed.

(** X18 (rows are for ever). Under any sequence of calls on the handle,
    executed or not, a row of [downloads] stays at its position and keeps
    its [product_id], its [query_id], its [created_at] and its descriptive
    columns: no call deletes or re-keys a row, and what the first call for a
    product stored in these columns is never revised. *)
Theorem rows_persist (ops : list write_op) (h : handle) i r :
  downloads (db h) !! i = Some r ->
  exists r',
    downloads (db (run_ops ops h)) !! i = Some r' /\
    forall c, stable c = true -> r' c = r c.
Proof.
  unfold run_ops. revert h r. induction ops as [|op ops IH]; intros h r Hr.
  - by exists r.
  - simpl. destruct (run_op_lookup op h i r Hr) as (r1 & H1 & K1).
    destruct (IH _ _ H1) as (r' & H2 & K2). exists r'. split; [exact H2|].
    intros c Hc. by rewrite K2, K1.
Qed.

(** Membership in a list given by its elements. *)
Ltac in_list :=
  repeat first [apply list_elem_of_here | apply list_elem_of_further].

(** The row an executed marking call leaves for its id. *)
Lemma write_download_row (set : list column) (new : row) (h : handle) :
  product_id ∉ set -> enabled h = true -> unique_ids (downloads (db h)) ->
  exists before r after,
    downloads (db (write_download set (Some new) true h)) = before ++ r :: after /\
    r product_id = new product_id /\
    (forall c, c ∈ set -> r c = new c) /\
    Forall (fun x => x product_id <> new product_id) (before ++ after).
Proof.
  intros Hset Hen Hu. unfold write_download. rewrite Hen. simpl.
  by apply upsert_one_row.
Qed.

(** X20 (the last marking call decides the status). On an enabled handle,
    whatever row the product had before, a [mark_in_progress] or
    [mark_failed] that SQLite carries out leaves exactly one row for the id,
    with the status and the file path of that call: a product already
    [completed] goes back to [in_progress] when it is marked again. *)
Theorem mark_overwrites_status (h : handle) pid qid meta path now :
  enabled h = true ->
  unique_ids (downloads (db h)) ->
  (forall new,
      insert_row pid qid meta "in_progress"
        (opt_text (to_iso (meta_get meta "acquisition_time" PNone)))
        (opt_text (to_iso (meta_get meta "publication_time" PNone)))
        SNull path SNull SNull now = Some new ->
      exists before r after,
        downloads (db (mark_in_progress pid qid meta path now true h))
          = before ++ r :: after /\
        r product_id = SText pid /\ r status = SText "in_progress" /\
        r file_path = SText path /\
        Forall (fun x => x product_id <> SText pid) (before ++ after)) /\
  (forall new,
      insert_row pid qid meta "failed"
        (opt_text (to_iso (meta_get meta "acquisition_time" PNone)))
        (opt_text (to_iso (meta_get meta "publication_time" PNone)))
        SNull path SNull SNull now = Some new ->
      exists before r after,
        downloads (db (mark_failed pid qid path meta now true h))
          = before ++ r :: after /\
        r product_id = SText pid /\ r status = SText "failed" /\
        r file_path = SText path /\
        Forall (fun x => x product_id <> SText pid) (before ++ after)).
Proof.
  intros Hen Hu.
  assert (Hset : product_id ∉ [status; file_path; updated_at]).
  { rewrite !not_elem_of_cons. repeat split; try discriminate. apply not_elem_of_nil. }
  split; intros new Hnew;
    [unfold mark_in_progress | unfold mark_failed]; rewrite Hnew;
    destruct (insert_row_cols _ _ _ _ _ _ _ _ _ _ _ _ Hnew)
      as (Hid & _ & Hst & _ & _ & _ & Hpath & _);
    destruct (write_download_row [status; file_path; updated_at] new h Hset Hen Hu)
      as (before & r & after & Heq & Hr & Hc & Hf);
    exists before, r, after; rewrite <- Hid;
    (split; [exact Heq|]); (split; [exact Hr|]);
    (split; [rewrite Hc; [exact Hst | in_list]|]);
    (split; [rewrite Hc; [exact Hpath | in_list] | exact Hf]).
Qed.

(** X21 ([mark_success] rewrites the times). On an enabled handle a
    [mark_success] that SQLite carries out leaves exactly one row for the
    id, whose path, size, checksum, times and latency are those of this
    call; in particular a [meta] without [acquisition_time] or
    [publication_time] stores NULL there, over whatever an earlier
    [mark_in_progress] had stored. *)
Theorem mark_success_rewrites_times (h : handle) pid qid final_path meta file
    now new :
  enabled h = true ->
  unique_ids (downloads (db h)) ->
  insert_row pid qid meta "completed"
    (opt_text (to_iso (meta_get meta "acquisition_time" PNone)))
    (opt_text (to_iso (meta_get meta "publication_time" PNone)))
    (latency_minutes (meta_get meta "acquisition_time" PNone)
       (meta_get meta "publication_time" PNone))
    (path_str final_path) (size_mb_of file) (checksum_of file) now = Some new ->
  exists before r after,
    downloads (db (mark_success pid qid final_path meta file now true h))
      = before ++ r :: after /\
    r product_id = SText pid /\
    Forall (fun x => x product_id <> SText pid) (before ++ after) /\
    r file_path = SText (path_str final_path) /\
    r file_size_mb = size_mb_of file /\ r checksum = checksum_of file /\
    r acqusition_time =
      opt_text (to_iso (meta_get meta "acquisition_time" PNone)) /\
    r publication_time =
      opt_text (to_iso (meta_get meta "publication_time" PNone)) /\
    (meta !! "acquisition_time" = None -> r acqusition_time = SNull) /\
    (meta !! "publication_time" = None -> r publication_time = SNull) /\
    (meta !! "acquisition_time" = None \/ meta !! "publication_time" = None ->
     r latency = SNull).
Proof.
  intros Hen Hu Hnew. unfold mark_success. cbn zeta. rewrite Hnew.
  destruct (insert_row_cols _ _ _ _ _ _ _ _ _ _ _ _ Hnew)
    as (Hid & _ & _ & Hacq & Hpub & Hlat & Hpath & Hsize & Hsum & _).
  destruct (write_download_row
              [status; file_path; file_size_mb; checksum; publication_time;
               acqusition_time; latency; updated_at] new h)
    as (before & r & after & Heq & Hr & Hc & Hf); [|exact Hen | exact Hu|].
  { rewrite !not_elem_of_cons. repeat split; try discriminate. apply not_elem_of_nil. }
  assert (Ra : r acqusition_time =
               opt_text (to_iso (meta_get meta "acquisition_time" PNone)))
    by (rewrite Hc; [exact Hacq | in_list]).
  assert (Rp : r publication_time =
               opt_text (to_iso (meta_get meta "publication_time" PNone)))
    by (rewrite Hc; [exact Hpub | in_list]).
  assert (Rl : r latency =
               latency_minutes (meta_get meta "acquisition_time" PNone)
                 (meta_get meta "publication_time" PNone))
    by (rewrite Hc; [exact Hlat | in_list]).
  exists before, r, after. rewrite <- Hid.
  split; [exact Heq|]. split; [exact Hr|]. split; [exact Hf|].
  split; [rewrite Hc; [exact Hpath | in_list]|].
  split; [rewrite Hc; [exact Hsize | in_list]|].
  split; [rewrite Hc; [exact Hsum | in_list]|].
  split; [exact Ra|]. split; [exact Rp|].
  split; [|split].
  - intros Hm. rewrite Ra. unfold meta_get. by rewrite Hm.
  - intros Hm. rewrite Rp. unfold meta_get. by rewrite Hm.
  - intros [Hm|Hm]; rewrite Rl; unfold meta_get; rewrite Hm; simpl;
      [done | by destruct (default PNone (meta !! "acquisition_time"))].
Qed.

End WithAdapters.
End RcmDb.

(** ** utils.py: the identifiers of a service entry *)

Module Utils.

(** [d.get(k, fallback)]: the value under [k], also when that value is
    [None], and [fallback] when [d] has no such key. *)
Definition dict_get (k : string) (fallback : json) (d : list (string * json))
  : json :=
  match find (fun kv => String.eqb (fst kv) k) d with
  | Some kv => snd kv
  | None => fallback
  end.

(** The inner function [extract]. *)
Definition extract (d : list (string * json)) : json :=
  JObj [("archiveId", dict_get "archiveId" (JStr "") d);
        ("collectionId", dict_get "collectionId" (JStr "") d)].

(** One pass of [extract(item) for item in data if isinstance(item, dict)]. *)
Definition extract_dict (item : json) : option json :=
  match item with
  | JObj d => Some (extract d)
  | _ => None
  end.

(** utils.py, [get_service_uuid]: a [str], a [dict], a [list], or a value of
    any other type, for which it raises. *)
Definition get_service_uuid (data : json) : result json :=
  match data with
  | JStr s => Ok (JObj [("archiveId", JStr s); ("collectionId", JStr "")])
  | JObj d => Ok (extract d)
  | JArr items =>
      let results := omap extract_dict items in
      Ok (match results with
          | [] => JObj []
          | [r] => r
          | _ => JArr results
          end)
  | _ => Raise ValueError
  end.

(** A dict with exactly the keys [archiveId] and [collectionId]. *)
Definition is_entry (v : json) : Prop :=
  exists a c, v = JObj [("archiveId", a); ("collectionId", c)].

Lemma extract_is_entry (d : list (string * json)) : is_entry (extract d).
Proof. by eexists _, _. Qed.

Lemma extract_dict_entries (items : list json) :
  Forall is_entry (omap extract_dict items).
Proof.
  induction items as [|item items IH]; [constructor|].
  cbn [omap list_omap]. destruct item; simpl; try exact IH.
  constructor; [apply extract_is_entry | exact IH].
Qed.

Lemma extract_dict_fixes (rs : list json) :
  Forall is_entry rs -> omap extract_dict rs = rs.
Proof.
  induction 1 as [|r rs (a & c & ->) _ IH]; [reflexivity|].
  cbn [omap list_omap]. simpl. fold (omap extract_dict rs). by rewrite IH.
Qed.

Lemma get_service_uuid_entry_or_list (data out : json) :
  get_service_uuid data = Ok out ->
  is_entry out \/
  (exists rs, out = JArr rs /\ (2 <= length rs)%nat /\ Forall is_entry rs) \/
  out = JObj [].
Proof.
  destruct data as [|b|q|s|items|d]; simpl; try discriminate.
  - intros [= <-]. left. by eexists _, _.
  - pose proof (extract_dict_entries items) as Hall.
    destruct (omap extract_dict items) as [|r [|r' rs]]; intros [= <-].
    + by right; right.
    + left. by apply Forall_cons in Hall as [Hr _].
    + right. left. eexists. split; [reflexivity|]. split; [simpl; lia | exact Hall].
  - intros [= <-]. left. apply extract_is_entry.
Qed.


(** X23 ([get_service_uuid] is idempotent on its results). Applied to what
    it returned, other than the empty dict, it returns the same value: its
    results are already in the form it produces. *)
Theorem get_service_uuid_idempotent (data out : json) :
  get_service_uuid data = Ok out ->
  out <> JObj [] ->
  get_service_uuid out = Ok out.
Proof.
  intros H Hne. pose proof (get_service_uuid_entry_or_list data out H) as Hshape.
  destruct Hshape as [(a & c & ->)|[(rs & -> & Hlen & Hall)| ->]]; [| |done].
  - reflexivity.
  - cbn [get_service_uuid]. rewrite (extract_dict_fixes rs Hall).
    destruct rs as [|r [|r' rs]]; simpl in Hlen; try lia. reflexivity.
Qed.

(** A list with one dict and one stray number, then the dict it gives. *)
Example single_dict_is_not_a_list :
  get_service_uuid (JArr [JObj [("archiveId", JStr "a1")]; JNum 3]) =
  Ok (JObj [("archiveId", JStr "a1"); ("collectionId", JStr "")]).
Proof. reflexivity. Qed.

Example no_dict_gives_empty_dict :
  get_service_uuid (JArr [JStr "a1"; JStr "a2"]) = Ok (JObj []).
Proof. reflexivity. Qed.

Lemma get_service_uuid_idempotent_witness :
  get_service_uuid (JObj [("archiveId", JStr "a1"); ("collectionId", JStr "")])
  = Ok (JObj [("archiveId", JStr "a1"); ("collectionId", JStr "")]).
Proof.
  apply (get_service_uuid_idempotent
           (JArr [JObj [("archiveId", JStr "a1")]; JNum 3])).
  - reflexivity.
  - discriminate.
Defined.

End Utils.

(** ** Concrete runs of the executor and the poller *)

Module PollerScenario.
Import Poller.

(** A network that answers from a script, a generator that always draws
    0.5, a clock that advances by one second per reading. *)
Record world : Type := MkWorld {
  script : list (result (option response));
  clock : Q
}.

Definition prepare_request (url : string) (hdrs : gmap string string)
    (w : world) : result (option response) * world :=
  match script w with
  | [] => (Raise ConnectionError, w)
  | out :: rest => (out, MkWorld rest (clock w))
  end.

Definition get_access_token (w : world) : result string * world :=
  (Ok "token", w).

Definition half : unit_float := UnitFloat (1 # 2) eq_refl.

Definition random_random (w : world) : unit_float * world := (half, w).

Definition perf_counter (w : world) : Q * world :=
  (clock w, MkWorld (script w) (clock w + 1)%Q).

Definition digit (c : ascii) : option Z :=
  let n := nat_of_ascii c in
  if ((48 <=? n) && (n <=? 57))%nat then Some (Z.of_nat (n - 48)) else None.

Fixpoint parse_digits (s : string) (acc : Z) : option Z :=
  match s with
  | EmptyString => Some acc
  | String c rest =>
      match digit c with
      | Some d => parse_digits rest (10 * acc + d)
      | None => None
      end
  end.

(** [int(s)] on an optional minus sign followed by decimal digits. *)
Definition parse_int (s : string) : option Z :=
  match s with
  | EmptyString => None
  | String c rest =>
      if Ascii.eqb c "-"%char then
        match rest with
        | EmptyString => None
        | _ => Z.opp <$> parse_digits rest 0
        end
      else parse_digits s 0
  end.

(** [float(s)] on the same strings. *)
Definition py_float (s : string) : option Q := inject_Z <$> parse_int s.

Definition py_str (v : json) : string :=
  match v with JStr s => s | _ => EmptyString end.

Definition domain : string := "https://www.eodms-sgdot.nrcan-rncan.gc.ca".

Definition start (outs : list (result (option response))) : State world :=
  MkState world (MkWorld outs 0%Q) JNull [].

Definition answer (code : Z) (data : option json) : result (option response) :=
  Ok (Some (Response code ∅ data)).

Definition item_available : json :=
  JObj [("status", JStr "Available");
        ("download_url", JStr "https://x/test.zip?size=4")].

Definition item_queued : json := JObj [("status", JStr "Queued")].

Definition entry (archive : string) : gmap string string :=
  {[ "collectionId" := "RCMImageProducts"; "archiveId" := archive ]}.

Definition run_get_items (entries : list (gmap string string))
    (s : State world) : result buckets * State world :=
  get_items world prepare_request get_access_token random_random perf_counter
    py_float domain entries "EODMS" 0%Q s.

Definition run_executor (n : nat) (s : State world)
  : result (option response) * State world :=
  _request_with_retries world prepare_request random_random py_float
    "https://catalog/item" ∅ n 1%Q 30%Q s.

(** Three items: one available, one queued, one answered with 404. *)
Definition three_answers : State world :=
  start [answer 200 (Some item_available); answer 200 (Some item_queued);
         answer 404 None].

Example three_items_buckets :
  fst (run_get_items [entry "a1"; entry "a2"; entry "a3"] three_answers) =
  Ok (MkBuckets [item_available] [item_queued] []).
Proof. vm_compute. reflexivity. Qed.

(** The scenario of the specification: 503 on attempts 1 to 4 and 200 on
    attempt 5 leaves the item in its bucket. *)
Example four_503_then_200 :
  fst (run_get_items [entry "a1"]
         (start [answer 503 None; answer 503 None; answer 503 None;
                 answer 503 None; answer 200 (Some item_queued)])) =
  Ok (MkBuckets [] [item_queued] []).
Proof. vm_compute. reflexivity. Qed.

Lemma poller_bucket_partition_witness :
  exists evs,
    extends world three_answers
      (snd (run_get_items [entry "a1"; entry "a2"; entry "a3"] three_answers))
      evs /\
    bucket_partition 3 (MkBuckets [item_available] [item_queued] []) evs.
Proof.
  apply (proj1 (poller_bucket_partition world prepare_request
                  get_access_token random_random perf_counter py_float
                  py_str domain)
           [entry "a1"; entry "a2"; entry "a3"] "EODMS" 0%Q three_answers).
  vm_compute. reflexivity.
Defined.

(** A 429 that asks for seven seconds. *)
Definition busy (retry_after : string) : response :=
  Response 429 {[ "Retry-After" := retry_after ]} None.


(** C8, at a 429 whose [Retry-After] is [-1]: with four attempts left the
    executor does not return the response, it raises the [ValueError] of
    [time.sleep]. *)
Theorem negative_retry_after_raises :
  fst (run_executor 5 (start [Ok (Some (busy "-1")); answer 200 None])) =
  Raise ValueError.
Proof. vm_compute. reflexivity. Qed.

(** The same run with a delay [time.sleep] accepts returns the second
    response. *)
Example positive_retry_after_retries :
  fst (run_executor 5 (start [Ok (Some (busy "7")); answer 200 None])) =
  answer 200 None.
Proof. vm_compute. reflexivity. Qed.


(** A run of the executor that meets a 503 and then a 200. *)
Definition retried_once : State world :=
  start [answer 503 None; answer 200 None].

Lemma executor_request_budget_witness :
  (length (requests (log (snd (run_executor 5 retried_once)))) <= 5)%nat /\
  length (sleeps (log (snd (run_executor 5 retried_once)))) =
    (length (requests (log (snd (run_executor 5 retried_once)))) - 1)%nat.
Proof.
  destruct (executor_request_budget world prepare_request random_random
              py_float "https://catalog/item" ∅ 5%nat 1%Q 30%Q retried_once
              (snd (run_executor 5 retried_once))
              (fst (run_executor 5 retried_once))
              (log (snd (run_executor 5 retried_once))))
    as (H1 & _ & H3 & _).
  - vm_compute. reflexivity.
  - reflexivity.
  - split; [exact H1 | exact H3].
Defined.

Lemma executor_stops_at_final_response_witness :
  fst (run_executor 5 retried_once) = answer 200 None /\
  last (requests (log (snd (run_executor 5 retried_once)))) =
    Some (answer 200 None).
Proof.
  destruct (executor_stops_at_final_response world prepare_request
              random_random py_float "https://catalog/item" ∅ 5%nat 1%Q 30%Q
              retried_once (snd (run_executor 5 retried_once))
              (fst (run_executor 5 retried_once))
              (log (snd (run_executor 5 retried_once))))
    as [Hlast _].
  - vm_compute. reflexivity.
  - reflexivity.
  - split; [vm_compute; reflexivity|].
    apply (Hlast (Some (Response 200 ∅ None))); [lia | vm_compute; reflexivity].
Defined.

Lemma executor_sleeps_capped_witness :
  Forall (fun d => (0 <= d)%Q /\ (d <= 30)%Q)
    (sleeps (log (snd (run_executor 5 retried_once)))).
Proof.
  apply (executor_sleeps_capped world prepare_request random_random py_float
           "https://catalog/item" ∅ 5%nat 1%Q 30%Q retried_once
           (snd (run_executor 5 retried_once))
           (fst (run_executor 5 retried_once))).
  - vm_compute. reflexivity.
  - reflexivity.
  - intros resp Hin. vm_compute in Hin.
    destruct Hin as [Hin|[Hin|[]]]; injection Hin as <-; reflexivity.
Defined.

Definition run_get_item (s : State world) : result json * State world :=
  get_item world prepare_request get_access_token random_random py_float
    domain "RCMImageProducts" "a1" "EODMS" s.

(** The item is queued; the catalog answers 503 first. *)
Definition queued_after_503 : State world :=
  start [answer 503 None; answer 200 (Some item_queued)].

Lemma get_item_returns_success_body_witness :
  exists evs resp,
    extends world queued_after_503 (snd (run_get_item queued_after_503))
      (evs ++ [EvSetImgInfo item_queued]) /\
    last (requests evs) = Some (Ok (Some resp)) /\
    is_success (Some resp) = true /\ json_body resp = Some item_queued /\
    img_info (snd (run_get_item queued_after_503)) = item_queued /\
    (length (requests evs) <= 5)%nat /\
    Forall (eq (item_url domain "RCMImageProducts" "a1" "EODMS")) (urls evs).
Proof.
  apply (get_item_returns_success_body world prepare_request get_access_token
           random_random py_float domain "RCMImageProducts" "a1" "EODMS"
           queued_after_503).
  - vm_compute. reflexivity.
  - discriminate.
Defined.

(** A query result that names its collection and, under [featureId], its
    archive. *)
Definition feature_result : query_result :=
  MkQueryResult (Some "u1")
    (Some [("collectionId", JStr "RCMImageProducts"); ("archiveId", JStr "");
           ("featureId", JStr "f1")]).

Example resolve_ids_by_feature :
  _resolve_ids py_str feature_result = Some ("RCMImageProducts", "f1").
Proof. reflexivity. Qed.

Lemma resolve_ids_priority_witness :
  _resolve_ids py_str feature_result = Some ("RCMImageProducts", "f1") /\
  ("RCMImageProducts" <> EmptyString /\ "f1" <> EmptyString).
Proof.
  split; [reflexivity|].
  destruct (proj1 (resolve_ids_priority py_str feature_result)
              "RCMImageProducts" "f1" eq_refl) as (H1 & H2 & _).
  split; [exact H1 | exact H2].
Defined.

Example get_items_from_results_skips_unresolved :
  fst (get_items_from_results world prepare_request get_access_token
         random_random perf_counter py_float py_str domain
         [MkQueryResult None None; feature_result] "EODMS" 0%Q
         (start [answer 200 (Some item_queued)])) =
  Ok (MkBuckets [] [item_queued] []).
Proof. vm_compute. reflexivity. Qed.

Lemma get_items_missing_key_witness :
  exists x,
    fst (run_get_items [entry "a1"; {[ "archiveId" := "a2" ]}] three_answers)
    = Raise x.
Proof.
  apply (get_items_missing_key world prepare_request get_access_token
           random_random perf_counter py_float domain
           [entry "a1"; {[ "archiveId" := "a2" ]}] "EODMS" 0%Q three_answers).
  exists {[ "archiveId" := "a2" ]}. split.
  - apply list_elem_of_further, list_elem_of_here.
  - left. vm_compute. reflexivity.
Defined.

Example missing_key_is_key_error :
  fst (run_get_items [entry "a1"; {[ "archiveId" := "a2" ]}] three_answers)
  = Raise KeyError.
Proof. vm_compute. reflexivity. Qed.

End PollerScenario.

(** ** Concrete runs of the downloader *)

Module DownloadScenario.
Import Paths Downloads.

(** The network answers from a script. *)
Definition requests_get (url : string) (w : list get_outcome)
  : get_outcome * list get_outcome :=
  match w with
  | [] => (GetFails ConnectionError, [])
  | out :: rest => (out, rest)
  end.

Definition random_random (w : list get_outcome)
  : unit_float * list get_outcome :=
  (PollerScenario.half, w).

Definition sized_url : string := "https://x/test.zip?size=4".

Definition plain_url : string := "https://x/data.bin".

(** [urlparse] and [parse_qs] on the two urls of the scenarios. *)
Definition url_path (url : string) : string :=
  if String.eqb url sized_url then "/test.zip"
  else if String.eqb url plain_url then "/data.bin"
  else EmptyString.

Definition url_query (url : string) : gmap string (list string) :=
  if String.eqb url sized_url then {[ "size" := ["4"] ]} else ∅.

(** An archive starts with the two bytes [PK]; its only member is what
    follows them. *)
Definition zip_read (data : list Byte.byte)
  : list (string * list Byte.byte) * bool :=
  match data with
  | Byte.x50 :: Byte.x4b :: rest => ([("a.txt", rest)], true)
  | _ => ([], false)
  end.

Definition start (outs : list get_outcome)
    (files : gmap string (list Byte.byte)) : State (list get_outcome) :=
  MkState (list get_outcome) outs files [].

Definition run_job (unzip keep_zip : bool) (url : string)
    (s : State (list get_outcome))
  : result download_result * State (list get_outcome) :=
  job (list get_outcome) requests_get random_random PollerScenario.parse_int
    url_path url_query zip_read "out" unzip keep_zip url (JStr "a1") s.

Definition run_download (url dest : string) (s : State (list get_outcome))
  : result string * State (list get_outcome) :=
  _download_with_retries (list get_outcome) requests_get random_random
    PollerScenario.parse_int url_query url dest 5 1%Q 20%Q s.

Definition four_bytes : list Byte.byte :=
  [Byte.x50; Byte.x4b; Byte.x01; Byte.x02].

Definition not_a_zip : list Byte.byte :=
  [Byte.x00; Byte.x00; Byte.x00; Byte.x00].

(** A first attempt that breaks after two bytes, then a whole body. *)
Definition interrupted_then_whole : State (list get_outcome) :=
  start [GetResponse 200 ∅ [[Byte.x50; Byte.x4b]] (Some ConnectionError);
         GetResponse 200 ∅ [[Byte.x50; Byte.x4b]; []; [Byte.x01; Byte.x02]] None]
    ∅.

Definition sized_result : download_result :=
  MkResult (JStr "a1") "out/completed/test.zip" None.

Example interrupted_download_completes :
  fst (run_job false true sized_url interrupted_then_whole) = Ok sized_result /\
  fs (snd (run_job false true sized_url interrupted_then_whole))
    !! "out/completed/test.zip" = Some four_bytes /\
  fs (snd (run_job false true sized_url interrupted_then_whole))
    !! "out/in_progress/test.zip.part" = None.
Proof. vm_compute. repeat split. Qed.

Lemma completed_never_partial_witness :
  exists evs,
    extends (list get_outcome) interrupted_then_whole
      (snd (run_job false true sized_url interrupted_then_whole)) evs /\
    forall f,
      observed (list get_outcome) evs
        (snd (run_job false true sized_url interrupted_then_whole)) f ->
      never_partial PollerScenario.parse_int url_query sized_url
        (fs interrupted_then_whole
           !! join (join "out" "completed") (filename_of url_path sized_url))
        evs
        (f !! join (join "out" "completed") (filename_of url_path sized_url)).
Proof.
  apply (completed_never_partial (list get_outcome) requests_get random_random
           PollerScenario.parse_int url_path url_query zip_read
           "out" false true sized_url (JStr "a1") interrupted_then_whole
           (snd (run_job false true sized_url interrupted_then_whole))
           (Ok sized_result)).
  vm_compute. reflexivity.
Defined.

(** The completed file is already there with the announced size. *)
Definition already_there (data : list Byte.byte) (outs : list get_outcome)
  : State (list get_outcome) :=
  start outs {[ "out/completed/test.zip" := data ]}.



(** A body of three bytes under [Content-Length: 10], no size in the url. *)
Definition short_body : get_outcome :=
  GetResponse 200 {[ "Content-Length" := "10" ]}
    [[Byte.x01; Byte.x02; Byte.x03]] None.

(** C6 fails for a size known from [Content-Length] only: the attempt is a
    success and the three bytes are committed. *)
Lemma content_length_not_checked :
  _parse_expected_size PollerScenario.parse_int url_query
    plain_url (Some {[ "Content-Length" := "10" ]}) = Some 10 /\
  fst (run_download plain_url "out/in_progress/data.bin" (start [short_body] ∅))
    = Ok "out/in_progress/data.bin" /\
  fs (snd (run_download plain_url "out/in_progress/data.bin"
             (start [short_body] ∅)))
    !! "out/in_progress/data.bin" = Some [Byte.x01; Byte.x02; Byte.x03].
Proof. vm_compute. repeat split. Qed.

(** A body of three bytes where the url announces four, then the whole
    body. *)
Definition short_then_whole : State (list get_outcome) :=
  start [GetResponse 200 ∅ [[Byte.x01; Byte.x02; Byte.x03]] None;
         GetResponse 200 ∅ [four_bytes] None] ∅.

Lemma size_mismatch_fails_attempt_witness :
  (exists body,
      fs (snd (run_download sized_url "out/in_progress/test.zip" short_then_whole))
        !! "out/in_progress/test.zip" = Some body /\
      Z.of_nat (length body) = 4) /\
  exists s1,
    try_attempt (list get_outcome) requests_get random_random
      PollerScenario.parse_int url_query sized_url "out/in_progress/test.zip"
      5 1%Q 20%Q 1 short_then_whole = (Failed IOError, s1).
Proof.
  destruct (size_mismatch_fails_attempt (list get_outcome) requests_get
              random_random PollerScenario.parse_int url_query
              sized_url "out/in_progress/test.zip" 5 1%Q 20%Q 4)
    as [Hok Hbad].
  { vm_compute. reflexivity. }
  split.
  - apply (Hok short_then_whole _ "out/in_progress/test.zip"); [lia|].
    vm_compute. reflexivity.
  - destruct (Hbad 1%nat [2; 3; 4; 5]%nat short_then_whole 200 ∅
                [[Byte.x01; Byte.x02; Byte.x03]]
                [GetResponse 200 ∅ [four_bytes] None])
      as (s1 & Hfail & _); [reflexivity | reflexivity | reflexivity | discriminate |].
    by exists s1.
Defined.

Lemma download_leaves_no_part_witness :
  fs (snd (run_download sized_url "out/in_progress/test.zip"
             interrupted_then_whole))
    !! ("out/in_progress/test.zip" +:+ ".part") = None.
Proof.
  destruct (download_leaves_no_part (list get_outcome) requests_get
              random_random PollerScenario.parse_int url_query sized_url
              "out/in_progress/test.zip" 5%nat 1%Q 20%Q interrupted_then_whole
              (snd (run_download sized_url "out/in_progress/test.zip"
                      interrupted_then_whole))
              (fst (run_download sized_url "out/in_progress/test.zip"
                      interrupted_then_whole)))
    as [Hpart _].
  - lia.
  - vm_compute. reflexivity.
  - exact Hpart.
Defined.

(** The network is down: every GET raises. *)
Definition offline : State (list get_outcome) := start [] ∅.

Example offline_download_raises :
  fst (run_download plain_url "out/in_progress/data.bin" offline)
  = Raise ConnectionError /\
  n_gets (log (snd (run_download plain_url "out/in_progress/data.bin" offline)))
  = 5%nat.
Proof. vm_compute. split; reflexivity. Qed.

Lemma download_request_budget_witness :
  exists tr,
    net (log (snd (run_download plain_url "out/in_progress/data.bin" offline)))
      = net (log offline) ++ tr /\
    (n_gets tr <= 5)%nat /\
    length (sleeps tr) = (n_gets tr - 1)%nat /\
    (Backoff.total (sleeps tr) <= inject_Z (Z.of_nat (5 - 1)) * 20)%Q.
Proof.
  destruct (download_request_budget (list get_outcome) requests_get
              random_random PollerScenario.parse_int url_query plain_url
              "out/in_progress/data.bin" 5%nat 1%Q 20%Q offline
              (snd (run_download plain_url "out/in_progress/data.bin" offline))
              (fst (run_download plain_url "out/in_progress/data.bin" offline)))
    as (tr & Hnet & Hgets & _ & Hsleeps & _ & Htotal).
  - vm_compute. reflexivity.
  - exists tr. split; [exact Hnet|]. split; [exact Hgets|].
    split; [exact Hsleeps|]. apply Htotal. vm_compute. discriminate.
Defined.

(** A completed archive, not yet expanded. *)
Definition archive_there : State (list get_outcome) :=
  already_there four_bytes [].

Definition run_unzip (keep_zip : bool) (s : State (list get_outcome))
  : result (option string) * State (list get_outcome) :=
  _maybe_unzip (list get_outcome) zip_read "out/completed/test.zip"
    "out/completed" keep_zip s.

Lemma maybe_unzip_archive_fate_witness :
  _maybe_unzip (list get_outcome) zip_read "out/completed/data.bin"
    "out/completed" false archive_there = (Ok None, archive_there) /\
  fst (run_unzip false archive_there) = Ok (Some "out/completed/test") /\
  fs (snd (run_unzip false archive_there)) !! "out/completed/test.zip" = None /\
  fs (snd (run_unzip false archive_there)) !! "out/completed/test/a.txt"
    = Some [Byte.x01; Byte.x02].
Proof.
  destruct (maybe_unzip_archive_fate (list get_outcome) zip_read
              "out/completed/data.bin" "out/completed" false archive_there)
    as (Hplain & _).
  destruct (maybe_unzip_archive_fate (list get_outcome) zip_read
              "out/completed/test.zip" "out/completed" false archive_there)
    as (_ & Hgoes & Hfate).
  split; [|split; [|split]].
  - apply Hplain. vm_compute. reflexivity.
  - apply (Hgoes four_bytes); vm_compute; reflexivity.
  - pose proof (Hfate (snd (run_unzip false archive_there))
                  (Ok (Some "out/completed/test"))) as H.
    simpl in H. apply H.
    + vm_compute. reflexivity.
    + intros member Heq. vm_compute in Heq. discriminate.
  - vm_compute. reflexivity.
Defined.

(** An expansion that fails leaves the file, whatever [keep_zip] says. *)
Example failed_unzip_keeps_archive :
  fst (run_unzip false (already_there not_a_zip [])) = Raise BadZipFile /\
  fs (snd (run_unzip false (already_there not_a_zip [])))
    !! "out/completed/test.zip" = Some not_a_zip.
Proof. vm_compute. split; reflexivity. Qed.

Lemma job_frame_witness :
  exists evs,
    preserves (list get_outcome)
      (fun p => ~ task_paths url_path "out" sized_url p)
      interrupted_then_whole
      (snd (run_job false true sized_url interrupted_then_whole)) evs.
Proof.
  apply (job_frame (list get_outcome) requests_get random_random
           PollerScenario.parse_int url_path url_query zip_read
           "out" false true sized_url (JStr "a1") interrupted_then_whole
           (snd (run_job false true sized_url interrupted_then_whole))
           (Ok sized_result)).
  vm_compute. reflexivity.
Defined.

Lemma job_result_in_completed_witness :
  r_dest sized_result =
    dir_prefix "out" +:+ "completed" +:+ "/" +:+ filename_of url_path sized_url /\
  exists body,
    fs (snd (run_job false true sized_url interrupted_then_whole))
      !! r_dest sized_result = Some body.
Proof.
  destruct (job_result_in_completed (list get_outcome) requests_get
              random_random PollerScenario.parse_int url_path url_query zip_read
              "out" false true sized_url (JStr "a1") interrupted_then_whole
              (snd (run_job false true sized_url interrupted_then_whole))
              sized_result)
    as (_ & Hdest & _ & _ & Hfile & _).
  - vm_compute. reflexivity.
  - split; [exact Hdest|]. apply Hfile. reflexivity.
Defined.

(** Three ready items: one whose body arrives, one without a url, one whose
    download meets a network that is down. *)
Definition three_ready : list (list (string * json)) :=
  [[("archiveId", JStr "a1"); ("download_url", JStr sized_url)];
   [("archiveId", JStr "a2")];
   [("datasetId", JStr "d3"); ("download_url", JStr plain_url)]].

Definition run_items (ready : list (list (string * json)))
    (s : State (list get_outcome))
  : result (list download_result) * State (list get_outcome) :=
  download_items (list get_outcome) requests_get random_random
    PollerScenario.parse_int url_path url_query zip_read ready "out"
    false true s.

Definition one_body : State (list get_outcome) :=
  start [GetResponse 200 ∅ [four_bytes] None] ∅.

Example one_of_two_tasks_succeeds :
  fst (run_items three_ready one_body) = Ok [sized_result] /\
  errors (log (snd (run_items three_ready one_body))) = [ConnectionError].
Proof. vm_compute. split; reflexivity. Qed.

Lemma download_items_accounting_witness :
  (length [sized_result] +
   length (errors (log (snd (run_items three_ready one_body)))) =
   length (omap task_of three_ready) + length (errors (log one_body)))%nat.
Proof.
  destruct (download_items_accounting (list get_outcome) requests_get
              random_random PollerScenario.parse_int url_path url_query zip_read
              three_ready "out" false true one_body
              (snd (run_items three_ready one_body)) [sized_result])
    as (Hcount & _).
  - vm_compute. reflexivity.
  - exact Hcount.
Defined.

Lemma safe_filename_direct_child_witness :
  _safe_filename (list get_outcome) url_path sized_url "out" offline
    = Ok "out/test.zip" /\
  basename "out/test.zip" = filename_of url_path sized_url.
Proof.
  split; [reflexivity|].
  destruct (safe_filename_direct_child (list get_outcome) url_path sized_url
              "out" offline "out/test.zip") as (_ & Hbase & _).
  - reflexivity.
  - exact Hbase.
Defined.

End DownloadScenario.

(** ** Concrete runs of the persistence shadow *)

Module RcmDbScenario.
Import RcmDb.

(** [sqlite3] binds [None], [str], [int], [float] and, through its default
    adapter, [datetime]; nothing else. *)
Definition sql_adapt (v : pyval) : option sqlval :=
  match v with
  | PNone => Some SNull
  | PStr s => Some (SText s)
  | PInt z => Some (SInt z)
  | PFloat q => Some (SReal q)
  | PDatetime iso _ _ => Some (SText iso)
  | PObj _ => None
  end.

Definition json_dumps (v : pyval) : option string :=
  match v with
  | PNone => Some "null"
  | _ => None
  end.

(** [str(Path(p))] on paths that are already in normal form. *)
Definition path_str (p : string) : string := p.

Definition empty_handle : handle := MkHandle true (MkDb [] []).

Definition meta : gmap string pyval :=
  {[ "sensor_mode" := PStr "SC30MCPB"; "name" := PStr "scene" ]}.

Definition started : handle :=
  mark_in_progress sql_adapt json_dumps "p1" None meta
    "out/completed/p1.zip" "2025-01-01 00:00:00" true empty_handle.

Definition finished : handle :=
  mark_success sql_adapt json_dumps path_str "p1" None
    "out/completed/p1.zip" ∅
    (Some (2097152, Some "d41d8cd98f00b204e9800998ecf8427e"))
    "2025-01-01 00:05:00" true started.

Example finished_one_row :
  map (fun r => (r product_id, r status, r sensor_mode, r file_size_mb))
    (downloads (db finished)) =
  [(SText "p1", SText "completed", SText "SC30MCPB", SReal (2097152 / 1048576))].
Proof. vm_compute. reflexivity. Qed.


Lemma mark_in_progress_frame_witness :
  length (downloads (db (mark_in_progress sql_adapt json_dumps "p1" None ∅
                           "elsewhere/p1.zip" "2025-01-02 00:00:00" true
                           finished))) =
  length (downloads (db finished)).
Proof.
  apply (mark_in_progress_frame sql_adapt json_dumps finished "p1" None ∅
           "elsewhere/p1.zip" "2025-01-02 00:00:00" true).
  apply has_row_of_existsb. vm_compute. reflexivity.
Defined.

(** A store that also has the misspelt column is accepted. *)
Example misspelt_schema_enabled :
  open_db
    (Database
       (<[ "downloads" := _EXPECTED_DL_COLS ∪ {[ "acquisition_time" ]} ]>
          interface_schema)) = true.
Proof.
  apply open_db_enabled_iff. eexists. split; [reflexivity|].
  unfold _EXPECTED_DL_TABLE, _EXPECTED_QUERY_TABLE.
  rewrite lookup_insert_eq, lookup_insert_ne by discriminate.
  unfold interface_schema. rewrite lookup_insert_eq. simpl.
  split; [reflexivity | apply union_subseteq_l].
Qed.

(** A database file that is not there. *)
Lemma disabled_store_is_inert_witness :
  run_ops sql_adapt json_dumps path_str
    [OpQuery ∅ "2025-01-03 00:00:00" Done;
     OpFailed "p1" None "out/completed/p1.zip" ∅ "2025-01-03 00:00:01" true]
    (MkHandle (open_db Missing) (db finished))
  = MkHandle (open_db Missing) (db finished).
Proof.
  apply (proj1 (disabled_store_is_inert sql_adapt json_dumps path_str Missing
                  (db finished) eq_refl)).
Defined.

(** A [commit] that raises after the [INSERT] went through: the caller gets
    [None], the row is on the connection, and the next query takes the id
    after it. *)
Example unconfirmed_query_stays :
  fst (record_query sql_adapt json_dumps ∅ "2025-01-03 00:00:00" CommitFails
         empty_handle) = None /\
  map q_id
    (queries (db (snd (record_query sql_adapt json_dumps ∅
                         "2025-01-03 00:00:00" CommitFails empty_handle)))) =
  [1] /\
  fst (record_query sql_adapt json_dumps ∅ "2025-01-03 00:00:01" Done
         (snd (record_query sql_adapt json_dumps ∅ "2025-01-03 00:00:00"
                 CommitFails empty_handle))) = Some 2 /\
  snd (record_query sql_adapt json_dumps ∅ "2025-01-03 00:00:00" ExecuteFails
         empty_handle) = empty_handle.
Proof. vm_compute. repeat split. Qed.

Definition failed_later : handle :=
  mark_failed sql_adapt json_dumps "p1" (Some 7) "elsewhere/p1.zip"
    {[ "name" := PStr "other" ]} "2025-01-02 00:00:00" true finished.

Example failed_later_keeps_size :
  map (fun r => (r status, r file_path, r file_size_mb, r name, r query_id))
    (downloads (db failed_later)) =
  [(SText "failed", SText "elsewhere/p1.zip", SReal (2097152 / 1048576),
    SText "scene", SNull)].
Proof. vm_compute. reflexivity. Qed.

Lemma mark_failed_frame_witness :
  length (downloads (db failed_later)) = length (downloads (db finished)).
Proof.
  apply (mark_failed_frame sql_adapt json_dumps finished "p1" (Some 7)
           "elsewhere/p1.zip" {[ "name" := PStr "other" ]}
           "2025-01-02 00:00:00" true).
  apply has_row_of_existsb. vm_compute. reflexivity.
Defined.

Lemma mark_success_frame_witness :
  length (downloads (db (mark_success sql_adapt json_dumps path_str "p1"
                           (Some 7) "out/completed/p1.zip"
                           {[ "name" := PStr "other" ]} None
                           "2025-01-02 00:00:00" true finished))) =
  length (downloads (db finished)).
Proof.
  apply (mark_success_frame sql_adapt json_dumps path_str finished "p1"
           (Some 7) "out/completed/p1.zip" {[ "name" := PStr "other" ]} None
           "2025-01-02 00:00:00" true).
  apply has_row_of_existsb. vm_compute. reflexivity.
Defined.

(** The first row of a table. *)
Definition first_row (h : handle) : row :=
  hd (fun _ => SNull) (downloads (db h)).

Definition later_calls : list write_op :=
  [OpFailed "p1" (Some 7) "elsewhere/p1.zip" {[ "name" := PStr "other" ]}
     "2025-01-02 00:00:00" true;
   OpQuery ∅ "2025-01-02 00:00:01" CommitFails;
   OpInProgress "p2" None ∅ "out/completed/p2.zip" "2025-01-02 00:00:02" true;
   OpSuccess "p1" (Some 8) "out/completed/p1.zip" ∅ None
     "2025-01-02 00:00:03" true].

Lemma rows_persist_witness :
  exists r',
    downloads (db (run_ops sql_adapt json_dumps path_str later_calls finished))
      !! 0%nat = Some r' /\
    r' product_id = SText "p1" /\
    r' created_at = SText "2025-01-01 00:00:00" /\
    r' name = SText "scene".
Proof.
  destruct (rows_persist sql_adapt json_dumps path_str later_calls finished
              0%nat (first_row finished)) as (r' & Hl & Hk).
  - reflexivity.
  - exists r'. split; [exact Hl|].
    rewrite !Hk by reflexivity. vm_compute. repeat split.
Defined.

Lemma mark_overwrites_status_witness :
  exists before r after,
    downloads (db (mark_in_progress sql_adapt json_dumps "p1" None ∅
                     "out/completed/p1.zip" "2025-01-02 00:00:00" true
                     finished))
      = before ++ r :: after /\
    r product_id = SText "p1" /\ r status = SText "in_progress" /\
    r file_path = SText "out/completed/p1.zip" /\
    Forall (fun x => x product_id <> SText "p1") (before ++ after).
Proof.
  eapply (proj1 (mark_overwrites_status sql_adapt json_dumps finished "p1"
                   None ∅ "out/completed/p1.zip" "2025-01-02 00:00:00"
                   eq_refl _)).
  reflexivity.
  Unshelve. unfold unique_ids. vm_compute. apply NoDup_singleton.
Defined.

(** A product whose acquisition time was stored when it was started. *)
Definition started_with_time : handle :=
  mark_in_progress sql_adapt json_dumps "p1" None
    {[ "acquisition_time" := PStr "2024-12-31T23:00:00" ]}
    "out/completed/p1.zip" "2025-01-01 00:00:00" true empty_handle.

Example started_with_time_row :
  map (fun r => r acqusition_time) (downloads (db started_with_time)) =
  [SText "2024-12-31T23:00:00"].
Proof. vm_compute. reflexivity. Qed.

Lemma mark_success_rewrites_times_witness :
  exists before r after,
    downloads (db (mark_success sql_adapt json_dumps path_str "p1" None
                     "out/completed/p1.zip" ∅ None "2025-01-01 00:05:00" true
                     started_with_time))
      = before ++ r :: after /\
    r product_id = SText "p1" /\ r acqusition_time = SNull.
Proof.
  destruct (mark_success_rewrites_times sql_adapt json_dumps path_str
              started_with_time "p1" None "out/completed/p1.zip" ∅ None
              "2025-01-01 00:05:00"
              (default (fun _ => SNull)
                 (insert_row sql_adapt json_dumps "p1" None ∅ "completed"
                    SNull SNull SNull "out/completed/p1.zip" SNull SNull
                    "2025-01-01 00:05:00")))
    as (before & r & after & Heq & Hid & _ & _ & _ & _ & _ & _ & Hacq & _).
  - reflexivity.
  - unfold unique_ids. vm_compute. apply NoDup_singleton.
  - reflexivity.
  - exists before, r, after. split; [exact Heq|]. split; [exact Hid|].
    apply Hacq. reflexivity.
Defined.

End RcmDbScenario.

(** ** The two retry layers together *)


